(** * rxjs-spy: the notification control deck and the subscription graph

    A shallow embedding of [src/source/plugin/pause-plugin.ts] (the class
    [Deck] and the teardown of [PausePlugin]) and, for the graph tracker whose
    implementation is not among the sources, a model written from the
    specification and exercised as the graph plugin's tests do.

    Conventions of the embedding.
    - An rxjs [Subject] is represented by the sequence of values it has
      emitted so far, oldest first; [subject.next(x)] appends [x].
    - An rxjs [Subscription] is an object on a heap: a handle is an index in
      the deck's [heap_], and the object records whether [unsubscribe()] was
      called on it and which per-stream state its [next] callback captured.
    - A JavaScript [Map] is a [gmap].  A [forEach] of the source that
      updates each state on its own, adds up a number, or closes handles,
      has a result that does not depend on the iteration order.
    - A consumer of [stats_] does not call back into the deck while it is
      being notified, and a source delivers its notifications after
      [subscribe] has returned.
    - [subject_.next] returns only when the pipeline downstream has handled
      the notification, and until then the pipeline may call the deck: another
      intercepted stream may emit, or be subscribed to.  This matters to
      [resume], [step] and the callback of a stage, which go on after they
      have forwarded a notification.  [resume], [step] and [deliver] are the
      case where the pipeline does not call the deck meanwhile;
      [resume_during], [step_during] and [deliver_during] take what the
      pipeline does meanwhile.  A JavaScript [Map] iterates in insertion
      order, which a [gmap] does not keep: the order in which the streams are
      visited is given to [resume_during] and [step_during]. *)

From Stdlib Require Import ZArith Lia.
From stdpp Require Import base option list gmap strings.

(** ** Data model *)

(** Streams are compared by identity: an [Observable] is its identity. *)
Abbreviation Observable := nat (only parsing).

(** A handle of an rxjs [Subscription] object. *)
Abbreviation Subscription := nat (only parsing).

(** The payload of a value or error notification. *)
Abbreviation Value := nat (only parsing).

(** [Notification<any>]: what [materialize()] turns the events of a stream
    into. *)
Inductive Notification : Type :=
| NextNotification (value : Value)
| ErrorNotification (error : Value)
| CompleteNotification.

#[global] Instance Notification_eq_dec : EqDecision Notification.
Proof. solve_decision. Defined.

(** A [Subject<A>], as its emissions so far. *)
Abbreviation Subject A := (list A) (only parsing).

Definition Subject_next {A : Type} (x : A) (s : Subject A) : Subject A :=
  s ++ [x].

(** [interface DeckStats]. *)
Record DeckStats : Type := mkDeckStats {
  notifications : Z;
  paused : bool
}.

#[global] Instance DeckStats_eq_dec : EqDecision DeckStats.
Proof. solve_decision. Defined.

(** [interface State]. *)
Record State : Type := mkState {
  notifications_ : list Notification;
  subject_ : Subject Notification;
  subscription_ : option Subscription;
  tag_ : option string
}.

Definition with_notifications (ns : list Notification) (state : State) : State :=
  {| notifications_ := ns;
     subject_ := subject_ state;
     subscription_ := subscription_ state;
     tag_ := tag_ state |}.

Definition with_subject (s : Subject Notification) (state : State) : State :=
  {| notifications_ := notifications_ state;
     subject_ := s;
     subscription_ := subscription_ state;
     tag_ := tag_ state |}.

Definition with_subscription (h : option Subscription) (state : State) : State :=
  {| notifications_ := notifications_ state;
     subject_ := subject_ state;
     subscription_ := h;
     tag_ := tag_ state |}.

(** A [Subscription] object made by [source.pipe(...).subscribe({ next })]
    in [getOperator]: the stream whose state its callback captured, and
    whether it has been unsubscribed. *)
Record SubscriptionObject : Type := mkSubscriptionObject {
  captured : Observable;
  closed : bool
}.

#[global] Instance SubscriptionObject_eq_dec : EqDecision SubscriptionObject.
Proof. solve_decision. Defined.

Definition Subscription_unsubscribe (h : Subscription)
    (heap : list SubscriptionObject) : list SubscriptionObject :=
  alter (λ s, {| captured := captured s; closed := true |}) h heap.

(** The outcome of a call that may throw. *)
Inductive Outcome (A : Type) : Type :=
| Returned (a : A)
| TypeError.
Arguments Returned {A} a.
Arguments TypeError {A}.

Section deck.

(** [Match] and [read] come from [../match], which is not among the
    sources. *)
Context {Match : Type}.
Variable read : Observable → option string.

(** [class Deck]; [heap_] holds the subscription objects its interception
    stages have created. *)
Record Deck : Type := mkDeck {
  match_ : Match;
  paused_ : bool;
  states_ : gmap Observable State;
  stats_ : Subject DeckStats;
  heap_ : list SubscriptionObject
}.

Definition with_paused (b : bool) (d : Deck) : Deck :=
  {| match_ := match_ d; paused_ := b; states_ := states_ d;
     stats_ := stats_ d; heap_ := heap_ d |}.

Definition with_states (m : gmap Observable State) (d : Deck) : Deck :=
  {| match_ := match_ d; paused_ := paused_ d; states_ := m;
     stats_ := stats_ d; heap_ := heap_ d |}.

Definition with_stats (s : Subject DeckStats) (d : Deck) : Deck :=
  {| match_ := match_ d; paused_ := paused_ d; states_ := states_ d;
     stats_ := s; heap_ := heap_ d |}.

Definition with_heap (h : list SubscriptionObject) (d : Deck) : Deck :=
  {| match_ := match_ d; paused_ := paused_ d; states_ := states_ d;
     stats_ := stats_ d; heap_ := h |}.

(** [states_.forEach(state => ...)] where the body updates [state]. *)
Definition forEach (f : State → State) (d : Deck) : Deck :=
  with_states (f <$> states_ d) d.

(** [constructor(match)]; [paused_ = true] is the field initializer. *)
Definition new_Deck (match' : Match) : Deck :=
  {| match_ := match'; paused_ := true; states_ := ∅; stats_ := [];
     heap_ := [] |}.

(** [get stats()] and [get paused()]. *)
Definition stats (d : Deck) : Subject DeckStats := stats_ d.
Definition Deck_paused (d : Deck) : bool := paused_ d.

(** The sum of [broadcast_]:
    [states_.forEach(state => notifications += state.notifications_.length)]. *)
Definition buffered (m : gmap Observable State) : Z :=
  map_fold (λ _ state acc, (acc + Z.of_nat (length (notifications_ state)))%Z)
    0%Z m.

Definition current_stats (d : Deck) : DeckStats :=
  {| notifications := buffered (states_ d); paused := paused_ d |}.

Definition broadcast_ (d : Deck) : Deck :=
  with_stats (Subject_next (current_stats d) (stats_ d)) d.

(** [clear(predicate = () => true)]. *)
Definition clear (predicate : option (Notification → bool)) (d : Deck) : Deck :=
  let predicate := default (λ _, true) predicate in
  broadcast_
    (forEach (λ state,
       with_notifications
         (List.filter (λ notification, negb (predicate notification))
            (notifications_ state))
         state) d).

(** The callback [next] of the subscription made in [getOperator], for the
    state captured for [observable]. *)
Definition on_next (observable : Observable) (notification : Notification)
    (d : Deck) : Deck :=
  broadcast_
    (with_states
       (alter (λ state,
          if paused_ d
          then with_notifications (notifications_ state ++ [notification]) state
          else with_subject (Subject_next notification (subject_ state)) state)
          observable (states_ d)) d).

(** The subscribe step of [getOperator]: a new subscription object whose
    callback captured the state of [observable], stored in that state's
    [subscription_]; then [broadcast_()]. *)
Definition subscribe_stage (observable : Observable) (d : Deck) : Deck :=
  let h := length (heap_ d) in
  broadcast_
    (with_states
       (alter (with_subscription (Some h)) observable (states_ d))
       (with_heap (heap_ d ++ [{| captured := observable; closed := false |}]) d)).

(** [getOperator(subscription)(source)], where [observable] is the stream of
    the subscription's record.  What it returns to the caller is the view
    [state.subject_.asObservable().pipe(dematerialize())] of the state's
    subject.  [state.subscription_!.unsubscribe()] throws when the field is
    [undefined]. *)
Definition getOperator (observable : Observable) (d : Deck) : Outcome Deck :=
  match states_ d !! observable with
  | Some state =>
      match subscription_ state with
      | Some h =>
          Returned
            (subscribe_stage observable
               (with_heap (Subscription_unsubscribe h (heap_ d)) d))
      | None => TypeError
      end
  | None =>
      Returned
        (subscribe_stage observable
           (with_states
              (<[observable :=
                 {| notifications_ := []; subject_ := [];
                    subscription_ := None; tag_ := read observable |}]>
                 (states_ d)) d))
  end.

(** [pause()]. *)
Definition pause (d : Deck) : Deck := broadcast_ (with_paused true d).

(** The loop of [resume]:
    [while (state.notifications_.length > 0)
       state.subject_.next(state.notifications_.shift())]. *)
Fixpoint drain (pending : list Notification) (subject : Subject Notification)
    : Subject Notification :=
  match pending with
  | [] => subject
  | notification :: rest => drain rest (Subject_next notification subject)
  end.

(** [resume()], when the pipeline does not call the deck while the
    buffers are handed over ([resume_during] is the method in general). *)
Definition resume (d : Deck) : Deck :=
  broadcast_
    (with_paused false
       (forEach (λ state,
          with_notifications []
            (with_subject (drain (notifications_ state) (subject_ state)) state))
          d)).

(** [skip()]. *)
Definition skip (d : Deck) : Deck :=
  broadcast_
    (forEach (λ state,
       match notifications_ state with
       | [] => state
       | _ :: rest => with_notifications rest state
       end) d).

(** [step()], when the pipeline does not call the deck meanwhile
    ([step_during] is the method in general). *)
Definition step (d : Deck) : Deck :=
  broadcast_
    (forEach (λ state,
       match notifications_ state with
       | [] => state
       | notification :: rest =>
           with_notifications rest
             (with_subject (Subject_next notification (subject_ state)) state)
       end) d).

(** The handles held by the states of a deck. *)
Definition held (m : gmap Observable State) : list Subscription :=
  omap (λ entry, subscription_ entry.2) (map_to_list m).

(** [unsubscribe()]. *)
Definition unsubscribe (d : Deck) : Deck :=
  broadcast_
    (with_heap (foldr Subscription_unsubscribe (heap_ d) (held (states_ d)))
       (forEach (with_subscription None) d)).

(** [PausePlugin.teardown()], with [resume] as above; the plugin always has
    its deck. *)
Definition PausePlugin_teardown (d : Deck) : Deck := unsubscribe (resume d).

(** *** The runtime around the deck *)

(** The source of an interception stage delivers a notification on the
    subscription [h]: its callback runs unless [h] has been unsubscribed. *)
Definition deliver (h : Subscription) (notification : Notification)
    (d : Deck) : Deck :=
  match heap_ d !! h with
  | Some s => if closed s then d else on_next (captured s) notification d
  | None => d
  end.

(** The subscriptions of the stages of [observable] that are still
    subscribed. *)
Definition live_stages (observable : Observable) (d : Deck)
    : list Subscription :=
  filter (λ h, heap_ d !! h = Some {| captured := observable; closed := false |})
    (seq 0 (length (heap_ d))).

(** The stream [observable] emits: every stage still subscribed to it gets
    the notification. *)
Definition emit (observable : Observable) (notification : Notification)
    (d : Deck) : Deck :=
  foldr (λ h acc, deliver h notification acc) d (live_stages observable d).

(** What a client or the runtime can do with a deck. *)
Inductive Call : Type :=
| Clear (predicate : option (Notification → bool))
| GetOperator (observable : Observable)
| Pause
| Resume
| Skip
| Step
| Unsubscribe
| Deliver (h : Subscription) (notification : Notification).

(** A call that throws leaves the deck as it was: [getOperator] throws
    before it changes anything. *)
Definition perform (c : Call) (d : Deck) : Deck :=
  match c with
  | Clear predicate => clear predicate d
  | GetOperator observable =>
      match getOperator observable d with
      | Returned d' => d'
      | TypeError => d
      end
  | Pause => pause d
  | Resume => resume d
  | Skip => skip d
  | Step => step d
  | Unsubscribe => unsubscribe d
  | Deliver h notification => deliver h notification d
  end.

(** Whether a call runs code of the deck to its end: [getOperator] does
    unless it throws, a delivery does on a subscription that exists and is
    still subscribed. *)
Definition completes (c : Call) (d : Deck) : bool :=
  match c with
  | GetOperator observable =>
      match getOperator observable d with
      | Returned _ => true
      | TypeError => false
      end
  | Deliver h _ =>
      match heap_ d !! h with
      | Some s => negb (closed s)
      | None => false
      end
  | _ => true
  end.

Definition run (calls : list Call) (d : Deck) : Deck :=
  foldl (λ acc c, perform c acc) d calls.

(** The decks at which a run of calls publishes: the deck as each call
    that runs to its end leaves it. *)
Fixpoint snapshots (calls : list Call) (d : Deck) : list Deck :=
  match calls with
  | [] => []
  | c :: calls' =>
      (if completes c d then [perform c d] else [])
      ++ snapshots calls' (perform c d)
  end.

(** *** [resume] and [step] while the pipeline reacts *)

(** One turn of the loop of [resume], and the body of the callback of
    [step], for the state of [observable]:
    [state.subject_.next(state.notifications_.shift())] when the buffer is
    not empty. *)
Definition forward_head (observable : Observable) (d : Deck) : Deck :=
  with_states
    (alter (λ state,
       match notifications_ state with
       | [] => state
       | notification :: rest =>
           with_notifications rest
             (with_subject (Subject_next notification (subject_ state)) state)
       end) observable (states_ d)) d.

(** The loop of [resume] for the state of [observable], when the pipeline
    does not call the deck meanwhile. *)
Definition drain_stream (observable : Observable) (d : Deck) : Deck :=
  with_states
    (alter (λ state,
       with_notifications []
         (with_subject (drain (notifications_ state) (subject_ state)) state))
       observable (states_ d)) d.

(** Where [forEach] forwards next: the first stream of [order] that has
    something buffered, and the streams still to visit from that one on. *)
Fixpoint next_waiting (order : list Observable) (d : Deck)
    : option (Observable * list Observable) :=
  match order with
  | [] => None
  | observable :: order' =>
      match from_option notifications_ [] (states_ d !! observable) with
      | [] => next_waiting order' d
      | _ :: _ => Some (observable, order)
      end
  end.

(** The [forEach] of [resume()], visiting the streams in [order], while the
    pipeline reacts: the calls of the first reaction are made on the deck
    before the [subject_.next] of the first forwarded notification returns,
    those of the second before that of the second returns, and so on; once
    the reactions are used up the pipeline leaves the deck alone.  A stream
    whose buffer is empty when it is reached is left behind for good. *)
Fixpoint drain_during (reactions : list (list Call))
    (order : list Observable) (d : Deck) : Deck :=
  match reactions with
  | [] => foldl (λ acc observable, drain_stream observable acc) d order
  | reaction :: reactions' =>
      match next_waiting order d with
      | Some (observable, order') =>
          drain_during reactions' order' (run reaction (forward_head observable d))
      | None => d
      end
  end.

(** [state.subject_.next(notification)] of the callback [next], which
    runs when the deck is not paused. *)
Definition forward_live (observable : Observable) (notification : Notification)
    (d : Deck) : Deck :=
  with_states
    (alter (λ state,
       with_subject (Subject_next notification (subject_ state)) state)
       observable (states_ d)) d.

(** The callback of the subscription [h] while the pipeline reacts: on a
    deck that is not paused the notification is forwarded, the pipeline makes
    the calls of [reaction], and then the callback publishes; on a paused deck
    the notification is buffered and nothing is forwarded. *)
Definition deliver_during (h : Subscription) (notification : Notification)
    (reaction : list Call) (d : Deck) : Deck :=
  match heap_ d !! h with
  | Some s =>
      if closed s then d
      else if paused_ d then on_next (captured s) notification d
      else broadcast_ (run reaction (forward_live (captured s) notification d))
  | None => d
  end.

(** [resume()] while the pipeline reacts: [paused_] is set to [false] only
    after the [forEach], so that what is delivered meanwhile is buffered.
    The source visits every stream it tracks, in the order in which their
    states were created; any list of streams is accepted here, so that the
    decks the source can come to are among those covered. *)
Definition resume_during (order : list Observable)
    (reactions : list (list Call)) (d : Deck) : Deck :=
  broadcast_ (with_paused false (drain_during reactions order d)).

(** The [forEach] of [step()], visiting the streams in [order], while the
    pipeline reacts: a reaction is used up by each notification that is
    forwarded. *)
Fixpoint step_through (order : list Observable)
    (reactions : list (list Call)) (d : Deck) : Deck :=
  match order with
  | [] => d
  | observable :: order' =>
      match from_option notifications_ [] (states_ d !! observable) with
      | [] => step_through order' reactions d
      | _ :: _ =>
          step_through order' (tail reactions)
            (run (default [] (head reactions)) (forward_head observable d))
      end
  end.

(** [step()] while the pipeline reacts. *)
Definition step_during (order : list Observable)
    (reactions : list (list Call)) (d : Deck) : Deck :=
  broadcast_ (step_through order reactions d).

(** [PausePlugin.teardown()] while the pipeline reacts to what [resume()]
    forwards. *)
Definition PausePlugin_teardown_during (order : list Observable)
    (reactions : list (list Call)) (d : Deck) : Deck :=
  unsubscribe (resume_during order reactions d).

(** The decks a program can have between two calls: a new one, and what
    the calls make of it, whether the pipeline reacts to what [resume()],
    [step()] and the callbacks forward or not. *)
Inductive reachable : Deck → Prop :=
| reachable_new (match' : Match) : reachable (new_Deck match')
| reachable_perform (c : Call) (d : Deck) :
    reachable d → reachable (perform c d)
| reachable_resume_during (order : list Observable)
    (reactions : list (list Call)) (d : Deck) :
    reachable d → reachable (resume_during order reactions d)
| reachable_step_during (order : list Observable)
    (reactions : list (list Call)) (d : Deck) :
    reachable d → reachable (step_during order reactions d)
| reachable_deliver_during (h : Subscription) (notification : Notification)
    (reaction : list Call) (d : Deck) :
    reachable d → reachable (deliver_during h notification reaction d).

(** The decks a program passes through, also in the middle of [resume()],
    of [step()] and of a callback: every reachable deck is among them, and
    so is every deck at which a record is published. *)
Inductive underway : Deck → Prop :=
| underway_new (match' : Match) : underway (new_Deck match')
| underway_perform (c : Call) (d : Deck) :
    underway d → underway (perform c d)
| underway_forward (observable : Observable) (d : Deck) :
    underway d → underway (forward_head observable d)
| underway_forward_live (observable : Observable)
    (notification : Notification) (d : Deck) :
    underway d → underway (forward_live observable notification d)
| underway_drain (observable : Observable) (d : Deck) :
    underway d → underway (drain_stream observable d)
| underway_resumed (d : Deck) :
    underway d → underway (broadcast_ (with_paused false d))
| underway_broadcast (d : Deck) :
    underway d → underway (broadcast_ d).

Definition is_Resume (c : Call) : bool :=
  match c with Resume => true | _ => false end.

(** *** Observations *)

(** The buffer of a stream, and what its subject has forwarded. *)
Definition buffer_of (observable : Observable) (d : Deck) : list Notification :=
  from_option notifications_ [] (states_ d !! observable).

Definition forwarded (observable : Observable) (d : Deck) : list Notification :=
  from_option subject_ [] (states_ d !! observable).

Definition held_by (observable : Observable) (d : Deck) : option Subscription :=
  states_ d !! observable ≫= subscription_.

(** The subscription object [h] exists and [unsubscribe()] was called on
    it; it exists and is still subscribed. *)
Definition torn_down (h : Subscription) (d : Deck) : Prop :=
  closed <$> heap_ d !! h = Some true.

Definition still_subscribed (h : Subscription) (d : Deck) : Prop :=
  closed <$> heap_ d !! h = Some false.

(** *** Properties of decks *)

(** The deck is paused, or it buffers nothing.  Calls during which the
    pipeline does not call the deck keep this; [resume()] in general does
    not, since what arrives while it forwards is buffered. *)
Definition buffers_ok (d : Deck) : Prop :=
  paused_ d = false → ∀ o, buffer_of o d = [].

(** The statistics published last, if any, are those of the deck as it
    is. *)
Definition stats_ok (d : Deck) : Prop :=
  stats_ d = [] ∨ last (stats_ d) = Some (current_stats d).

(** The subscription a state holds is a subscribed one whose callback
    captured that state, and every subscribed one is held by the state it
    captured. *)
Definition heap_ok (d : Deck) : Prop :=
  (∀ o h, held_by o d = Some h →
     heap_ d !! h = Some {| captured := o; closed := false |})
  ∧ (∀ h s, heap_ d !! h = Some s → closed s = false →
       held_by (captured s) d = Some h).

(** [stats_ok] and [heap_ok] hold of every reachable deck; [deck_inv] adds
    [buffers_ok]. *)
Definition deck_inv (d : Deck) : Prop := buffers_ok d ∧ stats_ok d ∧ heap_ok d.

(** *** What a run of calls brings to a stream *)

(** The notification a call delivers to the state of [observable], if any:
    that of a delivery on a subscription that is still subscribed and whose
    callback captured that state. *)
Definition arrival (observable : Observable) (c : Call) (d : Deck)
    : list Notification :=
  match c with
  | Deliver h notification =>
      match heap_ d !! h with
      | Some s =>
          if closed s then []
          else if decide (captured s = observable) then [notification] else []
      | None => []
      end
  | _ => []
  end.

(** The notifications a run of calls delivers to the state of
    [observable], in the order of the calls. *)
Fixpoint arrivals (observable : Observable) (calls : list Call) (d : Deck)
    : list Notification :=
  match calls with
  | [] => []
  | c :: calls' =>
      arrival observable c d ++ arrivals observable calls' (perform c d)
  end.

(** The calls that throw buffered notifications away, and the calls that
    forward buffered notifications. *)
Definition discards (c : Call) : bool :=
  match c with Clear _ | Skip => true | _ => false end.

Definition releases (c : Call) : bool :=
  match c with Step | Resume => true | _ => false end.

Definition is_GetOperator (c : Call) : bool :=
  match c with GetOperator _ => true | _ => false end.

(** The number of streams that have something buffered. *)
Definition waiting (m : gmap Observable State) : Z :=
  map_fold (λ _ state acc,
    (acc + match notifications_ state with [] => 0 | _ :: _ => 1 end)%Z) 0%Z m.

End deck.

Arguments Deck Match : clear implicits.

(** *** Decks to run the operations on *)

(** No stream is tagged. *)
Definition untagged : Observable → option string := λ _, None.

(** A deck with one stream, 7, under interception. *)
Definition intercepting : Deck unit :=
  run untagged [GetOperator 7] (new_Deck ()).

(** The same deck after the values 1 and 2 arrived while it was paused. *)
Definition buffering : Deck unit :=
  run untagged
    [GetOperator 7; Deliver 0 (NextNotification 1);
     Deliver 0 (NextNotification 2)]
    (new_Deck ()).

(** A deck with two streams under interception, 8 subscribed to before 7,
    after the value 1 arrived on 7 while the deck was paused.  The stage of
    8 has the handle 0 and that of 7 the handle 1. *)
Definition relaying : Deck unit :=
  run untagged
    [GetOperator 8; GetOperator 7; Deliver 1 (NextNotification 1)]
    (new_Deck ()).

(** [resume()] on that deck in a program whose consumer of 7 makes 8 emit
    the value 2 when it is handed the value 1, as in
    [s7.subscribe(value => s8.next(value + 1))] with [s7] and [s8] the
    intercepted streams: [forEach] visits 8 before 7, in the order in which
    the states were created. *)
Definition relayed : Deck unit :=
  resume_during untagged [8; 7] [[Deliver 0 (NextNotification 2)]] relaying.


(** *** The plugin around the deck *)

Module PausePlugin.
Section plugin.

(** [matches] and [matchToString] come from [../match], which is not among
    the sources; whether a subscription matches is taken as a function of the
    stream of its record. *)
Context {Match : Type}.
Variable read : Observable → option string.
Variable matches : Observable → Match → bool.
Variable matchToString : Match → string.

(** [class PausePlugin extends BasePlugin]; [name] is what the constructor
    hands to [super]. *)
Record PausePlugin : Type := mkPausePlugin {
  name : string;
  match_ : Match;
  deck_ : Deck Match
}.

(** [constructor({ match, pluginHost })]. *)
Definition new_PausePlugin (match' : Match) : PausePlugin :=
  {| name := "pause(" +:+ matchToString match' +:+ ")";
     match_ := match';
     deck_ := new_Deck match' |}.

(** [get deck()] and [get match()]. *)
Definition deck (p : PausePlugin) : Deck Match := deck_ p.
Definition match' (p : PausePlugin) : Match := match_ p.

Definition with_deck (d : Deck Match) (p : PausePlugin) : PausePlugin :=
  {| name := name p; match_ := match_ p; deck_ := d |}.

(** [getOperator(subscription)]: [None] is [undefined]; otherwise what
    [deck_.getOperator(subscription)(source)] does to the deck of the
    plugin. *)
Definition getOperator (observable : Observable) (p : PausePlugin)
    : option (Outcome PausePlugin) :=
  if matches observable (match_ p)
  then Some
         match getOperator read observable (deck_ p) with
         | Returned d => Returned (with_deck d p)
         | TypeError => TypeError
         end
  else None.

(** [teardown()], when the pipeline does not call the deck while
    [deck_.resume()] forwards, and in general. *)
Definition teardown (p : PausePlugin) : PausePlugin :=
  with_deck (PausePlugin_teardown (deck_ p)) p.

Definition teardown_during (order : list Observable)
    (reactions : list (list Call)) (p : PausePlugin) : PausePlugin :=
  with_deck (PausePlugin_teardown_during read order reactions (deck_ p)) p.

(** What the host and a client do with a plugin: the host asks it for an
    operator and tears it down; a client drives the deck it gets from
    [deck], and the runtime delivers notifications to its stages. *)
Inductive PluginCall : Type :=
| HostGetOperator (observable : Observable)
| HostTeardown
| OnDeck (c : Call).

Definition plugin_perform (c : PluginCall) (p : PausePlugin) : PausePlugin :=
  match c with
  | HostGetOperator observable =>
      match getOperator observable p with
      | Some (Returned p') => p'
      | Some TypeError | None => p
      end
  | HostTeardown => teardown p
  | OnDeck c => with_deck (perform read c (deck_ p)) p
  end.

Definition plugin_run (calls : list PluginCall) (p : PausePlugin)
    : PausePlugin :=
  foldl (λ acc c, plugin_perform c acc) p calls.

(** A client that leaves [getOperator] to the host. *)
Definition through_host (c : PluginCall) : bool :=
  match c with
  | OnDeck c => negb (is_GetOperator c)
  | _ => true
  end.

End plugin.
End PausePlugin.

(** ** The subscription graph tracker and its flush scheduler

    [graph-plugin.ts] is not among the sources; only its tests are.  The
    definitions of this part follow the specification (sections 3, 4.1 and
    4.2) and are run on the scenarios of the tests. *)

(** Modelled from the spec: the outcome of a terminated subscription,
    "completed, errored, unsubscribed"; the tracker itself is missing from the
    sources. *)
Inductive TeardownOutcome : Type := completed | errored | unsubscribed.

(** Modelled from the spec: the graph node of section 3, missing from the
    sources.  [sentinel] names the sentinel shared by the node's tree;
    [terminal] is set by [onTeardown]; [flushed] is set once the node has
    been unlinked, after which [get] no longer finds it. *)
Record GraphNode : Type := mkGraphNode {
  destination : option Subscription;
  sources : list Subscription;
  merges : list Subscription;
  sentinel : nat;
  terminal : option TeardownOutcome;
  flushed : bool
}.

(** Modelled from the spec: the tracker with its flush scheduler, missing
    from the sources: the node table keyed by subscription, the sentinels
    (each the list of its root-level sources), the retention window, and the
    armed timers with the time at which each fires, on a clock that counts
    the time elapsed. *)
Record Tracker : Type := mkTracker {
  retention_window : nat;
  clock : nat;
  nodes : gmap Subscription GraphNode;
  sentinels : list (list Subscription);
  timers : list (nat * Subscription)
}.

(** Modelled from the spec: a tracker that has observed nothing, for a
    retention window. *)
Definition new_Tracker (window : nat) : Tracker :=
  {| retention_window := window; clock := 0; nodes := ∅;
     sentinels := []; timers := [] |}.

(** Modelled from the spec: [get(subscription)], which "fails with
    NotTracked if the subscription was never observed or has already been
    flushed"; [None] is [NotTracked]. *)
Definition get (subscription : Subscription) (t : Tracker) : option GraphNode :=
  match nodes t !! subscription with
  | Some node => if flushed node then None else Some node
  | None => None
  end.

(** Modelled from the spec: the walk behind [rootDestination], "walking
    destination links to exhaustion"; a link to a node that [get] does not
    find ends the walk.  No chain is longer than the table. *)
Fixpoint furthest (fuel : nat) (t : Tracker) (current : Subscription)
    : Subscription :=
  match fuel with
  | O => current
  | S fuel' =>
      match get current t ≫= destination with
      | Some next => furthest fuel' t next
      | None => current
      end
  end.

(** Modelled from the spec: [rootDestination], "derived, the furthest
    non-null destination reachable by following destination links; null if
    this node is already a root", computed when asked for. *)
Definition rootDestination (t : Tracker) (node : GraphNode)
    : option Subscription :=
  match destination node with
  | Some next => Some (furthest (size (nodes t)) t next)
  | None => None
  end.

(** Modelled from the spec: the source list of a sentinel. *)
Definition sentinel_sources (k : nat) (t : Tracker) : list Subscription :=
  default [] (sentinels t !! k).

(** Modelled from the spec: the node of a subscription that is registered
    below the node [parent] of [d]: its destination is [d], and it shares
    the sentinel of its tree; and the node of a root under the sentinel
    [k]. *)
Definition node_below (d : Subscription) (parent : GraphNode) : GraphNode :=
  {| destination := Some d; sources := []; merges := [];
     sentinel := sentinel parent; terminal := None; flushed := false |}.

Definition root_under (k : nat) : GraphNode :=
  {| destination := None; sources := []; merges := [];
     sentinel := k; terminal := None; flushed := false |}.

(** Modelled from the spec: a node gains a source, "preserving subscribe
    order", or a merge. *)
Definition with_source (subscription : Subscription) (node : GraphNode)
    : GraphNode :=
  {| destination := destination node;
     sources := sources node ++ [subscription];
     merges := merges node;
     sentinel := sentinel node;
     terminal := terminal node;
     flushed := flushed node |}.

Definition with_merge (subscription : Subscription) (node : GraphNode)
    : GraphNode :=
  {| destination := destination node;
     sources := sources node;
     merges := merges node ++ [subscription];
     sentinel := sentinel node;
     terminal := terminal node;
     flushed := flushed node |}.

(** Modelled from the spec: the tracker with another node table. *)
Definition with_nodes (m : gmap Subscription GraphNode) (t : Tracker)
    : Tracker :=
  {| retention_window := retention_window t; clock := clock t; nodes := m;
     sentinels := sentinels t; timers := timers t |}.

(** Modelled from the spec: [onSubscribe(subscription, destination?)],
    which "registers a new Graph Node; if a destination subscription is
    already tracked, links this node's destination to it and appends this
    node to the destination's sources.  If the destination is untracked
    (e.g., it is the top of the chain), this node becomes a root and is
    attached under a newly- or previously-created sentinel for its connected
    subtree."  Which sentinel was created before for the tree of a root is
    known to the host, not to the tracker ("sentinels must be stable for the
    lifetime of a connected subtree even as that subtree's root subscription
    point changes identity (e.g., new top-level subscribers arrive/depart)"):
    [under] names it, and a root for which the host names none, or none that
    exists, gets a new sentinel.

    The table is keyed by the subscription, which is made anew by every
    subscribe call: a stream that is subscribed to again has another
    subscription and gets "a wholly new node with no relation to the pending
    flush of the old one".  An event for a subscription that the table
    already has, flushed or not, registers nothing: "an already-removed child
    cannot be re-added". *)
Definition onSubscribe (subscription : Subscription)
    (destination' : option Subscription) (under : option nat) (t : Tracker)
    : Tracker :=
  match nodes t !! subscription with
  | Some _ => t
  | None =>
      match destination' ≫= (λ d, (λ node, (d, node)) <$> get d t) with
      | Some (d, parent) =>
          with_nodes
            (<[subscription := node_below d parent]>
               (alter (with_source subscription) d (nodes t))) t
      | None =>
          match under ≫= (λ k, (λ roots, (k, roots)) <$> sentinels t !! k) with
          | Some (k, roots) =>
              {| retention_window := retention_window t;
                 clock := clock t;
                 nodes := <[subscription := root_under k]> (nodes t);
                 sentinels := <[k := roots ++ [subscription]]> (sentinels t);
                 timers := timers t |}
          | None =>
              {| retention_window := retention_window t;
                 clock := clock t;
                 nodes :=
                   <[subscription := root_under (length (sentinels t))]>
                     (nodes t);
                 sentinels := sentinels t ++ [[subscription]];
                 timers := timers t |}
          end
      end
  end.

(** Modelled from the spec: [onSourceSubscribe(parent, childSubscription)],
    "used when a pipeline step subscribes to zero or more upstream sources as
    part of construction", which "appends each source's node to
    parent.sources preserving subscribe order"; it is told once for each
    source.  A parent that [get] does not find is "a silent no-op". *)
Definition onSourceSubscribe (parent child : Subscription) (t : Tracker)
    : Tracker :=
  match get parent t with
  | Some _ => onSubscribe child (Some parent) None t
  | None => t
  end.

(** Modelled from the spec: [onMergeSubscribe(parent, innerSubscription)],
    "used when a pipeline step dynamically subscribes to an inner stream in
    response to an incoming value", which "adds the inner node to
    parent.merges"; the inner node has the parent for destination, as the
    tests read it ([getGraphRef(innerGraphRef.destination!)] is the node whose
    [merges] they count), and the sentinel of the parent. *)
Definition onMergeSubscribe (parent inner : Subscription) (t : Tracker)
    : Tracker :=
  match nodes t !! inner with
  | Some _ => t
  | None =>
      match get parent t with
      | Some node =>
          with_nodes
            (<[inner := node_below parent node]>
               (alter (with_merge inner) parent (nodes t))) t
      | None => t
      end
  end.

(** Modelled from the spec: the removal of the flush scheduler, which
    "removes node from every parent's sources/merges collection, and from the
    sentinel's tracked set if it was a root"; a node that is not in the table
    is "a silent no-op". *)
Definition unlink (subscription : Subscription) (node : GraphNode) : GraphNode :=
  {| destination := destination node;
     sources := List.filter (λ s, negb (Nat.eqb s subscription)) (sources node);
     merges := List.filter (λ s, negb (Nat.eqb s subscription)) (merges node);
     sentinel := sentinel node;
     terminal := terminal node;
     flushed := flushed node |}.

Definition mark_flushed (node : GraphNode) : GraphNode :=
  {| destination := destination node; sources := sources node;
     merges := merges node; sentinel := sentinel node;
     terminal := terminal node; flushed := true |}.

Definition flush (subscription : Subscription) (t : Tracker) : Tracker :=
  match nodes t !! subscription with
  | Some node =>
      {| retention_window := retention_window t;
         clock := clock t;
         nodes := alter mark_flushed subscription (unlink subscription <$> nodes t);
         sentinels :=
           match destination node with
           | None =>
               alter (List.filter (λ s, negb (Nat.eqb s subscription)))
                 (sentinel node) (sentinels t)
           | Some _ => sentinels t
           end;
         timers := timers t |}
  | None => t
  end.

(** Modelled from the spec: [scheduleFlush(node, outcome)], which "arms a
    timer of retention_window duration (zero duration flushes synchronously,
    still via the normal removal path)". *)
Definition scheduleFlush (subscription : Subscription) (t : Tracker) : Tracker :=
  match retention_window t with
  | O => flush subscription t
  | S _ =>
      {| retention_window := retention_window t;
         clock := clock t;
         nodes := nodes t;
         sentinels := sentinels t;
         timers := timers t ++ [(clock t + retention_window t, subscription)] |}
  end.

(** Modelled from the spec: [onTeardown(subscription, outcome)], which
    "marks the node terminal" and leaves its removal to the flush scheduler;
    a node is terminated once. *)
Definition onTeardown (subscription : Subscription) (outcome : TeardownOutcome)
    (t : Tracker) : Tracker :=
  match nodes t !! subscription with
  | Some node =>
      match terminal node with
      | Some _ => t
      | None =>
          scheduleFlush subscription
            {| retention_window := retention_window t;
               clock := clock t;
               nodes :=
                 <[subscription :=
                    {| destination := destination node;
                       sources := sources node;
                       merges := merges node;
                       sentinel := sentinel node;
                       terminal := Some outcome;
                       flushed := flushed node |}]> (nodes t);
               sentinels := sentinels t;
               timers := timers t |}
      end
  | None => t
  end.

(** Modelled from the spec: the timers that are due fire in the order in
    which they were armed, each through [flush]: "each terminal node's own
    timer fires independently". *)
Definition fire (due : list (nat * Subscription)) (t : Tracker) : Tracker :=
  foldl (λ acc timer, flush timer.2 acc) t due.

(** Modelled from the spec: time passes, and the timers whose time has come
    fire. *)
Definition advance (elapsed : nat) (t : Tracker) : Tracker :=
  let now := clock t + elapsed in
  fire (List.filter (λ timer, Nat.leb timer.1 now) (timers t))
    {| retention_window := retention_window t;
       clock := now;
       nodes := nodes t;
       sentinels := sentinels t;
       timers := List.filter (λ timer, negb (Nat.leb timer.1 now)) (timers t) |}.

(** Modelled from the spec: what the tracker is told, and the time that
    passes. *)
Inductive GraphEvent : Type :=
| OnSubscribe (subscription : Subscription) (destination' : option Subscription)
    (under : option nat)
| OnSourceSubscribe (parent child : Subscription)
| OnMergeSubscribe (parent inner : Subscription)
| OnTeardown (subscription : Subscription) (outcome : TeardownOutcome)
| Advance (elapsed : nat).

Definition handle (e : GraphEvent) (t : Tracker) : Tracker :=
  match e with
  | OnSubscribe subscription destination' under =>
      onSubscribe subscription destination' under t
  | OnSourceSubscribe parent child => onSourceSubscribe parent child t
  | OnMergeSubscribe parent inner => onMergeSubscribe parent inner t
  | OnTeardown subscription outcome => onTeardown subscription outcome t
  | Advance elapsed => advance elapsed t
  end.

Definition replay (events : list GraphEvent) (t : Tracker) : Tracker :=
  foldl (λ acc e, handle e acc) t events.

(** The trackers a program can have. *)
Inductive tracked : Tracker → Prop :=
| tracked_new (window : nat) : tracked (new_Tracker window)
| tracked_handle (e : GraphEvent) (t : Tracker) :
    tracked t → tracked (handle e t).

(** One [destination] link between nodes that [get] finds for the first. *)
Definition link (t : Tracker) (from to : Subscription) : Prop :=
  get from t ≫= destination = Some to.

(** *** Invariants of the tracker *)

(** Creation order ranks the nodes: a destination is tracked and older than
    its source, and the ranks stay below the size of the table. *)
Definition ranked (m : gmap Subscription GraphNode) : Prop :=
  ∃ rank : Subscription → nat,
    (∀ s, is_Some (m !! s) → rank s < size m)
    ∧ (∀ s node d, m !! s = Some node → destination node = Some d →
         is_Some (m !! d) ∧ rank d < rank s).

(** A root that has not been flushed is among the sources of its
    sentinel; the sources of a sentinel are subscriptions of the table; and
    none is listed twice. *)
Definition rooted (m : gmap Subscription GraphNode)
    (ss : list (list Subscription)) : Prop :=
  (∀ r node, m !! r = Some node → destination node = None →
     flushed node = false → r ∈ default [] (ss !! sentinel node))
  ∧ (∀ k y, y ∈ default [] (ss !! k) → is_Some (m !! y))
  ∧ (∀ k, NoDup (default [] (ss !! k))).

Definition tracker_inv (t : Tracker) : Prop :=
  ranked (nodes t) ∧ rooted (nodes t) (sentinels t).

(** A root whose teardown has been observed: its node stays in the table as
    a terminated root under the sentinel [k]; and either the root has left
    the sentinel or its timer is armed for [due], which is still ahead. *)
Definition flush_pending (r : Subscription) (k due : nat) (t : Tracker) : Prop :=
  (∃ node, nodes t !! r = Some node ∧ destination node = None
           ∧ sentinel node = k ∧ is_Some (terminal node))
  ∧ 0 < retention_window t
  ∧ (r ∉ sentinel_sources k t ∨ ((due, r) ∈ timers t ∧ clock t < due)).

(** A subscription whose teardown has been observed: its node stays in the
    table, terminated; and either it is in no list of sources or merges, or
    its timer is armed for [due], which is still ahead. *)
Definition unlink_pending (i : Subscription) (due : nat) (t : Tracker) : Prop :=
  (∃ node, nodes t !! i = Some node ∧ is_Some (terminal node))
  ∧ 0 < retention_window t
  ∧ ((∀ q nq, nodes t !! q = Some nq → (i ∉ sources nq) ∧ (i ∉ merges nq))
     ∨ ((due, i) ∈ timers t ∧ clock t < due)).

(** The chain of the test "should determine root destinations": [remapped]
    (12) is subscribed to, which subscribes to [mapped] (11), which
    subscribes to [subject] (10). *)
Definition chain (window : nat) : Tracker :=
  replay
    [OnSubscribe 12 None None; OnSubscribe 11 (Some 12) None;
     OnSubscribe 10 (Some 11) None]
    (new_Tracker window).

(** The tracker of the flushing tests: one subject (12) with one root
    subscription. *)
Definition one_root (window : nat) : Tracker :=
  replay [OnSubscribe 12 None None] (new_Tracker window).

(** Two root subscriptions, 12 and 13, under one sentinel: a second
    top-level subscriber arrives at a tree that has its sentinel. *)
Definition two_roots (window : nat) : Tracker :=
  replay [OnSubscribe 12 None None; OnSubscribe 13 None (Some 0)]
    (new_Tracker window).

(** The tracker of the merge tests: [composed] (20) is subscribed to, which
    subscribes to [outer] (21) as it is built; when [outer] emits a value,
    its subscriber subscribes to [inner] (22), whose destination the tests
    read as the node with the merges. *)
Definition flattening (window : nat) : Tracker :=
  replay
    [OnSubscribe 20 None None; OnSourceSubscribe 20 21; OnMergeSubscribe 21 22]
    (new_Tracker window).

(** *** The helpers of the graph tests *)

(** The result of a helper that looks nodes up: [getGraphRef] is not among
    the sources, and what it does for a subscription that [get] does not find
    is not known; the helper then has no answer. *)
Inductive Lookup (A : Type) : Type :=
| Answer (a : A)
| NoGraphRef
| OutOfFuel.
Arguments Answer {A} a.
Arguments NoGraphRef {A}.
Arguments OutOfFuel {A}.

(** [function hasDestination(graphRef, destinationRef)] of the tests, with
    [get] for [getGraphRef]; the recursion of the source is bounded by
    [fuel]. *)
Fixpoint hasDestination (fuel : nat) (t : Tracker) (graphRef : GraphNode)
    (destinationRef : Subscription) : Lookup bool :=
  match fuel with
  | O => OutOfFuel
  | S fuel' =>
      match destination graphRef with
      | None => Answer false
      | Some d =>
          if decide (d = destinationRef) then Answer true
          else
            match get d t with
            | Some next => hasDestination fuel' t next destinationRef
            | None => NoGraphRef
            end
      end
  end.

(** [Array.prototype.some] with a callback that may have no answer: the
    elements are tried in order until one answers [true]. *)
Fixpoint some {A : Type} (f : A → Lookup bool) (l : list A) : Lookup bool :=
  match l with
  | [] => Answer false
  | a :: l' =>
      match f a with
      | Answer true => Answer true
      | Answer false => some f l'
      | NoGraphRef => NoGraphRef
      | OutOfFuel => OutOfFuel
      end
  end.

(** [function hasSource(graphRef, sourceRef)] of the tests, with [get] for
    [getGraphRef]; the recursion of the source is bounded by [fuel]. *)
Fixpoint hasSource (fuel : nat) (t : Tracker) (graphRef : GraphNode)
    (sourceRef : Subscription) : Lookup bool :=
  match fuel with
  | O => OutOfFuel
  | S fuel' =>
      if bool_decide (sourceRef ∈ sources graphRef) then Answer true
      else
        some (λ s,
          match get s t with
          | Some node => hasSource fuel' t node sourceRef
          | None => NoGraphRef
          end) (sources graphRef)
  end.

(** One step from a source to the node that lists it among its sources,
    for a node that [get] finds. *)
Definition source_of (t : Tracker) (from to : Subscription) : Prop :=
  ∃ node, get to t = Some node ∧ from ∈ sources node.

(** What the lists of a node hold: a source or a merge of a node is a node
    that has not been flushed and whose destination is that node; and a node
    that has not been flushed is among the sources or the merges of its
    destination. *)
Definition sourced (m : gmap Subscription GraphNode) : Prop :=
  (∀ p np x, m !! p = Some np → x ∈ sources np ∨ x ∈ merges np →
     ∃ nx, m !! x = Some nx ∧ flushed nx = false ∧ destination nx = Some p)
  ∧ (∀ x nx d, m !! x = Some nx → flushed nx = false →
       destination nx = Some d →
       ∃ nd, m !! d = Some nd ∧ (x ∈ sources nd ∨ x ∈ merges nd)).


(** ** The control deck: basic facts *)

Section deck_facts.

Context {Match : Type}.
Variable read : Observable → option string.

Implicit Types (d : Deck Match) (state : State) (o : Observable)
  (h : Subscription) (n : Notification).

Lemma drain_app (pending : list Notification) (subject : list Notification) :
  drain pending subject = subject ++ pending.
Proof.
  revert subject.
  induction pending as [|n rest IH]; intros subject; simpl.
  - by rewrite app_nil_r.
  - rewrite IH. unfold Subject_next. by rewrite <- app_assoc.
Qed.

Lemma buffered_empty : buffered ∅ = 0%Z.
Proof. unfold buffered. by rewrite map_fold_empty. Qed.

Lemma buffered_insert (m : gmap Observable State) o state :
  m !! o = None →
  buffered (<[o := state]> m)
  = (buffered m + Z.of_nat (length (notifications_ state)))%Z.
Proof.
  intros Hfresh. unfold buffered.
  rewrite map_fold_insert_L; [done | intros; lia | done].
Qed.

Lemma buffered_nonneg (m : gmap Observable State) : (0 ≤ buffered m)%Z.
Proof.
  unfold buffered.
  apply (map_fold_weak_ind (λ total _, (0 ≤ total)%Z)); intros; lia.
Qed.

(** *** What each operation does to one stream *)

Lemma lookup_forEach (f : State → State) d o :
  states_ (forEach f d) !! o = f <$> states_ d !! o.
Proof. unfold forEach. simpl. apply lookup_fmap. Qed.

Lemma held_by_forEach (f : State → State) d o :
  (∀ state, subscription_ (f state) = subscription_ state) →
  held_by o (forEach f d) = held_by o d.
Proof.
  intros Hf. unfold held_by. rewrite lookup_forEach.
  destruct (states_ d !! o) as [state|]; simpl; [apply Hf | done].
Qed.

Lemma held_by_alter (f : State → State) d o o' :
  (∀ state, subscription_ (f state) = subscription_ state) →
  held_by o (with_states (alter f o' (states_ d)) d) = held_by o d.
Proof.
  intros Hf. unfold held_by. simpl.
  destruct (decide (o' = o)) as [->|Hne].
  - rewrite lookup_alter_eq.
    destruct (states_ d !! o) as [state|]; simpl; [apply Hf | done].
  - by rewrite lookup_alter_ne.
Qed.

Lemma buffer_of_clear predicate d o :
  buffer_of o (clear predicate d)
  = List.filter (λ n, negb (default (λ _, true) predicate n)) (buffer_of o d).
Proof.
  unfold buffer_of, clear. simpl. rewrite lookup_fmap.
  by destruct (states_ d !! o).
Qed.

Lemma forwarded_clear predicate d o :
  forwarded o (clear predicate d) = forwarded o d.
Proof.
  unfold forwarded, clear. simpl. rewrite lookup_fmap.
  by destruct (states_ d !! o).
Qed.

Lemma buffer_of_resume d o : buffer_of o (resume d) = [].
Proof.
  unfold buffer_of, resume. simpl. rewrite lookup_fmap.
  by destruct (states_ d !! o).
Qed.

Lemma forwarded_resume d o :
  forwarded o (resume d) = forwarded o d ++ buffer_of o d.
Proof.
  unfold forwarded, buffer_of, resume. simpl. rewrite lookup_fmap.
  destruct (states_ d !! o) as [state|]; simpl; [apply drain_app | done].
Qed.

Lemma buffer_of_skip d o : buffer_of o (skip d) = tail (buffer_of o d).
Proof.
  unfold buffer_of, skip. simpl. rewrite lookup_fmap.
  destruct (states_ d !! o) as [state|]; simpl; [|done].
  by destruct (notifications_ state) eqn:Hbuffer.
Qed.

Lemma forwarded_skip d o : forwarded o (skip d) = forwarded o d.
Proof.
  unfold forwarded, skip. simpl. rewrite lookup_fmap.
  destruct (states_ d !! o) as [state|]; simpl; [|done].
  by destruct (notifications_ state).
Qed.

Lemma buffer_of_step d o : buffer_of o (step d) = tail (buffer_of o d).
Proof.
  unfold buffer_of, step. simpl. rewrite lookup_fmap.
  destruct (states_ d !! o) as [state|]; simpl; [|done].
  by destruct (notifications_ state) eqn:Hbuffer.
Qed.

Lemma forwarded_step d o :
  forwarded o (step d) = forwarded o d ++ option_list (head (buffer_of o d)).
Proof.
  unfold forwarded, buffer_of, step. simpl. rewrite lookup_fmap.
  destruct (states_ d !! o) as [state|]; simpl; [|done].
  destruct (notifications_ state); simpl; [by rewrite app_nil_r | done].
Qed.

Lemma buffer_of_on_next d o o' n :
  buffer_of o' (on_next o n d)
  = if decide (o = o' ∧ paused_ d = true ∧ is_Some (states_ d !! o))
    then buffer_of o' d ++ [n] else buffer_of o' d.
Proof.
  unfold buffer_of, on_next. simpl.
  destruct (decide (o = o')) as [->|Hne].
  - rewrite lookup_alter_eq.
    destruct (states_ d !! o') as [state|] eqn:Hstate; simpl.
    + destruct (paused_ d); simpl.
      * rewrite decide_True; [done | eauto].
      * rewrite decide_False; [done | intros (_ & ? & _); congruence].
    + rewrite decide_False; [done|]. intros (_ & _ & [? ?]). congruence.
  - rewrite lookup_alter_ne by done.
    rewrite decide_False; [done | intros (? & _); congruence].
Qed.

Lemma forwarded_on_next d o o' n :
  forwarded o' (on_next o n d)
  = if decide (o = o' ∧ paused_ d = false ∧ is_Some (states_ d !! o))
    then forwarded o' d ++ [n] else forwarded o' d.
Proof.
  unfold forwarded, on_next. simpl.
  destruct (decide (o = o')) as [->|Hne].
  - rewrite lookup_alter_eq.
    destruct (states_ d !! o') as [state|] eqn:Hstate; simpl.
    + destruct (paused_ d); simpl.
      * rewrite decide_False; [done | intros (_ & ? & _); congruence].
      * rewrite decide_True; [done | eauto].
    + rewrite decide_False; [done|]. intros (_ & _ & [? ?]). congruence.
  - rewrite lookup_alter_ne by done.
    rewrite decide_False; [done | intros (? & _); congruence].
Qed.

Lemma buffer_of_subscribe_stage d o o' :
  buffer_of o' (subscribe_stage o d) = buffer_of o' d.
Proof.
  unfold buffer_of, subscribe_stage. simpl. rewrite lookup_alter.
  case_decide as Heq; [subst o'|done]. by destruct (states_ d !! o).
Qed.

Lemma forwarded_subscribe_stage d o o' :
  forwarded o' (subscribe_stage o d) = forwarded o' d.
Proof.
  unfold forwarded, subscribe_stage. simpl. rewrite lookup_alter.
  case_decide as Heq; [subst o'|done]. by destruct (states_ d !! o).
Qed.

Lemma buffer_of_unsubscribe d o : buffer_of o (unsubscribe d) = buffer_of o d.
Proof.
  unfold buffer_of, unsubscribe. simpl. rewrite lookup_fmap.
  by destruct (states_ d !! o).
Qed.

Lemma forwarded_unsubscribe d o : forwarded o (unsubscribe d) = forwarded o d.
Proof.
  unfold forwarded, unsubscribe. simpl. rewrite lookup_fmap.
  by destruct (states_ d !! o).
Qed.

Lemma held_by_unsubscribe d o : held_by o (unsubscribe d) = None.
Proof.
  unfold held_by, unsubscribe. simpl. rewrite lookup_fmap.
  by destruct (states_ d !! o).
Qed.

(** *** What the calls keep *)

Lemma heap_ok_same d d' :
  (∀ o, held_by o d' = held_by o d) → heap_ d' = heap_ d →
  heap_ok d → heap_ok d'.
Proof.
  intros Hheld Hheap [Hlive Hback]. split.
  - intros o h. rewrite Hheld, Hheap. apply Hlive.
  - intros h s. rewrite Hheld, Hheap. apply Hback.
Qed.

Lemma stats_ok_broadcast_ d : stats_ok (broadcast_ d).
Proof. right. unfold broadcast_, Subject_next. simpl. apply last_snoc. Qed.

Lemma subscribe_stage_heap_ok o d :
  is_Some (states_ d !! o) →
  (∀ o' h, o' ≠ o → held_by o' d = Some h →
     heap_ d !! h = Some {| captured := o'; closed := false |}) →
  (∀ h s, heap_ d !! h = Some s → closed s = false →
     captured s ≠ o ∧ held_by (captured s) d = Some h) →
  heap_ok (subscribe_stage o d).
Proof.
  intros [state Hstate] Hlive Hback. unfold subscribe_stage, heap_ok, held_by.
  simpl. split.
  - intros o' h. destruct (decide (o = o')) as [<-|Hne].
    + rewrite lookup_alter_eq, Hstate. simpl. intros [= <-].
      by rewrite lookup_app_r, Nat.sub_diag.
    + rewrite lookup_alter_ne by done. intros Hheld.
      specialize (Hlive o' h (not_eq_sym Hne) Hheld).
      rewrite lookup_app_l; [done|]. by eapply lookup_lt_Some.
  - intros h s Hlook Hopen.
    apply lookup_app_Some in Hlook as [Hold|[Hlen Hnew]].
    + destruct (Hback h s Hold Hopen) as [Hne Hheld].
      by rewrite lookup_alter_ne.
    + apply list_lookup_singleton_Some in Hnew as [Hzero <-]. simpl.
      rewrite lookup_alter_eq, Hstate. simpl. f_equal. lia.
Qed.

Lemma getOperator_heap_ok o d d' :
  heap_ok d → getOperator read o d = Returned d' → heap_ok d'.
Proof.
  intros (Hlive & Hback). unfold getOperator.
  destruct (states_ d !! o) as [state|] eqn:Hstate.
  - destruct (subscription_ state) as [h0|] eqn:Hsub; [|done].
    intros [= <-].
    assert (held_by o d = Some h0) as Hheld0
      by (unfold held_by; rewrite Hstate; done).
    pose proof (Hlive o h0 Hheld0) as Hobj0.
    apply subscribe_stage_heap_ok; simpl.
    + by rewrite Hstate.
    + intros o' h Hne Hheld. unfold Subscription_unsubscribe.
      pose proof (Hlive o' h Hheld) as Hobj.
      rewrite list_lookup_alter_ne; [done|].
      intros ->. rewrite Hobj0 in Hobj. congruence.
    + intros h s. unfold Subscription_unsubscribe.
      destruct (decide (h0 = h)) as [<-|Hne].
      { rewrite list_lookup_alter_eq, Hobj0. simpl. intros [= <-]. done. }
      rewrite list_lookup_alter_ne by done. intros Hobj Hopen.
      pose proof (Hback h s Hobj Hopen) as Hheld. split; [|exact Hheld].
      intros Heq. rewrite Heq, Hheld0 in Hheld. congruence.
  - intros [= <-].
    apply subscribe_stage_heap_ok; simpl.
    + rewrite lookup_insert_eq. eauto.
    + intros o' h Hne. unfold held_by. simpl.
      rewrite lookup_insert_ne by done. apply Hlive.
    + intros h s Hobj Hopen.
      pose proof (Hback h s Hobj Hopen) as Hheld. unfold held_by in *.
      simpl. destruct (decide (captured s = o)) as [Heq|Hne].
      { rewrite Heq, Hstate in Hheld. done. }
      split; [done|]. by rewrite lookup_insert_ne.
Qed.

Lemma getOperator_buffer_of o d d' o' :
  getOperator read o d = Returned d' → buffer_of o' d' = buffer_of o' d.
Proof.
  unfold getOperator.
  destruct (states_ d !! o) as [state|] eqn:Hstate.
  - destruct (subscription_ state) as [h0|]; [|done].
    intros [= <-]. by rewrite buffer_of_subscribe_stage.
  - intros [= <-]. rewrite buffer_of_subscribe_stage.
    unfold buffer_of. simpl.
    destruct (decide (o = o')) as [<-|Hne];
      [by rewrite lookup_insert_eq, Hstate | by rewrite lookup_insert_ne].
Qed.

(** Closing a list of handles closes them and no others. *)
Lemma lookup_unsubscribe_all (hs : list Subscription)
    (heap : list SubscriptionObject) h :
  foldr Subscription_unsubscribe heap hs !! h
  = (λ s, {| captured := captured s;
             closed := closed s || bool_decide (h ∈ hs) |}) <$> heap !! h.
Proof.
  induction hs as [|h' hs IH]; simpl.
  - destruct (heap !! h) as [[c b]|]; simpl; [|done].
    by rewrite orb_false_r.
  - unfold Subscription_unsubscribe at 1.
    destruct (decide (h' = h)) as [->|Hne].
    + rewrite list_lookup_alter_eq, IH.
      destruct (heap !! h) as [[c b]|]; simpl; [|done].
      rewrite bool_decide_true by left. by rewrite orb_true_r.
    + rewrite list_lookup_alter_ne, IH by done.
      destruct (heap !! h) as [[c b]|]; simpl; [|done].
      rewrite (bool_decide_ext (h ∈ h' :: hs) (h ∈ hs)); [done|].
      rewrite elem_of_cons. split; [intros [?|?]; [congruence | done] | by right].
Qed.

Lemma elem_of_held (m : gmap Observable State) h :
  h ∈ held m ↔ ∃ o state, m !! o = Some state ∧ subscription_ state = Some h.
Proof.
  unfold held. rewrite list_elem_of_omap. split.
  - intros ([o state] & Hin & Hsub). apply elem_of_map_to_list in Hin. eauto.
  - intros (o & state & Hlook & Hsub). exists (o, state).
    by rewrite elem_of_map_to_list.
Qed.

Lemma unsubscribe_heap_ok d : heap_ok d → heap_ok (unsubscribe d).
Proof.
  intros (Hlive & Hback). split.
  - intros o h. by rewrite held_by_unsubscribe.
  - intros h s. rewrite held_by_unsubscribe. unfold unsubscribe. simpl.
    rewrite lookup_unsubscribe_all.
    destruct (heap_ d !! h) as [s0|] eqn:Hobj; simpl; [|done].
    intros [= <-]. simpl. intros Hopen.
    apply orb_false_iff in Hopen as [Hopen Hnot].
    apply bool_decide_eq_false in Hnot. exfalso. apply Hnot.
    specialize (Hback h s0 Hobj Hopen). unfold held_by in Hback.
    destruct (states_ d !! captured s0) as [state|] eqn:Hstate; [|done].
    apply elem_of_held. eauto.
Qed.

(** Every call keeps the heap invariant. *)
Lemma perform_heap_ok c d : heap_ok d → heap_ok (perform read c d).
Proof.
  intros Hheap.
  destruct c as [predicate|o| | | | | |h n]; simpl.
  - apply (heap_ok_same d); [|done|done].
    intros o. by apply held_by_forEach.
  - destruct (getOperator read o d) as [d'|] eqn:Hget; [|done].
    by eapply getOperator_heap_ok.
  - by apply (heap_ok_same d).
  - apply (heap_ok_same d); [|done|done].
    intros o. unfold held_by. simpl. rewrite lookup_fmap.
    by destruct (states_ d !! o).
  - apply (heap_ok_same d); [|done|done].
    intros o. apply held_by_forEach. intros state.
    by destruct (notifications_ state).
  - apply (heap_ok_same d); [|done|done].
    intros o. apply held_by_forEach. intros state.
    by destruct (notifications_ state).
  - by apply unsubscribe_heap_ok.
  - unfold deliver. destruct (heap_ d !! h) as [s|]; [|done].
    destruct (closed s); [done|].
    apply (heap_ok_same d); [|done|done].
    intros o. apply held_by_alter. intros state. by destruct (paused_ d).
Qed.

(** A call made on a deck that is paused or has nothing buffered leaves
    such a deck, as long as the pipeline does not call the deck meanwhile. *)
Lemma perform_buffers_ok c d : buffers_ok d → buffers_ok (perform read c d).
Proof.
  intros Hbuffers.
  destruct c as [predicate|o| | | | | |h n]; simpl.
  - intros Hp o. specialize (Hbuffers Hp o).
    pose proof (buffer_of_clear predicate d o) as Hclear.
    unfold clear, buffer_of in *. simpl in *.
    rewrite Hclear, Hbuffers. done.
  - destruct (getOperator read o d) as [d'|] eqn:Hget; [|done].
    intros Hp o'. rewrite (getOperator_buffer_of o d d' o' Hget).
    apply Hbuffers. rewrite <- Hp. unfold getOperator in Hget.
    destruct (states_ d !! o) as [state|]; [|by injection Hget as <-].
    destruct (subscription_ state); [by injection Hget as <- | done].
  - done.
  - intros _ o. pose proof (buffer_of_resume d o) as Hresume.
    unfold resume, buffer_of in *. simpl in *. exact Hresume.
  - intros Hp o. specialize (Hbuffers Hp o).
    pose proof (buffer_of_skip d o) as Hskip.
    unfold skip, buffer_of in *. simpl in *. rewrite Hskip, Hbuffers. done.
  - intros Hp o. specialize (Hbuffers Hp o).
    pose proof (buffer_of_step d o) as Hstep.
    unfold step, buffer_of in *. simpl in *. rewrite Hstep, Hbuffers. done.
  - intros Hp o. rewrite buffer_of_unsubscribe. by apply Hbuffers.
  - unfold deliver. destruct (heap_ d !! h) as [s|]; [|done].
    destruct (closed s); [done|].
    intros Hp o. specialize (Hbuffers Hp o).
    pose proof (buffer_of_on_next d (captured s) o n) as Hnext.
    unfold on_next, buffer_of in *. simpl in *. rewrite Hnext.
    rewrite decide_False; [done|]. intros (_ & ? & _). congruence.
Qed.

Lemma perform_incomplete c d :
  completes read c d = false → perform read c d = d.
Proof.
  destruct c as [predicate|o| | | | | |h n]; simpl; try done.
  - by destruct (getOperator read o d).
  - unfold deliver. destruct (heap_ d !! h) as [s|]; [|done].
    by destruct (closed s).
Qed.

Lemma perform_publishes c d :
  completes read c d = true →
  stats_ (perform read c d)
  = stats_ d ++ [current_stats (perform read c d)].
Proof.
  destruct c as [predicate|o| | | | | |h n]; simpl; try done.
  - unfold getOperator.
    destruct (states_ d !! o) as [state|]; [|done].
    by destruct (subscription_ state).
  - unfold deliver. destruct (heap_ d !! h) as [s|]; [|done].
    by destruct (closed s).
Qed.

Lemma perform_stats_ok c d : stats_ok d → stats_ok (perform read c d).
Proof.
  intros Hstats. destruct (completes read c d) eqn:Hruns.
  - right. rewrite (perform_publishes c d Hruns). apply last_snoc.
  - by rewrite (perform_incomplete c d Hruns).
Qed.

Lemma perform_inv c d : deck_inv d → deck_inv (perform read c d).
Proof.
  intros (Hbuffers & Hstats & Hheap).
  split; [by apply perform_buffers_ok|].
  split; [by apply perform_stats_ok | by apply perform_heap_ok].
Qed.

Lemma run_cons c calls d :
  run read (c :: calls) d = run read calls (perform read c d).
Proof. done. Qed.

Lemma run_heap_ok calls d : heap_ok d → heap_ok (run read calls d).
Proof.
  revert d. induction calls as [|c calls IH]; intros d Hheap; [done|].
  rewrite run_cons. by apply IH, perform_heap_ok.
Qed.

Lemma run_inv calls d : deck_inv d → deck_inv (run read calls d).
Proof.
  revert d. induction calls as [|c calls IH]; intros d Hinv; [done|].
  rewrite run_cons. by apply IH, perform_inv.
Qed.

(** *** The heap invariant while [resume()] and [step()] forward *)

Lemma forward_head_heap_ok o d : heap_ok d → heap_ok (forward_head o d).
Proof.
  apply heap_ok_same; [|done]. intros o'. apply held_by_alter.
  intros state. by destruct (notifications_ state).
Qed.

Lemma drain_stream_heap_ok o d : heap_ok d → heap_ok (drain_stream o d).
Proof. apply heap_ok_same; [|done]. intros o'. by apply held_by_alter. Qed.

Lemma drain_during_heap_ok reactions order d :
  heap_ok d → heap_ok (drain_during read reactions order d).
Proof.
  revert order d.
  induction reactions as [|reaction reactions IH]; intros order d Hheap; simpl.
  - revert d Hheap. induction order as [|o order IH]; intros d Hheap; [done|].
    simpl. by apply IH, drain_stream_heap_ok.
  - destruct (next_waiting order d) as [[o order']|]; [|done].
    by apply IH, run_heap_ok, forward_head_heap_ok.
Qed.

Lemma step_through_heap_ok order reactions d :
  heap_ok d → heap_ok (step_through read order reactions d).
Proof.
  revert reactions d.
  induction order as [|o order IH]; intros reactions d Hheap; simpl; [done|].
  destruct (from_option notifications_ [] (states_ d !! o)); [by apply IH|].
  by apply IH, run_heap_ok, forward_head_heap_ok.
Qed.

Lemma resume_during_heap_ok order reactions d :
  heap_ok d → heap_ok (resume_during read order reactions d).
Proof.
  intros Hheap. by apply (heap_ok_same (drain_during read reactions order d)),
    drain_during_heap_ok.
Qed.

Lemma step_during_heap_ok order reactions d :
  heap_ok d → heap_ok (step_during read order reactions d).
Proof.
  intros Hheap. by apply (heap_ok_same (step_through read order reactions d)),
    step_through_heap_ok.
Qed.

Lemma deliver_during_heap_ok h n reaction d :
  heap_ok d → heap_ok (deliver_during read h n reaction d).
Proof.
  intros Hheap. unfold deliver_during.
  destruct (heap_ d !! h) as [s|] eqn:Hobj; [|done].
  destruct (closed s) eqn:Hopen; [done|].
  destruct (paused_ d) eqn:Hp.
  - pose proof (perform_heap_ok (Deliver h n) d Hheap) as Hnext.
    simpl in Hnext. unfold deliver in Hnext. by rewrite Hobj, Hopen in Hnext.
  - apply (heap_ok_same
             (run read reaction (forward_live (captured s) n d))); [done..|].
    apply run_heap_ok. apply (heap_ok_same d); [|done|done].
    intros o. by apply held_by_alter.
Qed.

Lemma deliver_during_stats_ok h n reaction d :
  stats_ok d → stats_ok (deliver_during read h n reaction d).
Proof.
  intros Hstats. unfold deliver_during.
  destruct (heap_ d !! h) as [s|]; [|done].
  destruct (closed s); [done|].
  destruct (paused_ d); apply stats_ok_broadcast_.
Qed.

(** Without a reaction, [deliver_during] is [deliver]. *)
Lemma deliver_during_quiet h n d : deliver_during read h n [] d = deliver h n d.
Proof.
  unfold deliver_during, deliver.
  destruct (heap_ d !! h) as [s|]; [|done].
  destruct (closed s); [done|].
  destruct (paused_ d) eqn:Hp; [done|].
  unfold on_next. by rewrite Hp.
Qed.

(** Between two calls, the last record published describes the deck, and
    the subscriptions the states hold are the subscribed stages. *)
Lemma reachable_ok d : reachable read d → stats_ok d ∧ heap_ok d.
Proof.
  induction 1 as [match'|c d _ [IHs IHh]|order reactions d _ [IHs IHh]
                 |order reactions d _ [IHs IHh]|h n reaction d _ [IHs IHh]];
    [| |
     |
     |split; [by apply deliver_during_stats_ok
             | by apply deliver_during_heap_ok]].
  - split; [by left|]. split.
    + intros o h. unfold held_by. simpl. by rewrite lookup_empty.
    + intros h s. simpl. by rewrite lookup_nil.
  - split; [by apply perform_stats_ok | by apply perform_heap_ok].
  - split; [apply stats_ok_broadcast_ | by apply resume_during_heap_ok].
  - split; [apply stats_ok_broadcast_ | by apply step_during_heap_ok].
Qed.

Lemma run_snoc calls c d :
  run read (calls ++ [c]) d = perform read c (run read calls d).
Proof. unfold run. by rewrite foldl_app. Qed.

Lemma run_reachable calls d : reachable read d → reachable read (run read calls d).
Proof.
  induction calls as [|c calls IH] using rev_ind; intros Hd; [done|].
  rewrite run_snoc. constructor. by apply IH.
Qed.

Lemma perform_keeps_paused c d :
  is_Resume c = false → paused_ d = true → paused_ (perform read c d) = true.
Proof.
  destruct c as [predicate|o| | | | | |h n]; simpl; try done.
  - intros _ Hp. unfold getOperator.
    destruct (states_ d !! o) as [state|]; [|done].
    by destruct (subscription_ state).
  - intros _ Hp. unfold deliver. destruct (heap_ d !! h) as [s|]; [|done].
    by destruct (closed s).
Qed.

Lemma run_keeps_paused calls d :
  forallb (λ c, negb (is_Resume c)) calls = true →
  paused_ d = true → paused_ (run read calls d) = true.
Proof.
  induction calls as [|c calls IH] using rev_ind; intros Hcalls Hp; [done|].
  rewrite forallb_app in Hcalls. simpl in Hcalls.
  apply andb_true_iff in Hcalls as [Hcalls Hc].
  rewrite run_snoc. apply perform_keeps_paused; [|by apply IH].
  rewrite andb_true_r in Hc. by apply negb_true_iff.
Qed.

(** A delivery on a subscribed stage runs its callback. *)
Lemma deliver_subscribed h o n d :
  heap_ d !! h = Some {| captured := o; closed := false |} →
  deliver h n d = on_next o n d.
Proof. intros Hobj. unfold deliver. by rewrite Hobj. Qed.

Lemma on_next_tracked o o' n d :
  is_Some (states_ (on_next o n d) !! o') ↔ is_Some (states_ d !! o').
Proof.
  unfold on_next. simpl. rewrite lookup_alter.
  case_decide; [subst o'|done]. by rewrite fmap_is_Some.
Qed.

(** With the heap invariant, a stream has at most one subscribed stage: the
    one its state holds. *)
Lemma singleton_of_NoDup {A : Type} (l : list A) (a : A) :
  NoDup l → (∀ x, x ∈ l ↔ x = a) → l = [a].
Proof.
  intros Hnodup Hall. destruct l as [|x [|y l]].
  - exfalso. eapply not_elem_of_nil. by apply (Hall a).
  - f_equal. apply Hall. by left.
  - assert (x = a) as -> by (apply Hall; by left).
    assert (y = a) as -> by (apply Hall; right; by left).
    apply NoDup_cons in Hnodup as [Hnotin _]. exfalso. apply Hnotin. by left.
Qed.

Lemma elem_of_live_stages h o d :
  h ∈ live_stages o d
  ↔ heap_ d !! h = Some {| captured := o; closed := false |}.
Proof.
  unfold live_stages. rewrite list_elem_of_filter, elem_of_seq.
  split; [by intros [? _]|]. intros Hobj. split; [done|].
  apply lookup_lt_Some in Hobj. lia.
Qed.

Lemma live_stages_held o d :
  heap_ok d →
  live_stages o d = option_list (held_by o d).
Proof.
  intros [Hlive Hback].
  assert (∀ h, h ∈ live_stages o d ↔ held_by o d = Some h) as Hiff.
  { intros h. rewrite elem_of_live_stages. split; [|apply Hlive].
    intros Hobj. by apply (Hback h _ Hobj). }
  destruct (held_by o d) as [h0|] eqn:Hheld; simpl.
  - apply singleton_of_NoDup.
    + apply NoDup_filter, NoDup_seq.
    + intros h. rewrite Hiff. split; congruence.
  - destruct (live_stages o d) as [|h l]; [done|].
    assert (None = Some h) by (apply Hiff; by left). done.
Qed.

(** *** The claims about the deck *)

(** C1, as the code has it.  After [unsubscribe()] on a reachable deck,
    every subscription a state held has been unsubscribed, no state holds a
    subscription and no stage is subscribed any more; the buffers, what was
    forwarded and the paused flag are as before, so the buffers are not
    cleared; and [getOperator] for a stream the deck does not track yet
    returns and installs a subscribed stage. *)
Theorem Deck_unsubscribe_tears_down d :
  reachable read d →
  (∀ o h, held_by o d = Some h → torn_down h (unsubscribe d))
  ∧ (∀ o, held_by o (unsubscribe d) = None)
  ∧ (∀ h, ¬ still_subscribed h (unsubscribe d))
  ∧ (∀ o, buffer_of o (unsubscribe d) = buffer_of o d
          ∧ forwarded o (unsubscribe d) = forwarded o d)
  ∧ paused_ (unsubscribe d) = paused_ d
  ∧ (∀ o, states_ d !! o = None →
       ∃ d', getOperator read o (unsubscribe d) = Returned d'
             ∧ held_by o d' = Some (length (heap_ d))
             ∧ still_subscribed (length (heap_ d)) d').
Proof.
  intros Hreach.
  pose proof (reachable_ok d Hreach) as (_ & Hheap).
  pose proof Hheap as (Hlive & Hback).
  pose proof (unsubscribe_heap_ok d Hheap) as (_ & Hback').
  repeat split.
  - intros o h Hheld. unfold torn_down, unsubscribe. simpl.
    rewrite lookup_unsubscribe_all, (Hlive o h Hheld). simpl.
    rewrite bool_decide_true; [done|].
    unfold held_by in Hheld.
    destruct (states_ d !! o) as [state|] eqn:Hstate; [|done].
    apply elem_of_held. eauto.
  - apply held_by_unsubscribe.
  - intros h Hsub. unfold still_subscribed in Hsub.
    destruct (heap_ (unsubscribe d) !! h) as [s|] eqn:Hobj; [|done].
    simpl in Hsub. injection Hsub as Hopen.
    specialize (Hback' h s Hobj Hopen).
    by rewrite held_by_unsubscribe in Hback'.
  - apply buffer_of_unsubscribe.
  - apply forwarded_unsubscribe.
  - intros o Hfresh. unfold getOperator, unsubscribe at 1. simpl.
    rewrite lookup_fmap, Hfresh. simpl. eexists. split; [done|].
    unfold held_by, still_subscribed, subscribe_stage, unsubscribe. simpl.
    rewrite lookup_alter_eq, lookup_insert_eq. simpl.
    assert (length (foldr Subscription_unsubscribe (heap_ d) (held (states_ d)))
            = length (heap_ d)) as Hlen.
    { induction (held (states_ d)) as [|h hs IH]; simpl; [done|].
      unfold Subscription_unsubscribe at 1. by rewrite length_alter. }
    rewrite Hlen. split; [done|].
    rewrite lookup_app_r by lia. by rewrite Hlen, Nat.sub_diag.
Qed.

(** C2.  On a paused deck that tracks a stream with a subscribed stage, three
    notifications that arrive in the order n1, n2, n3 are appended to the
    buffer and not forwarded; [resume()] then forwards what was buffered
    before them followed by n1, n2, n3 in that order (exactly n1, n2, n3 when
    the buffer was empty), empties the buffer and leaves the deck resumed;
    and a notification that arrives afterwards is forwarded at once. *)
Theorem Deck_resume_fifo d o h n1 n2 n3 :
  paused_ d = true →
  is_Some (states_ d !! o) →
  heap_ d !! h = Some {| captured := o; closed := false |} →
  let d3 := deliver h n3 (deliver h n2 (deliver h n1 d)) in
  buffer_of o d3 = buffer_of o d ++ [n1; n2; n3]
  ∧ forwarded o d3 = forwarded o d
  ∧ forwarded o (resume d3) = forwarded o d ++ buffer_of o d ++ [n1; n2; n3]
  ∧ buffer_of o (resume d3) = []
  ∧ paused_ (resume d3) = false
  ∧ ∀ n, forwarded o (deliver h n (resume d3)) = forwarded o (resume d3) ++ [n]
         ∧ buffer_of o (deliver h n (resume d3)) = [].
Proof.
  intros Hp Htracked Hobj d3.
  assert (∀ n d', paused_ d' = true → is_Some (states_ d' !! o) →
            heap_ d' !! h = Some {| captured := o; closed := false |} →
            let d'' := deliver h n d' in
            paused_ d'' = true ∧ is_Some (states_ d'' !! o)
            ∧ heap_ d'' !! h = Some {| captured := o; closed := false |}
            ∧ buffer_of o d'' = buffer_of o d' ++ [n]
            ∧ forwarded o d'' = forwarded o d') as Hone.
  { intros n d' Hp' Htracked' Hobj' d''. subst d''.
    rewrite (deliver_subscribed h o n d' Hobj').
    rewrite on_next_tracked, buffer_of_on_next, forwarded_on_next.
    rewrite decide_True by done.
    rewrite decide_False by (intros (_ & ? & _); congruence).
    done. }
  destruct (Hone n1 d Hp Htracked Hobj) as (Hp1 & Ht1 & Ho1 & Hb1 & Hf1).
  destruct (Hone n2 _ Hp1 Ht1 Ho1) as (Hp2 & Ht2 & Ho2 & Hb2 & Hf2).
  destruct (Hone n3 _ Hp2 Ht2 Ho2) as (Hp3 & Ht3 & Ho3 & Hb3 & Hf3).
  fold d3 in Hp3, Ht3, Ho3, Hb3, Hf3.
  assert (buffer_of o d3 = buffer_of o d ++ [n1; n2; n3]) as Hb.
  { rewrite Hb3, Hb2, Hb1. by rewrite <- !app_assoc. }
  assert (forwarded o d3 = forwarded o d) as Hf by congruence.
  split; [done|]. split; [done|].
  split; [by rewrite forwarded_resume, Hf, Hb|].
  split; [apply buffer_of_resume|]. split; [done|].
  intros n.
  assert (heap_ (resume d3) !! h = Some {| captured := o; closed := false |})
    as Hobj' by done.
  assert (is_Some (states_ (resume d3) !! o)) as Htracked'.
  { unfold resume. simpl. by rewrite lookup_fmap, fmap_is_Some. }
  rewrite (deliver_subscribed h o n _ Hobj').
  rewrite forwarded_on_next, buffer_of_on_next.
  rewrite decide_True by done.
  rewrite decide_False by (intros (_ & ? & _); done).
  split; [done | apply buffer_of_resume].
Qed.

(** C3.  On a paused deck whose buffer for a stream is [n1; n2]: [step()]
    forwards exactly n1 on that stream, leaves [n2] buffered and the deck
    paused; [skip()] leaves [n2] buffered and the deck paused and forwards
    nothing on any stream. *)
Theorem Deck_step_skip d o n1 n2 :
  paused_ d = true →
  buffer_of o d = [n1; n2] →
  (forwarded o (step d) = forwarded o d ++ [n1]
   ∧ buffer_of o (step d) = [n2]
   ∧ paused_ (step d) = true)
  ∧ (buffer_of o (skip d) = [n2]
     ∧ (∀ o', forwarded o' (skip d) = forwarded o' d)
     ∧ paused_ (skip d) = true).
Proof.
  intros Hp Hbuffer. repeat split; try done.
  - by rewrite forwarded_step, Hbuffer.
  - by rewrite buffer_of_step, Hbuffer.
  - by rewrite buffer_of_skip, Hbuffer.
  - intros o'. apply forwarded_skip.
Qed.

(** C4.  [clear()] without a predicate empties the buffer of every stream
    and forwards nothing, so that a [resume()] after it forwards nothing
    either; [clear(predicate)] keeps, in their order, exactly the buffered
    notifications that do not match, and forwards nothing. *)
Theorem Deck_clear d o :
  (buffer_of o (clear None d) = []
   ∧ forwarded o (clear None d) = forwarded o d
   ∧ forwarded o (resume (clear None d)) = forwarded o d)
  ∧ ∀ predicate,
      buffer_of o (clear (Some predicate) d)
      = List.filter (λ n, negb (predicate n)) (buffer_of o d)
      ∧ forwarded o (clear (Some predicate) d) = forwarded o d.
Proof.
  assert (buffer_of o (clear None d) = []) as Hempty.
  { rewrite buffer_of_clear. simpl.
    induction (buffer_of o d) as [|n l IH]; [done | exact IH]. }
  repeat split.
  - exact Hempty.
  - apply forwarded_clear.
  - by rewrite forwarded_resume, Hempty, app_nil_r, forwarded_clear.
  - apply buffer_of_clear.
  - apply forwarded_clear.
Qed.

(** Repeating a control: [pause()] on a paused deck, and [resume()] on a
    resumed deck that has nothing buffered, leave the paused flag, every
    state and the subscriptions as they are, and publish the statistics of
    the deck, which are the ones published last if any were. *)
Lemma pause_resume_settled d :
  reachable read d →
  (paused_ d = true →
     paused_ (pause d) = paused_ d ∧ states_ (pause d) = states_ d
     ∧ heap_ (pause d) = heap_ d
     ∧ stats_ (pause d) = stats_ d ++ [current_stats d]
     ∧ (stats_ d ≠ [] → last (stats_ d) = Some (current_stats d)))
  ∧ (paused_ d = false → (∀ o, buffer_of o d = []) →
       paused_ (resume d) = paused_ d ∧ states_ (resume d) = states_ d
       ∧ heap_ (resume d) = heap_ d
       ∧ stats_ (resume d) = stats_ d ++ [current_stats d]
       ∧ (stats_ d ≠ [] → last (stats_ d) = Some (current_stats d))).
Proof.
  intros Hreach.
  pose proof (reachable_ok d Hreach) as (Hstats & _).
  assert (stats_ d ≠ [] → last (stats_ d) = Some (current_stats d)) as Hlast
    by (by destruct Hstats).
  split.
  - intros Hp. split; [simpl; by rewrite Hp|]. split; [done|].
    split; [done|]. split; [|done].
    unfold pause, broadcast_, current_stats, Subject_next. simpl.
    by rewrite Hp.
  - intros Hp Hempty.
    assert (states_ (resume d) = states_ d) as Hsame.
    { unfold resume. simpl. apply map_eq. intros o.
      rewrite lookup_fmap. specialize (Hempty o). unfold buffer_of in Hempty.
      destruct (states_ d !! o) as [[ns subj sub tag]|]; simpl in *; [|done].
      by subst ns. }
    split; [by rewrite Hp|]. split; [done|]. split; [done|].
    split; [|done].
    assert (stats_ (resume d) = stats_ d ++ [current_stats (resume d)])
      as -> by done.
    do 2 f_equal. unfold current_stats. rewrite Hsame. simpl. by rewrite Hp.
Qed.

(** *** The statistics feed *)

(** The count that [broadcast_] publishes is the sum of the lengths of the
    buffers of the tracked streams. *)
Lemma buffered_buffer_lengths (m : gmap Observable State) :
  buffered m
  = Z.of_nat (sum_list_with
      (λ o, length (from_option notifications_ [] (m !! o))) (elements (dom m))).
Proof.
  induction m as [|o state m Hfresh IH] using map_ind.
  - by rewrite buffered_empty, dom_empty_L, elements_empty.
  - rewrite (buffered_insert m o state Hfresh), IH, dom_insert_L.
    rewrite elements_union_singleton by (by apply not_elem_of_dom).
    simpl. rewrite lookup_insert_eq. simpl.
    assert (sum_list_with
              (λ o', length (from_option notifications_ [] (<[o:=state]> m !! o')))
              (elements (dom m))
            = sum_list_with
                (λ o', length (from_option notifications_ [] (m !! o')))
                (elements (dom m))) as ->; [|lia].
    assert (∀ l : list Observable, o ∉ l →
              sum_list_with
                (λ o', length (from_option notifications_ [] (<[o:=state]> m !! o'))) l
              = sum_list_with
                  (λ o', length (from_option notifications_ [] (m !! o'))) l)
      as Hsame.
    { induction l as [|o' l IHl]; intros Hnotin; [done|]. simpl.
      apply not_elem_of_cons in Hnotin as [Hne Hnotin].
      rewrite lookup_insert_ne by done. by rewrite IHl. }
    apply Hsame. rewrite elem_of_elements. by apply not_elem_of_dom.
Qed.

Lemma current_stats_buffer_lengths d :
  current_stats d
  = {| notifications :=
         Z.of_nat (sum_list_with (λ o, length (buffer_of o d))
                     (elements (dom (states_ d))));
       paused := paused_ d |}.
Proof.
  unfold current_stats. f_equal. apply buffered_buffer_lengths.
Qed.

Lemma run_underway calls d : underway read d → underway read (run read calls d).
Proof.
  revert d. induction calls as [|c calls IH]; intros d Hd; [done|].
  rewrite run_cons. by apply IH, underway_perform.
Qed.

Lemma drain_during_underway reactions order d :
  underway read d → underway read (drain_during read reactions order d).
Proof.
  revert order d.
  induction reactions as [|reaction reactions IH]; intros order d Hd; simpl.
  - revert d Hd. induction order as [|o order IH]; intros d Hd; [done|].
    simpl. by apply IH, underway_drain.
  - destruct (next_waiting order d) as [[o order']|]; [|done].
    by apply IH, run_underway, underway_forward.
Qed.

Lemma step_through_underway order reactions d :
  underway read d → underway read (step_through read order reactions d).
Proof.
  revert reactions d.
  induction order as [|o order IH]; intros reactions d Hd; simpl; [done|].
  destruct (from_option notifications_ [] (states_ d !! o)); [by apply IH|].
  by apply IH, run_underway, underway_forward.
Qed.

Lemma reachable_underway d : reachable read d → underway read d.
Proof.
  induction 1 as [match'|c d _ IH|order reactions d _ IH|order reactions d _ IH
                 |h n reaction d _ IH].
  - constructor.
  - by constructor.
  - by apply underway_resumed, drain_during_underway.
  - by apply underway_broadcast, step_through_underway.
  - unfold deliver_during. destruct (heap_ d !! h) as [s|] eqn:Hobj; [|done].
    destruct (closed s) eqn:Hopen; [done|].
    destruct (paused_ d) eqn:Hp.
    + pose proof (underway_perform read (Deliver h n) d IH) as Hnext.
      simpl in Hnext. unfold deliver in Hnext.
      by rewrite Hobj, Hopen in Hnext.
    + by apply underway_broadcast, run_underway, underway_forward_live.
Qed.

(** A record of the feed was published by a deck the program passed
    through, whose feed ended with that record then. *)
Lemma published_were_current d :
  underway read d →
  ∀ i r, stats_ d !! i = Some r →
    ∃ d', underway read d' ∧ stats_ d' = take (S i) (stats_ d)
          ∧ r = current_stats d'.
Proof.
  assert (∀ d0 d1, underway read d1 →
            stats_ d1 = stats_ d0 ++ [current_stats d1] →
            (∀ i r, stats_ d0 !! i = Some r →
               ∃ d', underway read d' ∧ stats_ d' = take (S i) (stats_ d0)
                     ∧ r = current_stats d') →
            ∀ i r, stats_ d1 !! i = Some r →
              ∃ d', underway read d' ∧ stats_ d' = take (S i) (stats_ d1)
                    ∧ r = current_stats d') as Hgrow.
  { intros d0 d1 Hd1 Hstats IH i r Hr. rewrite Hstats in Hr |- *.
    apply lookup_app_Some in Hr as [Hold|[Hlen Hnew]].
    - destruct (IH i r Hold) as (d' & Hd' & Hfeed & ->).
      exists d'. split; [done|]. split; [|done].
      apply lookup_lt_Some in Hold.
      rewrite take_app_le by lia. done.
    - apply list_lookup_singleton_Some in Hnew as [Hi <-].
      exists d1. split; [done|]. split; [|done].
      rewrite take_ge; [done|]. rewrite length_app. simpl. lia. }
  induction 1 as [match'|c d Hd IH|o d Hd IH|o n d Hd IH|o d Hd IH|d Hd IH
                 |d Hd IH].
  - intros i r Hr. simpl in Hr. by rewrite lookup_nil in Hr.
  - destruct (completes read c d) eqn:Hruns.
    + apply (Hgrow d); [by constructor | by apply perform_publishes | done].
    + by rewrite (perform_incomplete c d Hruns).
  - exact IH.
  - exact IH.
  - exact IH.
  - apply (Hgrow d); [by constructor | done | done].
  - apply (Hgrow d); [by constructor | done | done].
Qed.

Lemma run_publishes calls d :
  stats_ (run read calls d)
  = stats_ d ++ (current_stats <$> snapshots read calls d).
Proof.
  revert d. induction calls as [|c calls IH]; intros d.
  - simpl. by rewrite app_nil_r.
  - rewrite run_cons, IH. simpl. destruct (completes read c d) eqn:Hruns.
    + rewrite (perform_publishes c d Hruns). by rewrite <- app_assoc.
    + by rewrite (perform_incomplete c d Hruns).
Qed.

Lemma drain_during_publishes reactions order d :
  ∃ during, stats_ (drain_during read reactions order d) = stats_ d ++ during.
Proof.
  revert order d.
  induction reactions as [|reaction reactions IH]; intros order d; simpl.
  - exists []. rewrite app_nil_r. revert d.
    induction order as [|o order IH]; intros d; [done|]. simpl. by rewrite IH.
  - destruct (next_waiting order d) as [[o order']|];
      [|exists []; by rewrite app_nil_r].
    destruct (IH order' (run read reaction (forward_head o d))) as [during ->].
    rewrite run_publishes. simpl. rewrite <- app_assoc. eauto.
Qed.

Lemma step_through_publishes order reactions d :
  ∃ during, stats_ (step_through read order reactions d) = stats_ d ++ during.
Proof.
  revert reactions d.
  induction order as [|o order IH]; intros reactions d; simpl.
  - exists []. by rewrite app_nil_r.
  - destruct (from_option notifications_ [] (states_ d !! o)); [apply IH|].
    destruct (IH (tail reactions)
                (run read (default [] (head reactions)) (forward_head o d)))
      as [during ->].
    rewrite run_publishes. simpl. rewrite <- app_assoc. eauto.
Qed.

Lemma deliver_during_publishes h n reaction d :
  closed <$> heap_ d !! h = Some false →
  ∃ during,
    stats_ (deliver_during read h n reaction d)
    = stats_ d ++ during ++ [current_stats (deliver_during read h n reaction d)].
Proof.
  intros Hopen. unfold deliver_during.
  destruct (heap_ d !! h) as [s|]; [|done]. simpl in Hopen.
  injection Hopen as ->.
  destruct (paused_ d).
  - by exists [].
  - exists (current_stats
              <$> snapshots read reaction (forward_live (captured s) n d)).
    unfold broadcast_ at 1, Subject_next. simpl.
    by rewrite run_publishes, <- app_assoc.
Qed.

(** C6.  A record describes a deck when its count is the sum, over the
    streams the deck tracks, of the length of the stream's buffer, and its
    flag is the paused flag of the deck.  Every record on the statistics
    feed of a reachable deck has a count that is not negative and described
    the deck at the moment it was published: the deck the program had when
    the feed ended with that record.  A call that runs to its end (a
    control operation, [getOperator], a delivery to a subscribed stage)
    publishes exactly one record, which describes the deck as the call leaves
    it, however many notifications the call has taken out of the buffers; a
    call that does not run to its end leaves the deck, and the feed, as they
    were; so a run of calls publishes the records of the decks its calls
    leave, in order.  [resume()], [step()] and the callback of a subscribed
    stage during which the pipeline calls the deck keep what was published,
    add what those calls publish, and end with the record of the deck they
    leave. *)
Theorem Deck_stats_invariant d :
  reachable read d →
  let record := λ d' : Deck Match,
    {| notifications :=
         Z.of_nat (sum_list_with (λ o, length (buffer_of o d'))
                     (elements (dom (states_ d'))));
       paused := paused_ d' |} in
  (∀ i r, stats_ d !! i = Some r →
     (0 ≤ notifications r)%Z
     ∧ ∃ d', underway read d' ∧ stats_ d' = take (S i) (stats_ d)
             ∧ r = record d')
  ∧ (∀ c, completes read c d = true →
       stats_ (perform read c d) = stats_ d ++ [record (perform read c d)])
  ∧ (∀ c, completes read c d = false → perform read c d = d)
  ∧ (∀ calls,
       stats_ (run read calls d)
       = stats_ d ++ (record <$> snapshots read calls d))
  ∧ (∀ order reactions, ∃ during,
       stats_ (resume_during read order reactions d)
       = stats_ d ++ during ++ [record (resume_during read order reactions d)])
  ∧ (∀ order reactions, ∃ during,
       stats_ (step_during read order reactions d)
       = stats_ d ++ during ++ [record (step_during read order reactions d)])
  ∧ (∀ h n reaction, still_subscribed h d → ∃ during,
       stats_ (deliver_during read h n reaction d)
       = stats_ d ++ during ++ [record (deliver_during read h n reaction d)]).
Proof.
  intros Hreach record.
  assert (∀ d', current_stats d' = record d') as Hrecord
    by (intros d'; apply current_stats_buffer_lengths).
  split; [|split; [|split; [|split; [|split; [|split]]]]];
    [| | | | |
     |intros h n reaction Hopen; rewrite <- Hrecord;
      by apply deliver_during_publishes].
  - intros i r Hr.
    destruct (published_were_current d (reachable_underway d Hreach) i r Hr)
      as (d' & Hd' & Hfeed & ->).
    rewrite Hrecord. split; [simpl; lia | eauto].
  - intros c Hruns. rewrite <- Hrecord. by apply perform_publishes.
  - intros c. apply perform_incomplete.
  - intros calls. rewrite run_publishes. f_equal.
    apply list_fmap_ext. intros _ d' _. apply Hrecord.
  - intros order reactions.
    destruct (drain_during_publishes reactions order d) as [during Hduring].
    exists during. rewrite <- Hrecord. unfold resume_during at 1.
    unfold broadcast_ at 1, Subject_next. simpl.
    by rewrite Hduring, <- app_assoc.
  - intros order reactions.
    destruct (step_through_publishes order reactions d) as [during Hduring].
    exists during. rewrite <- Hrecord. unfold step_during at 1.
    unfold broadcast_ at 1, Subject_next. simpl.
    by rewrite Hduring, <- app_assoc.
Qed.

(** C7.  The states of a deck are keyed by stream, and on a reachable deck
    the subscribed stages of a stream are at most the one its state holds.
    When [getOperator] is applied for a stream whose state holds a
    subscription, that subscription is unsubscribed, the same state (no new
    one) holds the new subscription, which is the only subscribed stage of
    the stream, the buffer is kept, and a notification the stream emits while
    the deck is paused is buffered once. *)
Theorem Deck_getOperator_replaces_stage d o h :
  reachable read d →
  held_by o d = Some h →
  (∀ o', live_stages o' d = option_list (held_by o' d))
  ∧ ∃ d', getOperator read o d = Returned d'
      ∧ torn_down h d'
      ∧ held_by o d' = Some (length (heap_ d))
      ∧ live_stages o d' = [length (heap_ d)]
      ∧ dom (states_ d') = dom (states_ d)
      ∧ buffer_of o d' = buffer_of o d
      ∧ forwarded o d' = forwarded o d
      ∧ ∀ n, paused_ d' = true →
             buffer_of o (emit o n d') = buffer_of o d' ++ [n].
Proof.
  intros Hreach Hheld.
  pose proof (reachable_ok d Hreach) as (_ & Hheap).
  pose proof Hheap as [Hlive _].
  split; [intros o'; by apply live_stages_held|].
  pose proof (Hlive o h Hheld) as Hobj.
  destruct (getOperator read o d) as [d'|] eqn:Hget; cycle 1.
  { unfold getOperator, held_by in *.
    destruct (states_ d !! o) as [state|]; [|done]. simpl in Hheld.
    by rewrite Hheld in Hget. }
  pose proof (getOperator_heap_ok o d d' Hheap Hget) as Hheap'.
  exists d'. split; [done|].
  unfold getOperator in Hget. unfold held_by in Hheld.
  destruct (states_ d !! o) as [state|] eqn:Hstate; [|done].
  simpl in Hheld. rewrite Hheld in Hget. injection Hget as <-.
  set (d' := subscribe_stage o _) in *.
  assert (held_by o d' = Some (length (heap_ d))) as Hheld'.
  { unfold held_by, d', subscribe_stage, Subscription_unsubscribe. simpl.
    by rewrite lookup_alter_eq, Hstate, length_alter. }
  assert (live_stages o d' = [length (heap_ d)]) as Hstages
    by (by rewrite live_stages_held, Hheld').
  split; [|split; [done|split; [done|split; [|split; [|split]]]]].
  - unfold torn_down, d', subscribe_stage, Subscription_unsubscribe. simpl.
    rewrite lookup_app_l
      by (rewrite length_alter; by apply lookup_lt_Some in Hobj).
    by rewrite list_lookup_alter_eq, Hobj.
  - unfold d', subscribe_stage. simpl.
    apply set_eq. intros o'. rewrite !elem_of_dom, lookup_alter.
    case_decide; [subst o'|done]. by rewrite fmap_is_Some.
  - unfold d'. by rewrite buffer_of_subscribe_stage.
  - unfold d'. by rewrite forwarded_subscribe_stage.
  - intros n Hp. unfold emit. rewrite Hstages. simpl.
    destruct Hheap' as [Hlive' _].
    rewrite (deliver_subscribed _ o n d' (Hlive' o _ Hheld')).
    rewrite buffer_of_on_next, decide_True; [done|].
    split; [done|]. split; [done|].
    unfold held_by in Hheld'. by destruct (states_ d' !! o).
Qed.

(** C10.  A new deck is paused, and stays paused as long as [resume()] is
    not called; until then a notification delivered to a subscribed stage is
    appended to the buffer of its stream and nothing is forwarded on any
    stream. *)
Theorem Deck_starts_paused (match' : Match) (calls : list Call) :
  forallb (λ c, negb (is_Resume c)) calls = true →
  let d := run read calls (new_Deck match') in
  Deck_paused (new_Deck match') = true
  ∧ Deck_paused d = true
  ∧ ∀ h o n,
      heap_ d !! h = Some {| captured := o; closed := false |} →
      buffer_of o (deliver h n d) = buffer_of o d ++ [n]
      ∧ ∀ o', forwarded o' (deliver h n d) = forwarded o' d.
Proof.
  intros Hcalls d.
  assert (paused_ d = true) as Hp by (by apply run_keeps_paused).
  split; [done|]. split; [done|].
  intros h o n Hobj.
  assert (reachable read d) as Hreach by (apply run_reachable; constructor).
  pose proof (reachable_ok d Hreach) as (_ & _ & Hback).
  specialize (Hback h _ Hobj eq_refl). simpl in Hback.
  rewrite (deliver_subscribed h o n d Hobj). split.
  - rewrite buffer_of_on_next, decide_True; [done|].
    split; [done|]. split; [done|].
    unfold held_by in Hback. by destruct (states_ d !! o).
  - intros o'. rewrite forwarded_on_next, decide_False; [done|].
    intros (_ & ? & _). congruence.
Qed.

End deck_facts.

(** *** The claims on the decks above *)

(** C1 as stated fails: [unsubscribe()] on a deck that has buffered two
    notifications leaves both in the buffer. *)
Lemma Deck_unsubscribe_keeps_buffers :
  reachable untagged buffering
  ∧ buffer_of 7 (unsubscribe buffering)
    = [NextNotification 1; NextNotification 2]
  ∧ ¬ (∀ o, buffer_of o (unsubscribe buffering) = []).
Proof.
  split; [apply run_reachable; constructor|].
  split; [reflexivity|].
  intros Hall. specialize (Hall 7). discriminate Hall.
Qed.

(** After [unsubscribe()], [getOperator] for a stream the deck already
    tracks throws, since the state no longer holds a subscription. *)
Example Deck_getOperator_after_unsubscribe :
  getOperator untagged 7 (unsubscribe buffering) = TypeError.
Proof. reflexivity. Qed.

Lemma Deck_unsubscribe_tears_down_witness :
  reachable untagged buffering
  ∧ torn_down 0 (unsubscribe buffering)
  ∧ held_by 7 (unsubscribe buffering) = None
  ∧ buffer_of 7 (unsubscribe buffering) = buffer_of 7 buffering.
Proof.
  assert (reachable untagged buffering) as Hreach
    by (apply run_reachable; constructor).
  destruct (Deck_unsubscribe_tears_down untagged buffering Hreach)
    as (Htorn & Hheld & _ & Hkept & _).
  split; [exact Hreach|].
  split; [exact (Htorn 7 0 eq_refl)|].
  split; [exact (Hheld 7) | exact (proj1 (Hkept 7))].
Defined.

Lemma Deck_resume_fifo_witness :
  paused_ intercepting = true
  ∧ forwarded 7
      (resume
         (deliver 0 CompleteNotification
            (deliver 0 (NextNotification 2)
               (deliver 0 (NextNotification 1) intercepting))))
    = [NextNotification 1; NextNotification 2; CompleteNotification].
Proof.
  split; [reflexivity|].
  exact (proj1 (proj2 (proj2
    (Deck_resume_fifo intercepting 7 0
       (NextNotification 1) (NextNotification 2) CompleteNotification
       eq_refl (ex_intro _ _ eq_refl) eq_refl)))).
Defined.

Lemma Deck_step_skip_witness :
  paused_ buffering = true
  ∧ buffer_of 7 buffering = [NextNotification 1; NextNotification 2]
  ∧ forwarded 7 (step buffering) = forwarded 7 buffering ++ [NextNotification 1]
  ∧ buffer_of 7 (skip buffering) = [NextNotification 2].
Proof.
  destruct (Deck_step_skip buffering 7 (NextNotification 1) (NextNotification 2)
              eq_refl eq_refl) as ((Hstep & _) & (Hskip & _)).
  split; [reflexivity|]. split; [reflexivity|].
  split; [exact Hstep | exact Hskip].
Defined.

(** C5 on the code: the claim holds of [pause()], but not of [resume()].
    [forEach] has left the stream 8 behind when the consumer of 7 makes it
    emit, and [paused_] is still [true] then, so the value 2 is buffered and
    stays buffered in a deck that is resumed, with the record
    [{ notifications: 1, paused: false }] published last.  [resume()] on
    that resumed deck forwards the value 2, empties the buffer of 8 and
    publishes another record, [{ notifications: 0, paused: false }]. *)
Theorem Deck_resume_not_idempotent :
  reachable untagged relayed
  ∧ paused_ relayed = false
  ∧ buffer_of 8 relayed = [NextNotification 2]
  ∧ forwarded 8 relayed = []
  ∧ forwarded 7 relayed = [NextNotification 1]
  ∧ last (stats_ relayed) = Some {| notifications := 1; paused := false |}
  ∧ buffer_of 8 (resume relayed) = []
  ∧ forwarded 8 (resume relayed) = [NextNotification 2]
  ∧ last (stats_ (resume relayed))
    = Some {| notifications := 0; paused := false |}
  ∧ resume_during untagged [8; 7] [] relayed = resume relayed
  ∧ states_ (resume relayed) ≠ states_ relayed.
Proof.
  split; [apply reachable_resume_during, run_reachable; constructor|].
  do 9 (split; [vm_compute; reflexivity|]).
  intros Hsame.
  assert (buffer_of 8 (resume relayed) = buffer_of 8 relayed) as Hbuffer
    by (unfold buffer_of; by rewrite Hsame).
  vm_compute in Hbuffer. discriminate Hbuffer.
Qed.

Lemma Deck_stats_invariant_witness :
  reachable untagged buffering
  ∧ completes untagged Step buffering = true
  ∧ stats_ (step buffering)
    = stats_ buffering ++ [{| notifications := 1; paused := true |}]
  ∧ stats_ relayed
    = stats_ relaying
      ++ [{| notifications := 1; paused := true |};
          {| notifications := 1; paused := false |}].
Proof.
  assert (reachable untagged buffering) as Hreach
    by (apply run_reachable; constructor).
  split; [exact Hreach|]. split; [reflexivity|]. split.
  - exact (proj1 (proj2 (Deck_stats_invariant untagged buffering Hreach))
             Step eq_refl).
  - vm_compute. reflexivity.
Defined.

Lemma Deck_getOperator_replaces_stage_witness :
  reachable untagged buffering
  ∧ held_by 7 buffering = Some 0
  ∧ ∃ d', getOperator untagged 7 buffering = Returned d'
      ∧ torn_down 0 d'
      ∧ held_by 7 d' = Some 1
      ∧ live_stages 7 d' = [1].
Proof.
  assert (reachable untagged buffering) as Hreach
    by (apply run_reachable; constructor).
  split; [exact Hreach|]. split; [reflexivity|].
  destruct (Deck_getOperator_replaces_stage untagged buffering 7 0 Hreach eq_refl)
    as (_ & d' & Hget & Htorn & Hheld & Hlive & _).
  exists d'. split; [exact Hget|]. split; [exact Htorn|].
  split; [exact Hheld | exact Hlive].
Defined.

Lemma Deck_starts_paused_witness :
  Deck_paused buffering = true
  ∧ buffer_of 7 (deliver 0 CompleteNotification buffering)
    = buffer_of 7 buffering ++ [CompleteNotification].
Proof.
  destruct (Deck_starts_paused untagged ()
              [GetOperator 7; Deliver 0 (NextNotification 1);
               Deliver 0 (NextNotification 2)] eq_refl)
    as (_ & Hpaused & Hbuffered).
  split; [exact Hpaused|].
  exact (proj1 (Hbuffered 0 7 CompleteNotification eq_refl)).
Defined.

(** ** The graph tracker: invariants *)

Section graph_facts.

Implicit Types (t : Tracker) (s r : Subscription) (node : GraphNode)
  (m : gmap Subscription GraphNode) (ss : list (list Subscription)).

Lemma get_Some s t node :
  get s t = Some node ↔ nodes t !! s = Some node ∧ flushed node = false.
Proof.
  unfold get. destruct (nodes t !! s) as [node'|].
  - destruct (flushed node') eqn:Hflushed.
    + split; [done|]. intros [[= ->] ?]. congruence.
    + split; [intros [= ->]; done | by intros [? _]].
  - split; [done | by intros [? _]].
Qed.

Lemma elem_of_unlink y x (l : list Subscription) :
  x ∈ List.filter (λ s, negb (Nat.eqb s y)) l ↔ x ≠ y ∧ x ∈ l.
Proof.
  rewrite !list_elem_of_In, filter_In, negb_true_iff, Nat.eqb_neq. tauto.
Qed.

Lemma unlink_sublist y (l : list Subscription) :
  List.filter (λ s, negb (Nat.eqb s y)) l `sublist_of` l.
Proof.
  induction l as [|x l IH]; simpl; [constructor|].
  destruct (negb (x =? y)); by constructor.
Qed.

(** A list that has lost an element without gaining one is shorter. *)
Lemma sublist_shorter (l' l : list Subscription) x :
  l' `sublist_of` l → x ∈ l → x ∉ l' → length l' < length l.
Proof.
  induction 1 as [|y l' l Hsub IH|y l' l Hsub IH]; intros Hin Hout.
  - by apply elem_of_nil in Hin.
  - apply not_elem_of_cons in Hout as [Hne Hout].
    apply elem_of_cons in Hin as [?|Hin]; [done|].
    simpl. specialize (IH Hin Hout). lia.
  - simpl. apply sublist_length in Hsub. lia.
Qed.

(** *** Creation order *)

Lemma ranked_same_destinations m m' :
  (∀ s, destination <$> m' !! s = destination <$> m !! s) →
  ranked m → ranked m'.
Proof.
  intros Hsame (rank & Hbound & Hedge).
  assert (∀ s, is_Some (m' !! s) ↔ is_Some (m !! s)) as Hdom.
  { intros s. by rewrite <- (fmap_is_Some destination), Hsame, fmap_is_Some. }
  assert (size m' = size m) as Hsize.
  { rewrite <- !size_dom. f_equal. apply set_eq. intros s.
    by rewrite !elem_of_dom. }
  exists rank. split.
  - intros s Hs. rewrite Hsize. by apply Hbound, Hdom.
  - intros s node d Hnode Hdest.
    specialize (Hsame s). rewrite Hnode in Hsame. simpl in Hsame.
    destruct (m !! s) as [node0|] eqn:Hnode0; [|done].
    injection Hsame as Hsame. rewrite Hdest in Hsame.
    destruct (Hedge s node0 d Hnode0 (eq_sym Hsame)) as [Hd Hlt].
    split; [by apply Hdom | done].
Qed.

(** A subscription registered below a node of the table, or as a root, is
    the youngest. *)
Lemma ranked_insert m s child :
  m !! s = None →
  (∀ d, destination child = Some d → is_Some (m !! d)) →
  ranked m → ranked (<[s := child]> m).
Proof.
  intros Hfresh Hdest (rank & Hbound & Hedge).
  exists (λ x, if decide (x = s) then size m else rank x).
  rewrite map_size_insert_None by done. split.
  - intros x Hsome. case_decide; [lia|].
    rewrite lookup_insert_ne in Hsome by done.
    specialize (Hbound _ Hsome). lia.
  - intros x node dx Hnode Hdx.
    destruct (decide (x = s)) as [->|Hxs].
    + rewrite lookup_insert_eq in Hnode. injection Hnode as <-.
      destruct (Hdest dx Hdx) as [dnode Hdnode].
      assert (dx ≠ s) as Hne by congruence.
      rewrite lookup_insert_ne, decide_False by done.
      split; [by eexists|]. apply Hbound. by eexists.
    + rewrite lookup_insert_ne in Hnode by done.
      destruct (Hedge x node dx Hnode Hdx) as [[dnode Hdnode] Hlt].
      assert (dx ≠ s) as Hne by congruence.
      rewrite lookup_insert_ne, decide_False by done.
      split; [by eexists | done].
Qed.

Lemma ranked_below m s d parent (f : GraphNode → GraphNode) :
  m !! s = None → m !! d = Some parent →
  (∀ node, destination (f node) = destination node) →
  ranked m → ranked (<[s := node_below d parent]> (alter f d m)).
Proof.
  intros Hfresh Hd Hf Hranked.
  assert (s ≠ d) as Hne by congruence.
  apply ranked_insert.
  - by rewrite lookup_alter_ne.
  - intros d' [= <-]. rewrite lookup_alter_eq, Hd. by eexists.
  - apply (ranked_same_destinations m); [|done].
    intros x. rewrite lookup_alter. case_decide as Hdx; [subst x|done].
    rewrite Hd. simpl. by rewrite Hf.
Qed.

(** *** Roots and their sentinels *)

Lemma rooted_same_links m m' ss :
  (∀ s, (λ node, (destination node, sentinel node, flushed node)) <$> m' !! s
        = (λ node, (destination node, sentinel node, flushed node)) <$> m !! s) →
  rooted m ss → rooted m' ss.
Proof.
  intros Hsame (Hroot & Hknown & Honce). split; [|split; [|done]].
  - intros r node Hnode Hdest Hlive.
    specialize (Hsame r). rewrite Hnode in Hsame. simpl in Hsame.
    destruct (m !! r) as [node0|] eqn:Hnode0; [|done].
    injection Hsame as Hd Hk Hf. rewrite Hk.
    apply (Hroot r node0 Hnode0); congruence.
  - intros k y Hy. specialize (Hknown k y Hy). specialize (Hsame y).
    destruct Hknown as [node Hnode]. rewrite Hnode in Hsame.
    destruct (m' !! y); [by eexists | done].
Qed.

Lemma rooted_below m ss s d parent (f : GraphNode → GraphNode) :
  m !! s = None → m !! d = Some parent →
  (∀ node, destination (f node) = destination node
           ∧ sentinel (f node) = sentinel node
           ∧ flushed (f node) = flushed node) →
  rooted m ss → rooted (<[s := node_below d parent]> (alter f d m)) ss.
Proof.
  intros Hfresh Hd Hf (Hroot & Hknown & Honce).
  assert (s ≠ d) as Hne by congruence.
  split; [|split; [|done]].
  - intros r node Hnode Hdest Hlive.
    destruct (decide (r = s)) as [->|Hrs].
    { rewrite lookup_insert_eq in Hnode. by injection Hnode as <-. }
    rewrite lookup_insert_ne, lookup_alter in Hnode by done.
    case_decide as Hdr.
    + subst r. rewrite Hd in Hnode. injection Hnode as <-.
      destruct (Hf parent) as (Hfd & Hfk & Hff).
      rewrite Hfk. apply (Hroot d parent); congruence.
    + by apply (Hroot r node).
  - intros k y Hy. destruct (Hknown k y Hy) as [node Hnode].
    destruct (decide (y = s)) as [->|Hys]; [by rewrite lookup_insert_eq|].
    rewrite lookup_insert_ne, lookup_alter by done.
    case_decide; [subst y; rewrite Hd | rewrite Hnode]; by eexists.
Qed.

Lemma rooted_shared m ss s k roots :
  m !! s = None → ss !! k = Some roots →
  rooted m ss →
  rooted (<[s := root_under k]> m) (<[k := roots ++ [s]]> ss).
Proof.
  intros Hfresh Hk (Hroot & Hknown & Honce).
  assert (k < length ss) as Hlt by (by eapply lookup_lt_Some).
  assert (∀ k', default [] (<[k := roots ++ [s]]> ss !! k')
                = if decide (k = k') then roots ++ [s]
                  else default [] (ss !! k')) as Hlist.
  { intros k'. case_decide as Hkk.
    - subst k'. by rewrite list_lookup_insert_eq.
    - by rewrite list_lookup_insert_ne. }
  assert (s ∉ roots) as Hnew.
  { intros Hin. destruct (Hknown k s) as [node Hnode]; [by rewrite Hk|].
    congruence. }
  split; [|split].
  - intros r node Hnode Hdest Hlive. rewrite Hlist.
    destruct (decide (r = s)) as [->|Hrs].
    + rewrite lookup_insert_eq in Hnode. injection Hnode as <-. simpl.
      rewrite decide_True by done. apply elem_of_app. right. by left.
    + rewrite lookup_insert_ne in Hnode by done.
      pose proof (Hroot r node Hnode Hdest Hlive) as Hin.
      case_decide as Hkk; [|done].
      rewrite <- Hkk, Hk in Hin. apply elem_of_app. by left.
  - intros k' y. rewrite Hlist. intros Hy.
    destruct (decide (y = s)) as [->|Hys]; [by rewrite lookup_insert_eq|].
    rewrite lookup_insert_ne by done. case_decide as Hkk.
    + apply elem_of_app in Hy as [Hy|Hy].
      * apply (Hknown k). by rewrite Hk.
      * apply list_elem_of_singleton in Hy. congruence.
    + by apply (Hknown k').
  - intros k'. rewrite Hlist. case_decide as Hkk; [|apply Honce].
    apply NoDup_app. split; [|split].
    + specialize (Honce k). by rewrite Hk in Honce.
    + intros y Hy ->%list_elem_of_singleton. done.
    + apply NoDup_singleton.
Qed.

Lemma rooted_fresh m ss s :
  m !! s = None →
  rooted m ss →
  rooted (<[s := root_under (length ss)]> m) (ss ++ [[s]]).
Proof.
  intros Hfresh (Hroot & Hknown & Honce).
  assert (∀ k', default [] ((ss ++ [[s]]) !! k')
                = if decide (k' = length ss) then [s]
                  else default [] (ss !! k')) as Hlist.
  { intros k'. case_decide as Hkk.
    - subst k'. by rewrite lookup_app_r, Nat.sub_diag.
    - destruct (decide (k' < length ss)) as [Hlt|Hge].
      + by rewrite lookup_app_l.
      + rewrite !lookup_ge_None_2; [done | lia |].
        rewrite length_app. simpl. lia. }
  split; [|split].
  - intros r node Hnode Hdest Hlive. rewrite Hlist.
    destruct (decide (r = s)) as [->|Hrs].
    + rewrite lookup_insert_eq in Hnode. injection Hnode as <-. simpl.
      rewrite decide_True by done. by left.
    + rewrite lookup_insert_ne in Hnode by done.
      pose proof (Hroot r node Hnode Hdest Hlive) as Hin.
      case_decide as Hkk; [|done].
      rewrite Hkk, lookup_ge_None_2 in Hin by lia.
      by apply elem_of_nil in Hin.
  - intros k' y. rewrite Hlist. intros Hy.
    destruct (decide (y = s)) as [->|Hys]; [by rewrite lookup_insert_eq|].
    rewrite lookup_insert_ne by done. case_decide as Hkk.
    + apply list_elem_of_singleton in Hy. congruence.
    + by apply (Hknown k').
  - intros k'. rewrite Hlist. case_decide; [apply NoDup_singleton | apply Honce].
Qed.

Lemma flush_inv x t : tracker_inv t → tracker_inv (flush x t).
Proof.
  intros [Hranked (Hroot & Hknown & Honce)]. unfold flush.
  destruct (nodes t !! x) as [xnode|] eqn:Hx; [|done].
  assert (∀ z, is_Some (alter mark_flushed x (unlink x <$> nodes t) !! z)
               ↔ is_Some (nodes t !! z)) as Hdom.
  { intros z. rewrite lookup_alter, !lookup_fmap.
    case_decide; [subst z|]; by rewrite !fmap_is_Some. }
  assert (∀ k,
            default []
              (match destination xnode with
               | None =>
                   alter (List.filter (λ s, negb (Nat.eqb s x)))
                     (sentinel xnode) (sentinels t)
               | Some _ => sentinels t
               end !! k)
            = if decide (destination xnode = None ∧ sentinel xnode = k)
              then List.filter (λ s, negb (Nat.eqb s x))
                     (default [] (sentinels t !! k))
              else default [] (sentinels t !! k)) as Hlist.
  { intros k. destruct (destination xnode) as [dx|].
    - rewrite decide_False; [done | by intros [? _]].
    - rewrite list_lookup_alter. case_decide as Hk.
      + rewrite decide_True by done. subst k.
        by destruct (sentinels t !! sentinel xnode).
      + rewrite decide_False; [done | by intros [_ ?]]. }
  split; simpl.
  - apply (ranked_same_destinations (nodes t)); [|done].
    intros s. rewrite lookup_alter, !lookup_fmap.
    case_decide; [subst s; by rewrite Hx | by destruct (nodes t !! s)].
  - split; [|split].
    + intros r node Hnode Hdest Hlive. rewrite Hlist.
      rewrite lookup_alter, !lookup_fmap in Hnode.
      case_decide as Hxr.
      { subst r. rewrite Hx in Hnode. simpl in Hnode.
        injection Hnode as <-. done. }
      destruct (nodes t !! r) as [node0|] eqn:Hnode0; [|done].
      simpl in Hnode. injection Hnode as <-. simpl in *.
      pose proof (Hroot r node0 Hnode0 Hdest Hlive) as Hin.
      case_decide; [|done]. apply elem_of_unlink. split; [congruence | done].
    + intros k y. rewrite Hlist. intros Hy. apply Hdom, (Hknown k).
      case_decide; [|done]. by apply elem_of_unlink in Hy as [_ ?].
    + intros k. rewrite Hlist. case_decide; [|apply Honce].
      eapply sublist_NoDup; [apply Honce | apply unlink_sublist].
Qed.

Lemma tracker_inv_ext t t' :
  nodes t' = nodes t → sentinels t' = sentinels t →
  tracker_inv t → tracker_inv t'.
Proof. unfold tracker_inv. by intros -> ->. Qed.

Lemma onSubscribe_inv s dest under t :
  tracker_inv t → tracker_inv (onSubscribe s dest under t).
Proof.
  intros [Hranked Hrooted]. unfold onSubscribe.
  destruct (nodes t !! s) as [|] eqn:Hfresh; [done|].
  destruct (dest ≫= _) as [[d parent]|] eqn:Hparent.
  - destruct dest as [d'|]; [|done]. simpl in Hparent.
    destruct (get d' t) as [parent'|] eqn:Hget; [|done].
    simpl in Hparent. injection Hparent as -> ->.
    apply get_Some in Hget as [Hd _].
    split; simpl; [by apply ranked_below | by apply rooted_below].
  - destruct (under ≫= _) as [[k roots]|] eqn:Hunder.
    + destruct under as [k'|]; [|done]. simpl in Hunder.
      destruct (sentinels t !! k') as [roots'|] eqn:Hk; [|done].
      simpl in Hunder. injection Hunder as -> ->.
      split; simpl; [by apply ranked_insert | by apply rooted_shared].
    + split; simpl; [by apply ranked_insert | by apply rooted_fresh].
Qed.

Lemma onSourceSubscribe_inv parent child t :
  tracker_inv t → tracker_inv (onSourceSubscribe parent child t).
Proof.
  intros Hinv. unfold onSourceSubscribe.
  destruct (get parent t); [by apply onSubscribe_inv | done].
Qed.

Lemma onMergeSubscribe_inv parent inner t :
  tracker_inv t → tracker_inv (onMergeSubscribe parent inner t).
Proof.
  intros [Hranked Hrooted]. unfold onMergeSubscribe.
  destruct (nodes t !! inner) as [|] eqn:Hfresh; [done|].
  destruct (get parent t) as [node|] eqn:Hget; [|done].
  apply get_Some in Hget as [Hparent _].
  split; simpl; [by apply ranked_below | by apply rooted_below].
Qed.

Lemma onTeardown_inv s outcome t :
  tracker_inv t → tracker_inv (onTeardown s outcome t).
Proof.
  intros Hinv. unfold onTeardown.
  destruct (nodes t !! s) as [node|] eqn:Hnode; [|done].
  destruct (terminal node); [done|].
  set (t1 := {| retention_window := retention_window t; clock := clock t;
                nodes := _; sentinels := sentinels t; timers := timers t |}).
  assert (tracker_inv t1) as Hinv1.
  { destruct Hinv as [Hranked Hrooted]. split; simpl.
    - apply (ranked_same_destinations (nodes t)); [|done].
      intros x. rewrite lookup_insert. case_decide; [subst x|done].
      by rewrite Hnode.
    - apply (rooted_same_links (nodes t)); [|done].
      intros x. rewrite lookup_insert. case_decide; [subst x|done].
      by rewrite Hnode. }
  unfold scheduleFlush. destruct (retention_window t1); [by apply flush_inv|].
  by apply (tracker_inv_ext t1).
Qed.

Lemma fire_inv (due : list (nat * Subscription)) t :
  tracker_inv t → tracker_inv (fire due t).
Proof.
  revert t. induction due as [|timer due IH]; intros t Hinv; [done|].
  simpl. by apply IH, flush_inv.
Qed.

Lemma advance_inv elapsed t : tracker_inv t → tracker_inv (advance elapsed t).
Proof.
  intros Hinv. unfold advance. apply fire_inv. by apply (tracker_inv_ext t).
Qed.

Lemma handle_inv e t : tracker_inv t → tracker_inv (handle e t).
Proof.
  intros Hinv.
  destruct e as [s dest under|parent child|parent inner|s outcome|elapsed];
    simpl.
  - by apply onSubscribe_inv.
  - by apply onSourceSubscribe_inv.
  - by apply onMergeSubscribe_inv.
  - by apply onTeardown_inv.
  - by apply advance_inv.
Qed.

Lemma tracked_inv t : tracked t → tracker_inv t.
Proof.
  induction 1 as [window|e t _ IH]; [|by apply handle_inv].
  split; simpl.
  - exists (λ _, 0). split.
    + intros s [node Hnode]. by rewrite lookup_empty in Hnode.
    + intros s node d Hnode. by rewrite lookup_empty in Hnode.
  - split; [|split].
    + intros r node Hnode. by rewrite lookup_empty in Hnode.
    + intros k y Hy. rewrite lookup_nil in Hy. by apply elem_of_nil in Hy.
    + intros k. rewrite lookup_nil. apply NoDup_nil_2.
Qed.

(** *** The walk to the root destination *)

(** With enough fuel for the rank of where it starts, the walk follows links
    and stops where there is no further link. *)
Lemma furthest_reaches t (rank : Subscription → nat) :
  (∀ s node d, nodes t !! s = Some node → destination node = Some d →
     is_Some (nodes t !! d) ∧ rank d < rank s) →
  ∀ fuel current,
    (is_Some (nodes t !! current) → rank current < fuel) →
    rtc (link t) current (furthest fuel t current)
    ∧ get (furthest fuel t current) t ≫= destination = None.
Proof.
  intros Hedge fuel. induction fuel as [|fuel IH]; intros current Hfuel.
  - simpl. split; [done|]. unfold get.
    destruct (nodes t !! current) as [node|] eqn:Hnode; [|done].
    assert (rank current < 0) by (apply Hfuel; by eexists). lia.
  - simpl. destruct (get current t ≫= destination) as [next|] eqn:Hnext;
      [|by split].
    assert (∃ node, nodes t !! current = Some node
                    ∧ destination node = Some next) as (node & Hnode & Hdest).
    { unfold get in Hnext.
      destruct (nodes t !! current) as [node|]; [|done].
      destruct (flushed node); [done|]. eauto. }
    destruct (Hedge current node next Hnode Hdest) as [_ Hlt].
    assert (rank current < S fuel) by (apply Hfuel; by eexists).
    destruct (IH next) as [Hpath Hend]; [intros _; lia|].
    split; [|done]. by eapply rtc_l.
Qed.

Lemma chain_built window a b c (u1 u2 u3 : option nat) :
  a ≠ b → a ≠ c → b ≠ c →
  let root := {| destination := None; sources := [b]; merges := [];
                 sentinel := 0; terminal := None; flushed := false |} in
  let middle := {| destination := Some c; sources := [a]; merges := [];
                   sentinel := 0; terminal := None; flushed := false |} in
  let leaf := {| destination := Some b; sources := []; merges := [];
                 sentinel := 0; terminal := None; flushed := false |} in
  onSubscribe a (Some b) u1
    (onSubscribe b (Some c) u2 (onSubscribe c None u3 (new_Tracker window)))
  = {| retention_window := window; clock := 0;
       nodes := <[a := leaf]> (<[b := middle]> (<[c := root]> ∅));
       sentinels := [[c]]; timers := [] |}.
Proof.
  intros Hab Hac Hbc root middle leaf.
  assert (onSubscribe c None u3 (new_Tracker window)
          = {| retention_window := window; clock := 0;
               nodes := <[c := root_under 0]> ∅;
               sentinels := [[c]]; timers := [] |}) as ->.
  { unfold onSubscribe, new_Tracker. simpl. rewrite lookup_empty.
    by destruct u3 as [k|]. }
  unfold onSubscribe, get, with_nodes, node_below, root_under.
  repeat (simpl;
          first [ rewrite lookup_empty | rewrite lookup_insert_eq
                | rewrite lookup_insert_ne by done
                | rewrite lookup_alter_ne by done ]).
  f_equal. apply map_eq. intros x.
  subst root middle leaf. unfold with_source.
  repeat (first [ rewrite lookup_insert | rewrite lookup_alter
                | rewrite lookup_empty ];
          repeat case_decide; simplify_eq; simpl; try done).
Qed.

(** C9, on the tracker modelled from the spec.  For the chain built by
    observing C as a root, then B with destination C, then A with destination
    B: the root destination of A and of B is C, C has neither a root
    destination nor a destination.  In any tracker that events have built,
    the root destination of a node that [get] finds is null exactly when its
    destination is, and otherwise it is reached from the node by one or more
    destination links and has no further link. *)
Theorem rootDestination_furthest :
  (∀ window a b c u1 u2 u3, a ≠ b → a ≠ c → b ≠ c →
     let t := onSubscribe a (Some b) u1
                (onSubscribe b (Some c) u2
                   (onSubscribe c None u3 (new_Tracker window))) in
     ∃ na nb nc,
       get a t = Some na ∧ get b t = Some nb ∧ get c t = Some nc
       ∧ destination na = Some b ∧ destination nb = Some c
       ∧ rootDestination t na = Some c
       ∧ rootDestination t nb = Some c
       ∧ rootDestination t nc = None
       ∧ destination nc = None)
  ∧ (∀ t n node, tracked t → get n t = Some node →
       (rootDestination t node = None ↔ destination node = None)
       ∧ ∀ r, rootDestination t node = Some r →
              tc (link t) n r ∧ get r t ≫= destination = None).
Proof.
  split.
  - intros window a b c u1 u2 u3 Hab Hac Hbc t. subst t.
    rewrite chain_built by done.
    set (t := {| retention_window := window; clock := 0; nodes := _;
                 sentinels := [[c]]; timers := [] |}).
    assert (size (nodes t) = 3) as Hsize.
    { simpl. rewrite !map_size_insert_None, map_size_empty; [done|..].
      - apply lookup_empty.
      - by rewrite lookup_insert_ne, lookup_empty.
      - by rewrite !lookup_insert_ne, lookup_empty. }
    assert (∀ x node, nodes t !! x = Some node → flushed node = false →
              get x t = Some node) as Hget.
    { intros x node Hnode Hlive. unfold get. by rewrite Hnode, Hlive. }
    eexists _, _, _.
    split; [apply Hget; [apply lookup_insert_eq | done]|].
    assert (get b t = Some {| destination := Some c; sources := [a];
                              merges := []; sentinel := 0; terminal := None;
                              flushed := false |}) as Hb.
    { apply Hget; [|done]. simpl.
      rewrite lookup_insert_ne by done. apply lookup_insert_eq. }
    assert (get c t = Some {| destination := None; sources := [b];
                              merges := []; sentinel := 0; terminal := None;
                              flushed := false |}) as Hc.
    { apply Hget; [|done]. simpl.
      rewrite !lookup_insert_ne by done. apply lookup_insert_eq. }
    split; [exact Hb|]. split; [exact Hc|].
    split; [done|]. split; [done|].
    unfold rootDestination. rewrite Hsize. simpl. rewrite Hb, Hc. simpl.
    by rewrite Hc.
  - intros t n node Htracked Hget.
    pose proof (tracked_inv t Htracked) as [(rank & Hbound & Hedge) _].
    unfold rootDestination. split.
    + by destruct (destination node).
    + intros r Hroot.
      destruct (destination node) as [next|] eqn:Hdest; [|done].
      injection Hroot as <-.
      assert (nodes t !! n = Some node) as Hnode.
      { unfold get in Hget. destruct (nodes t !! n) as [node'|]; [|done].
        destruct (flushed node'); [done | congruence]. }
      destruct (Hedge n node next Hnode Hdest) as [_ Hlt].
      assert (rank n < size (nodes t)) by (apply Hbound; by eexists).
      destruct (furthest_reaches t rank Hedge (size (nodes t)) next)
        as [Hpath Hend]; [intros _; lia|].
      split; [|done].
      eapply tc_rtc_r; [|exact Hpath].
      apply tc_once. unfold link. by rewrite Hget.
Qed.

(** *** Flushing and the sentinel *)

Lemma flush_node x t r node :
  nodes t !! r = Some node →
  ∃ node', nodes (flush x t) !! r = Some node'
    ∧ destination node' = destination node ∧ sentinel node' = sentinel node
    ∧ terminal node' = terminal node.
Proof.
  intros Hnode. unfold flush.
  destruct (nodes t !! x) as [xnode|] eqn:Hx; [|eauto]. simpl.
  rewrite lookup_alter, !lookup_fmap. case_decide.
  - subst r. rewrite Hx in *. simplify_eq. simpl. eauto.
  - rewrite Hnode. simpl. eauto.
Qed.

Lemma flush_fields x t :
  retention_window (flush x t) = retention_window t
  ∧ clock (flush x t) = clock t ∧ timers (flush x t) = timers t.
Proof. unfold flush. by destruct (nodes t !! x) as [xnode|]. Qed.

(** Flushing takes subscriptions away from a sentinel, and adds none. *)
Lemma flush_sentinel_sublist x t k :
  sentinel_sources k (flush x t) `sublist_of` sentinel_sources k t.
Proof.
  unfold flush, sentinel_sources.
  destruct (nodes t !! x) as [xnode|]; [|done]. simpl.
  destruct (destination xnode); [done|].
  rewrite list_lookup_alter. case_decide as Hk; [|done].
  rewrite Hk. destruct (sentinels t !! k) as [l|]; simpl; [|done].
  apply unlink_sublist.
Qed.

Lemma flush_root_gone r t node :
  nodes t !! r = Some node → destination node = None →
  sentinel_sources (sentinel node) (flush r t)
  = List.filter (λ s, negb (Nat.eqb s r)) (sentinel_sources (sentinel node) t).
Proof.
  intros Hnode Hroot. unfold flush, sentinel_sources.
  rewrite Hnode, Hroot. simpl. rewrite list_lookup_alter_eq.
  by destruct (sentinels t !! sentinel node) as [l|].
Qed.

Lemma fire_node due t r node :
  nodes t !! r = Some node →
  ∃ node', nodes (fire due t) !! r = Some node'
    ∧ destination node' = destination node ∧ sentinel node' = sentinel node
    ∧ terminal node' = terminal node.
Proof.
  revert t node. induction due as [|timer due IH]; intros t node Hnode;
    simpl; [eauto|].
  destruct (flush_node timer.2 t r node Hnode) as (node1 & Hn1 & Hd & Hk & Ht).
  destruct (IH _ node1 Hn1) as (node2 & ? & ? & ? & ?).
  exists node2. repeat split; congruence.
Qed.

Lemma fire_fields due t :
  retention_window (fire due t) = retention_window t
  ∧ clock (fire due t) = clock t ∧ timers (fire due t) = timers t.
Proof.
  revert t. induction due as [|timer due IH]; intros t; simpl; [done|].
  destruct (IH (flush timer.2 t)) as (-> & -> & ->).
  apply flush_fields.
Qed.

Lemma fire_sentinel_sublist due t k :
  sentinel_sources k (fire due t) `sublist_of` sentinel_sources k t.
Proof.
  revert t. induction due as [|timer due IH]; intros t; simpl; [done|].
  etrans; [apply IH | apply flush_sentinel_sublist].
Qed.

Lemma advance_sentinel_sublist elapsed t k :
  sentinel_sources k (advance elapsed t) `sublist_of` sentinel_sources k t.
Proof.
  unfold advance.
  match goal with
  | |- sentinel_sources k (fire ?due ?t0) `sublist_of` _ =>
      exact (fire_sentinel_sublist due t0 k)
  end.
Qed.

Lemma fire_root_gone due t r node (at_ : nat) :
  nodes t !! r = Some node → destination node = None →
  (at_, r) ∈ due →
  r ∉ sentinel_sources (sentinel node) (fire due t).
Proof.
  revert t node. induction due as [|timer due IH]; intros t node Hnode Hroot Hin.
  - by apply elem_of_nil in Hin.
  - simpl. apply elem_of_cons in Hin as [<-|Hin].
    + intros Hstill.
      pose proof (elem_of_sublist _ _ _ Hstill
                    (fire_sentinel_sublist due (flush r t) (sentinel node)))
        as Hleft.
      rewrite (flush_root_gone r t node) in Hleft by done.
      clear Hstill. rename Hleft into Hstill.
      by apply elem_of_unlink in Hstill as [? _].
    + destruct (flush_node timer.2 t r node Hnode) as (node1 & Hn1 & Hd & Hk & _).
      rewrite <- Hk. apply IH; [done | congruence | done].
Qed.

(** A subscription enters the sources of a sentinel only when it is
    registered. *)
Lemma onSubscribe_sentinel_sources s dest under t k y :
  y ∈ sentinel_sources k (onSubscribe s dest under t) →
  y ∈ sentinel_sources k t ∨ (y = s ∧ nodes t !! s = None).
Proof.
  unfold onSubscribe, sentinel_sources.
  destruct (nodes t !! s) as [|] eqn:Hfresh; [by left|].
  destruct (dest ≫= _) as [[d parent]|]; [by left|].
  destruct (under ≫= _) as [[k' roots]|] eqn:Hunder; simpl.
  - destruct under as [k''|]; [|done]. simpl in Hunder.
    destruct (sentinels t !! k'') as [roots'|] eqn:Hk; [|done].
    simpl in Hunder. injection Hunder as -> ->.
    rewrite list_lookup_insert by (by eapply lookup_lt_Some).
    case_decide as Hkk; [|by left]. destruct Hkk as [-> _].
    simpl. rewrite Hk. simpl. intros [Hy|Hy]%elem_of_app; [by left|].
    apply list_elem_of_singleton in Hy. by right.
  - destruct (decide (k < length (sentinels t))) as [Hlt|Hge].
    + rewrite lookup_app_l by done. by left.
    + destruct (decide (k = length (sentinels t))) as [->|Hne].
      * rewrite lookup_app_r, Nat.sub_diag by done. simpl.
        intros Hy. apply list_elem_of_singleton in Hy. by right.
      * rewrite lookup_ge_None_2 by (rewrite length_app; simpl; lia).
        simpl. intros Hy. by apply elem_of_nil in Hy.
Qed.

Lemma handle_flush_pending e r k due t :
  flush_pending r k due t → flush_pending r k due (handle e t).
Proof.
  intros ((node & Hnode & Hroot & Hk & Hterminal) & Hwindow & Hstate).
  assert (∀ s dest under,
            flush_pending r k due (onSubscribe s dest under t)) as Hsubscribe.
  { intros s dest under.
    destruct (nodes t !! s) as [snode|] eqn:Hs.
    { unfold onSubscribe. rewrite Hs. by repeat split; eauto. }
    assert (r ≠ s) as Hrs by congruence.
    assert ((∃ node', nodes (onSubscribe s dest under t) !! r = Some node'
                      ∧ destination node' = None ∧ sentinel node' = k
                      ∧ is_Some (terminal node'))
            ∧ retention_window (onSubscribe s dest under t) = retention_window t
            ∧ clock (onSubscribe s dest under t) = clock t
            ∧ timers (onSubscribe s dest under t) = timers t)
      as (Hnode' & Hw' & Hc' & Ht').
    { unfold onSubscribe. rewrite Hs.
      destruct (dest ≫= _) as [[d parent]|]; simpl.
      - rewrite lookup_insert_ne, lookup_alter by done.
        split; [|done].
        case_decide; [subst d|]; rewrite Hnode; simpl; eauto.
      - destruct (under ≫= _) as [[k' roots]|]; simpl;
          rewrite lookup_insert_ne by done; eauto 10. }
    split; [done|]. split; [by rewrite Hw'|].
    destruct Hstate as [Hgone|[Htimer Hahead]].
    - left. intros Hin.
      apply onSubscribe_sentinel_sources in Hin as [?|[? _]]; done.
    - right. by rewrite Ht', Hc'. }
  destruct e as [s dest under|parent child|parent inner|s outcome|elapsed];
    simpl.
  - apply Hsubscribe.
  - unfold onSourceSubscribe.
    destruct (get parent t); [apply Hsubscribe | by repeat split; eauto].
  - unfold onMergeSubscribe.
    destruct (nodes t !! inner) as [|] eqn:Hfresh; [by repeat split; eauto|].
    destruct (get parent t) as [pnode|]; [|by repeat split; eauto].
    assert (r ≠ inner) as Hne by congruence.
    split; [|done]. simpl. rewrite lookup_insert_ne, lookup_alter by done.
    case_decide; [subst parent|]; rewrite Hnode; simpl; eauto.
  - unfold onTeardown.
    destruct (nodes t !! s) as [snode|] eqn:Hs; [|by repeat split; eauto].
    destruct (terminal snode) eqn:Hsterminal; [by repeat split; eauto|].
    assert (r ≠ s) as Hrs.
    { intros ->. rewrite Hs in Hnode. injection Hnode as ->.
      rewrite Hsterminal in Hterminal. by destruct Hterminal. }
    unfold scheduleFlush. simpl.
    destruct (retention_window t) as [|w] eqn:Hw; [lia|].
    unfold flush_pending, sentinel_sources. simpl.
    rewrite lookup_insert_ne by done.
    split; [eauto|]. split; [lia|].
    destruct Hstate as [Hgone|[Htimer Hclock]]; [by left|right].
    split; [|done]. apply elem_of_app. by left.
  - unfold advance.
    set (now := clock t + elapsed).
    set (t0 := {| retention_window := retention_window t; clock := now;
                  nodes := nodes t; sentinels := sentinels t; timers := _ |}).
    set (firing := List.filter _ (timers t)).
    destruct (fire_node firing t0 r node Hnode) as (node' & Hnode' & Hd & Hs & Ht).
    destruct (fire_fields firing t0) as (Hw' & Hclock' & Htimers').
    split; [exists node'; repeat split; congruence|].
    split; [by rewrite Hw'|].
    destruct Hstate as [Hgone|[Htimer Hahead]].
    { left. intros Hstill. apply Hgone.
      exact (elem_of_sublist _ _ _ Hstill (fire_sentinel_sublist firing t0 k)). }
    destruct (decide (due ≤ now)) as [Hdue|Hlater].
    + left. rewrite <- Hk.
      apply (fire_root_gone firing t0 r node due); [done | done |].
      apply list_elem_of_In, filter_In. split; [by apply list_elem_of_In|].
      simpl. by apply Nat.leb_le.
    + right. rewrite Htimers', Hclock'. simpl. split; [|lia].
      apply list_elem_of_In, filter_In. split; [by apply list_elem_of_In|].
      simpl. apply negb_true_iff, Nat.leb_gt. lia.
Qed.

Lemma clock_advance elapsed t : clock (advance elapsed t) = clock t + elapsed.
Proof.
  unfold advance.
  match goal with
  | |- clock (fire ?due ?t0) = _ => by destruct (fire_fields due t0) as (_ & -> & _)
  end.
Qed.

Lemma replay_flush_pending events r k due t :
  flush_pending r k due t → flush_pending r k due (replay events t).
Proof.
  revert t. induction events as [|e events IH]; intros t Hpending; [done|].
  simpl. by apply IH, handle_flush_pending.
Qed.

Lemma replay_tracked events t : tracked t → tracked (replay events t).
Proof.
  revert t. induction events as [|e events IH]; intros t Htracked; [done|].
  simpl. apply IH. by constructor.
Qed.

(** C8, on the tracker modelled from the spec, as the model has it.  A
    root that [get] finds and that has not terminated is among the sources of
    its sentinel, once.  When its termination (whatever the outcome) is
    observed: with a retention window of zero the root, and nothing else, has
    left the sources of the sentinel right after, which are one fewer, and
    none if the root was the only source; with a window [d > 0] the sources of
    the sentinel are unchanged right after; once the clock has advanced by
    [d] the root is not among them, whatever else the tracker observes in
    between; and when nothing but the time [d] or more is observed they are
    fewer than before, and none if the root was the only source. *)
Theorem root_flushed_after_retention t r node outcome :
  tracked t →
  get r t = Some node → destination node = None → terminal node = None →
  let k := sentinel node in
  let t' := onTeardown r outcome t in
  r ∈ sentinel_sources k t
  ∧ (retention_window t = 0 →
       sentinel_sources k t'
       = List.filter (λ s, negb (Nat.eqb s r)) (sentinel_sources k t)
       ∧ S (length (sentinel_sources k t')) = length (sentinel_sources k t)
       ∧ (sentinel_sources k t = [r] → length (sentinel_sources k t') = 0))
  ∧ (0 < retention_window t →
       sentinel_sources k t' = sentinel_sources k t
       ∧ (∀ events, clock t + retention_window t ≤ clock (replay events t') →
            r ∉ sentinel_sources k (replay events t'))
       ∧ (∀ elapsed, retention_window t ≤ elapsed →
            (r ∉ sentinel_sources k (advance elapsed t'))
            ∧ length (sentinel_sources k (advance elapsed t'))
              < length (sentinel_sources k t)
            ∧ (sentinel_sources k t = [r] →
                 length (sentinel_sources k (advance elapsed t')) = 0))).
Proof.
  intros Htracked Hget Hroot Hterminal k t'.
  pose proof (tracked_inv t Htracked) as [_ (Hrooted & _ & Honce)].
  apply get_Some in Hget as [Hnode Hlive].
  pose proof (Hrooted r node Hnode Hroot Hlive) as Hin. fold k in Hin.
  change (r ∈ sentinel_sources k t) in Hin.
  specialize (Honce k). change (NoDup (sentinel_sources k t)) in Honce.
  split; [done|].
  unfold t', onTeardown. rewrite Hnode, Hterminal. unfold scheduleFlush. simpl.
  split.
  - intros Hzero. rewrite Hzero.
    set (t1 := {| retention_window := 0; clock := clock t; nodes := _;
                  sentinels := sentinels t; timers := timers t |}).
    assert (sentinel_sources k (flush r t1)
            = List.filter (λ s, negb (Nat.eqb s r)) (sentinel_sources k t))
      as Hflushed.
    { apply (flush_root_gone r t1
               {| destination := destination node; sources := sources node;
                  merges := merges node; sentinel := sentinel node;
                  terminal := Some outcome; flushed := flushed node |});
        [apply lookup_insert_eq | done]. }
    split; [done|]. rewrite Hflushed. split.
    + clear -Hin Honce. induction Honce as [|y l Hnotin Honce IH]; simpl.
      { by apply elem_of_nil in Hin. }
      apply elem_of_cons in Hin as [<-|Hin].
      * rewrite Nat.eqb_refl. simpl. f_equal. f_equal.
        clear -Hnotin. induction l as [|z l IH]; [done|]. simpl.
        apply not_elem_of_cons in Hnotin as [Hne Hnotin].
        destruct (Nat.eqb_spec z r); [congruence|]. simpl. f_equal. by apply IH.
      * destruct (Nat.eqb_spec y r) as [->|Hne]; [done|]. simpl.
        by rewrite (IH Hin).
    + intros ->. simpl. by rewrite Nat.eqb_refl.
  - intros Hpositive.
    destruct (retention_window t) as [|w] eqn:Hw; [lia|].
    set (t1 := {| retention_window := S w; clock := clock t; nodes := _;
                  sentinels := sentinels t; timers := _ |}).
    assert (sentinel_sources k t1 = sentinel_sources k t) as Hsources1 by done.
    assert (flush_pending r k (clock t + S w) t1) as Hpending.
    { split; [|split].
      - eexists. split; [apply lookup_insert_eq|]. simpl. eauto.
      - simpl. lia.
      - right. simpl. split; [|lia]. apply elem_of_app. right. by left. }
    assert (∀ events, clock t + S w ≤ clock (replay events t1) →
              r ∉ sentinel_sources k (replay events t1)) as Hlater.
    { intros events Hclock.
      destruct (replay_flush_pending events r k _ t1 Hpending)
        as (_ & _ & Hstate).
      destruct Hstate as [Hgone|[_ Hahead]]; [done | lia]. }
    split; [done|]. split; [exact Hlater|].
    intros elapsed Helapsed.
    assert (r ∉ sentinel_sources k (advance elapsed t1)) as Hgone.
    { apply (Hlater [Advance elapsed]).
      simpl. rewrite clock_advance. simpl. lia. }
    assert (length (sentinel_sources k (advance elapsed t1))
            < length (sentinel_sources k t)) as Hfewer.
    { apply (sublist_shorter _ _ r); [|done|done].
      rewrite <- Hsources1. apply advance_sentinel_sublist. }
    split; [done|]. split; [done|].
    intros Hone. rewrite Hone in Hfewer. simpl in Hfewer. lia.
Qed.

End graph_facts.

(** *** The claims on the trackers of the tests *)

(** C8 as stated fails when a sentinel is shared: of two roots under one
    sentinel, the one that has not terminated stays among the sources of the
    sentinel when the other completes, with a window of zero right after,
    and with a window of ten after that time. *)
Lemma root_flush_keeps_other_roots :
  tracked (two_roots 0) ∧ tracked (two_roots 10)
  ∧ sentinel_sources 0 (two_roots 0) = [12; 13]
  ∧ sentinel <$> get 12 (two_roots 0) = Some 0
  ∧ sentinel_sources 0 (onTeardown 12 completed (two_roots 0)) = [13]
  ∧ length (sentinel_sources 0 (onTeardown 12 completed (two_roots 0))) ≠ 0
  ∧ sentinel_sources 0 (advance 10 (onTeardown 12 completed (two_roots 10)))
    = [13]
  ∧ length
      (sentinel_sources 0 (advance 10 (onTeardown 12 completed (two_roots 10))))
    ≠ 0.
Proof.
  split; [apply replay_tracked; constructor|].
  split; [apply replay_tracked; constructor|].
  split; [vm_compute; reflexivity|]. split; [vm_compute; reflexivity|].
  split; [vm_compute; reflexivity|]. split; [vm_compute; discriminate|].
  split; [vm_compute; reflexivity | vm_compute; discriminate].
Qed.

Lemma root_flushed_after_retention_witness :
  tracked (one_root 0) ∧ tracked (two_roots 10)
  ∧ get 12 (one_root 0) = Some (root_under 0)
  ∧ sentinel_sources 0 (one_root 0) = [12]
  ∧ length (sentinel_sources 0 (onTeardown 12 completed (one_root 0))) = 0
  ∧ sentinel_sources 0 (onTeardown 12 unsubscribed (two_roots 10))
    = sentinel_sources 0 (two_roots 10)
  ∧ 12 ∉ sentinel_sources 0
           (advance 10 (onTeardown 12 unsubscribed (two_roots 10))).
Proof.
  assert (∀ window, tracked (one_root window)) as Htracked
    by (intros window; apply replay_tracked; constructor).
  assert (∀ window, tracked (two_roots window)) as Htracked2
    by (intros window; apply replay_tracked; constructor).
  destruct (root_flushed_after_retention (one_root 0) 12 (root_under 0)
              completed (Htracked 0) eq_refl eq_refl eq_refl)
    as (_ & Hzero & _).
  destruct (root_flushed_after_retention (two_roots 10) 12 (root_under 0)
              unsubscribed (Htracked2 10) eq_refl eq_refl eq_refl)
    as (_ & _ & Hkept).
  assert (0 < retention_window (two_roots 10)) as Hpositive
    by (vm_compute; lia).
  destruct (Hkept Hpositive) as (Hsame & _ & Hlater).
  assert (retention_window (two_roots 10) ≤ 10) as Helapsed
    by (vm_compute; lia).
  split; [exact (Htracked 0)|]. split; [exact (Htracked2 10)|].
  split; [reflexivity|]. split; [reflexivity|].
  split; [exact (proj2 (proj2 (Hzero eq_refl)) eq_refl)|].
  split; [exact Hsame|].
  exact (proj1 (Hlater 10 Helapsed)).
Defined.

Lemma rootDestination_furthest_witness :
  tracked (chain 0)
  ∧ (∃ na nb nc,
       get 10 (chain 0) = Some na ∧ get 11 (chain 0) = Some nb
       ∧ get 12 (chain 0) = Some nc
       ∧ rootDestination (chain 0) na = Some 12
       ∧ rootDestination (chain 0) nb = Some 12
       ∧ rootDestination (chain 0) nc = None
       ∧ destination nc = None)
  ∧ tc (link (chain 0)) 10 12.
Proof.
  assert (tracked (chain 0)) as Htracked by (apply replay_tracked; constructor).
  destruct rootDestination_furthest as [Hchain Hgeneral].
  assert (10 ≠ 11 ∧ 10 ≠ 12 ∧ 11 ≠ 12) as (Hab & Hac & Hbc) by lia.
  destruct (Hchain 0 10 11 12 None None None Hab Hac Hbc)
    as (na & nb & nc & Ha & Hb & Hc & _ & _ & Hra & Hrb & Hrc & Hdc).
  split; [exact Htracked|]. split.
  - exists na, nb, nc. repeat split; assumption.
  - exact (proj1 (proj2 (Hgeneral (chain 0) 10 na Htracked Ha) 12 Hra)).
Defined.

(** ** The control deck: further properties *)

Section deck_extras.

Context {Match : Type}.
Variable read : Observable → option string.

Implicit Types (d : Deck Match) (state : State) (o : Observable)
  (h : Subscription) (n : Notification) (c : Call) (calls : list Call).

(** [getOperator] leaves what every stream has buffered and forwarded, and
    the paused flag, as they were. *)
Lemma getOperator_observations o d d' :
  getOperator read o d = Returned d' →
  paused_ d' = paused_ d
  ∧ ∀ o', buffer_of o' d' = buffer_of o' d ∧ forwarded o' d' = forwarded o' d.
Proof.
  unfold getOperator.
  destruct (states_ d !! o) as [state|] eqn:Hstate.
  - destruct (subscription_ state); [|done]. intros [= <-].
    split; [done|]. intros o'.
    by rewrite buffer_of_subscribe_stage, forwarded_subscribe_stage.
  - intros [= <-]. split; [done|]. intros o'.
    rewrite buffer_of_subscribe_stage, forwarded_subscribe_stage.
    unfold buffer_of, forwarded. simpl.
    destruct (decide (o = o')) as [<-|Hne].
    + by rewrite lookup_insert_eq, Hstate.
    + by rewrite lookup_insert_ne.
Qed.

Lemma history_perform o c d :
  deck_inv d → discards c = false →
  forwarded o (perform read c d) ++ buffer_of o (perform read c d)
  = forwarded o d ++ buffer_of o d ++ arrival o c d.
Proof.
  intros (Hbuffers & _ & _ & Hback) Hkeeps.
  destruct c as [predicate|o'| | | | | |h n]; simpl in *; try done.
  - rewrite app_nil_r.
    destruct (getOperator read o' d) as [d'|] eqn:Hget; [|done].
    destruct (getOperator_observations o' d d' Hget) as [_ Hsame].
    by destruct (Hsame o) as [-> ->].
  - by rewrite app_nil_r.
  - by rewrite forwarded_resume, buffer_of_resume, !app_nil_r.
  - rewrite forwarded_step, buffer_of_step, app_nil_r, <- app_assoc.
    by destruct (buffer_of o d).
  - by rewrite forwarded_unsubscribe, buffer_of_unsubscribe, app_nil_r.
  - unfold deliver. destruct (heap_ d !! h) as [s|] eqn:Hobj;
      [|by rewrite app_nil_r].
    destruct (closed s) eqn:Hopen; [by rewrite app_nil_r|].
    pose proof (Hback h s Hobj Hopen) as Hheld.
    assert (is_Some (states_ d !! captured s)) as Htracked.
    { unfold held_by in Hheld. by destruct (states_ d !! captured s). }
    rewrite forwarded_on_next, buffer_of_on_next.
    destruct (decide (captured s = o)) as [Heq|Hne].
    + destruct (paused_ d) eqn:Hp.
      * rewrite decide_False by (intros (_ & ? & _); done).
        rewrite decide_True by done. done.
      * rewrite decide_True by done.
        rewrite decide_False by (intros (_ & ? & _); done).
        by rewrite (Hbuffers Hp o), !app_nil_r.
    + rewrite !decide_False by (intros (? & _); done).
      by rewrite app_nil_r.
Qed.

(** X1.  Nothing is lost, duplicated or reordered by a run of calls
    during which the pipeline does not call the deck while [resume()] and
    [step()] forward: from a deck between two calls that is paused, or
    resumed with nothing buffered, after any such run without [skip()] and
    [clear()], what a stream has forwarded followed by what it still buffers
    is what it had forwarded and buffered before followed by the
    notifications the run delivered to it, in the order in which they arrived;
    a [resume()] after the run has forwarded all of it. *)
Theorem Deck_history_preserved o calls d :
  reachable read d →
  buffers_ok d →
  forallb (λ c, negb (discards c)) calls = true →
  forwarded o (run read calls d) ++ buffer_of o (run read calls d)
  = forwarded o d ++ buffer_of o d ++ arrivals read o calls d
  ∧ forwarded o (resume (run read calls d))
    = forwarded o d ++ buffer_of o d ++ arrivals read o calls d.
Proof.
  intros Hreach Hbuffers Hkeeps. rewrite forwarded_resume.
  enough (forwarded o (run read calls d) ++ buffer_of o (run read calls d)
          = forwarded o d ++ buffer_of o d ++ arrivals read o calls d)
    by done.
  assert (deck_inv d) as Hinv
    by (split; [done | by apply (reachable_ok read)]).
  clear Hreach Hbuffers.
  revert d Hinv Hkeeps. induction calls as [|c calls IH]; intros d Hinv Hkeeps.
  - simpl. by rewrite app_nil_r.
  - simpl in Hkeeps. apply andb_true_iff in Hkeeps as [Hc Hkeeps].
    apply negb_true_iff in Hc.
    rewrite run_cons, IH by (by try apply perform_inv).
    rewrite app_assoc, (history_perform o c d Hinv Hc). simpl.
    by rewrite <- !app_assoc.
Qed.

(** X2.  A paused deck forwards only when told to: a call other than
    [step()] and [resume()] on a paused deck forwards nothing on any stream,
    and leaves the deck paused. *)
Theorem Deck_paused_holds_back c d :
  paused_ d = true → releases c = false →
  paused_ (perform read c d) = true
  ∧ ∀ o, forwarded o (perform read c d) = forwarded o d.
Proof.
  intros Hp Hholds.
  destruct c as [predicate|o'| | | | | |h n]; simpl in *; try done.
  - split; [done|]. intros o. apply forwarded_clear.
  - destruct (getOperator read o' d) as [d'|] eqn:Hget; [|done].
    destruct (getOperator_observations o' d d' Hget) as [-> Hsame].
    split; [done|]. intros o. apply Hsame.
  - split; [done|]. intros o. apply forwarded_skip.
  - split; [done|]. intros o. apply forwarded_unsubscribe.
  - unfold deliver. destruct (heap_ d !! h) as [s|]; [|done].
    destruct (closed s); [done|]. split; [done|]. intros o.
    rewrite forwarded_on_next, decide_False; [done|].
    intros (_ & ? & _). congruence.
Qed.

Lemma buffered_all_empty (m : gmap Observable State) :
  (∀ o state, m !! o = Some state → notifications_ state = []) →
  buffered m = 0%Z.
Proof.
  induction m as [|o state m Hfresh IH] using map_ind; intros Hall.
  - apply buffered_empty.
  - rewrite buffered_insert by done.
    rewrite (Hall o state) by apply lookup_insert_eq.
    rewrite IH; [done|].
    intros o' state' Hlook. apply (Hall o').
    rewrite lookup_insert_ne; [done|]. intros ->. congruence.
Qed.

(** *** What [resume()] leaves behind *)

Lemma buffer_of_forward_head d o o' :
  buffer_of o' (forward_head o d)
  = if decide (o = o') then tail (buffer_of o' d) else buffer_of o' d.
Proof.
  unfold buffer_of, forward_head. simpl. rewrite lookup_alter.
  case_decide as Heq; [subst o'|done].
  destruct (states_ d !! o) as [state|]; simpl; [|done].
  by destruct (notifications_ state) eqn:Hbuffer.
Qed.

Lemma forwarded_forward_head d o o' :
  forwarded o' (forward_head o d)
  = if decide (o = o')
    then forwarded o' d ++ option_list (head (buffer_of o' d))
    else forwarded o' d.
Proof.
  unfold forwarded, buffer_of, forward_head. simpl. rewrite lookup_alter.
  case_decide as Heq; [subst o'|done].
  destruct (states_ d !! o) as [state|]; simpl; [|done].
  destruct (notifications_ state); simpl; [by rewrite app_nil_r | done].
Qed.

Lemma buffer_of_drain_stream d o o' :
  buffer_of o' (drain_stream o d)
  = if decide (o = o') then [] else buffer_of o' d.
Proof.
  unfold buffer_of, drain_stream. simpl. rewrite lookup_alter.
  case_decide as Heq; [subst o'|done]. by destruct (states_ d !! o).
Qed.

Lemma forwarded_drain_stream d o o' :
  forwarded o' (drain_stream o d)
  = if decide (o = o') then forwarded o' d ++ buffer_of o' d
    else forwarded o' d.
Proof.
  unfold forwarded, buffer_of, drain_stream. simpl. rewrite lookup_alter.
  case_decide as Heq; [subst o'|done].
  destruct (states_ d !! o) as [state|]; simpl; [apply drain_app | done].
Qed.

(** Draining stream after stream drains the streams visited. *)
Lemma lookup_drain_streams order d o :
  states_ (foldl (λ acc o', drain_stream o' acc) d order) !! o
  = if decide (o ∈ order)
    then (λ state,
            with_notifications []
              (with_subject (drain (notifications_ state) (subject_ state))
                 state)) <$> states_ d !! o
    else states_ d !! o.
Proof.
  revert d. induction order as [|o' order IH]; intros d.
  - destruct (decide (o ∈ [])) as [Hin|_]; [|done].
    by apply elem_of_nil in Hin.
  - change (foldl (λ acc o', drain_stream o' acc) d (o' :: order))
      with (foldl (λ acc o', drain_stream o' acc) (drain_stream o' d) order).
    rewrite IH.
    assert (states_ (drain_stream o' d) !! o
            = if decide (o' = o)
              then (λ state,
                      with_notifications []
                        (with_subject
                           (drain (notifications_ state) (subject_ state))
                           state)) <$> states_ d !! o
              else states_ d !! o) as ->.
    { unfold drain_stream. simpl. rewrite lookup_alter.
      destruct (decide (o' = o)) as [Heq|Hne]; [by rewrite Heq | done]. }
    destruct (decide (o' = o)) as [->|Hne].
    + destruct (decide (o ∈ o :: order)) as [_|Hnotin];
        [|exfalso; apply Hnotin; left].
      destruct (decide (o ∈ order)); [|done].
      by destruct (states_ d !! o) as [state|].
    + destruct (decide (o ∈ order)) as [Hin|Hnotin].
      * destruct (decide (o ∈ o' :: order)) as [_|Hnotin]; [done|].
        exfalso. apply Hnotin. by right.
      * destruct (decide (o ∈ o' :: order)) as [Hin|_]; [|done].
        apply elem_of_cons in Hin as [?|?]; [congruence | done].
Qed.

Lemma drain_streams_fields order d :
  let d' := foldl (λ acc o', drain_stream o' acc) d order in
  match_ d' = match_ d ∧ paused_ d' = paused_ d ∧ stats_ d' = stats_ d
  ∧ heap_ d' = heap_ d.
Proof.
  revert d. induction order as [|o order IH]; intros d; [done|].
  simpl. by destruct (IH (drain_stream o d)) as (-> & -> & -> & ->).
Qed.

(** When the pipeline does not call the deck meanwhile and every stream
    that has something buffered is visited, [resume_during] is [resume]. *)
Lemma resume_during_quiet order d :
  (∀ o, buffer_of o d ≠ [] → o ∈ order) →
  resume_during read order [] d = resume d.
Proof.
  intros Hvisited.
  assert (states_ (foldl (λ acc o', drain_stream o' acc) d order)
          = states_ (resume d)) as Hstates.
  { apply map_eq. intros o. rewrite lookup_drain_streams. unfold resume.
    simpl. rewrite lookup_fmap. case_decide as Hin; [done|].
    destruct (states_ d !! o) as [[ns subj sub tag]|] eqn:Hstate; [|done].
    simpl. destruct ns as [|n ns]; [done|].
    exfalso. apply Hin, Hvisited. unfold buffer_of. by rewrite Hstate. }
  destruct (drain_streams_fields order d) as (Hm & Hp & Hs & Hh).
  unfold resume_during, drain_during.
  destruct (foldl (λ acc o', drain_stream o' acc) d order)
    as [m p sts stats heap].
  simpl in *. subst. by destruct d.
Qed.

(** X3.  [resume()] hands over what the deck holds when it is called, and
    can leave behind what arrives while it forwards.  When the pipeline does
    not call the deck meanwhile, [resume()] is [resume], and every buffer is
    empty afterwards.  But [paused_] is cleared only after the buffers have
    been handed over: on a paused deck where [forEach] visits a stream [o1]
    with an empty buffer before a stream [o2] with a buffered notification,
    if the consumer of [o2] makes [o1] emit [m] when it is handed that
    notification, [m] is buffered and stays buffered in the resumed deck;
    the record published last counts it; a notification [m'] that [o1] emits
    afterwards is forwarded at once, ahead of [m]; and a second [resume()]
    forwards [m] behind it. *)
Theorem Deck_resume_leaves_arrivals d o1 o2 h1 n rest m :
  ((∀ order, (∀ o, buffer_of o d ≠ [] → o ∈ order) →
      resume_during read order [] d = resume d)
   ∧ ∀ o, buffer_of o (resume d) = [])
  ∧ (paused_ d = true → o1 ≠ o2 →
     heap_ d !! h1 = Some {| captured := o1; closed := false |} →
     is_Some (states_ d !! o1) →
     buffer_of o1 d = [] → buffer_of o2 d = n :: rest →
     let d' := resume_during read [o1; o2] [[Deliver h1 m]] d in
     paused_ d' = false
     ∧ buffer_of o1 d' = [m] ∧ forwarded o1 d' = forwarded o1 d
     ∧ buffer_of o2 d' = [] ∧ forwarded o2 d' = forwarded o2 d ++ n :: rest
     ∧ (∃ r, last (stats_ d') = Some r ∧ (1 ≤ notifications r)%Z
             ∧ paused r = false)
     ∧ ∀ m',
         forwarded o1 (deliver h1 m' d') = forwarded o1 d ++ [m']
         ∧ buffer_of o1 (deliver h1 m' d') = [m]
         ∧ forwarded o1 (resume (deliver h1 m' d')) = forwarded o1 d ++ [m'; m]).
Proof.
  split; [split; [intros order; apply resume_during_quiet
                 | intros o; apply buffer_of_resume]|].
  intros Hp Hne Hobj Htracked Hempty Hwaiting d'.
  assert (next_waiting [o1; o2] d = Some (o2, [o2])) as Hnext.
  { unfold buffer_of in Hempty, Hwaiting. simpl.
    by rewrite Hempty, Hwaiting. }
  set (d1 := forward_head o2 d).
  set (d2 := deliver h1 m d1).
  set (d3 := drain_stream o2 d2).
  assert (d' = broadcast_ (with_paused false d3)) as Hd'.
  { unfold d', resume_during, drain_during. by rewrite Hnext. }
  assert (heap_ d1 !! h1 = Some {| captured := o1; closed := false |})
    as Hobj1 by done.
  assert (is_Some (states_ d1 !! o1)) as Htracked1.
  { unfold d1, forward_head. simpl. by rewrite lookup_alter_ne. }
  assert (d2 = on_next o1 m d1) as Hd2
    by (by apply deliver_subscribed).
  assert (buffer_of o1 d3 = [m]) as Hb1.
  { unfold d3. rewrite buffer_of_drain_stream, decide_False by done.
    rewrite Hd2, buffer_of_on_next, decide_True by done.
    unfold d1. rewrite buffer_of_forward_head, decide_False by done.
    by rewrite Hempty. }
  assert (forwarded o1 d3 = forwarded o1 d) as Hf1.
  { unfold d3. rewrite forwarded_drain_stream, decide_False by done.
    rewrite Hd2, forwarded_on_next.
    rewrite decide_False
      by (intros (_ & Hq & _); simpl in Hq; congruence).
    unfold d1. by rewrite forwarded_forward_head, decide_False. }
  assert (buffer_of o2 d3 = []) as Hb2
    by (unfold d3; by rewrite buffer_of_drain_stream, decide_True).
  assert (forwarded o2 d3 = forwarded o2 d ++ n :: rest) as Hf2.
  { unfold d3. rewrite forwarded_drain_stream, decide_True by done.
    rewrite Hd2, forwarded_on_next, buffer_of_on_next.
    rewrite !decide_False by (intros (? & _); done).
    unfold d1. rewrite forwarded_forward_head, buffer_of_forward_head.
    rewrite !decide_True by done. rewrite Hwaiting. simpl.
    by rewrite <- app_assoc. }
  assert (heap_ d' !! h1 = Some {| captured := o1; closed := false |})
    as Hobj'.
  { rewrite Hd'. unfold d3. simpl. rewrite Hd2. done. }
  assert (is_Some (states_ d3 !! o1)) as Htracked3.
  { unfold d3, drain_stream. simpl.
    rewrite lookup_alter_ne by done. rewrite Hd2. by apply on_next_tracked. }
  assert (is_Some (states_ d' !! o1)) as Htracked' by (by rewrite Hd').
  rewrite Hd' in *. clear Hd'.
  split; [done|]. split; [done|]. split; [done|]. split; [done|].
  split; [done|]. split.
  - eexists. split; [apply last_snoc|]. split; [|done].
    change (1 ≤ buffered (states_ d3))%Z.
    destruct Htracked3 as [state Hstate].
    assert (notifications_ state = [m]) as Hm
      by (unfold buffer_of in Hb1; by rewrite Hstate in Hb1).
    rewrite <- (insert_id (states_ d3) o1 state Hstate).
    rewrite <- insert_delete_eq.
    rewrite buffered_insert by apply lookup_delete_eq.
    rewrite Hm. pose proof (buffered_nonneg (delete o1 (states_ d3))).
    change (length [m]) with 1. lia.
  - intros m'.
    rewrite (deliver_subscribed h1 o1 m' _ Hobj').
    rewrite forwarded_resume, forwarded_on_next, buffer_of_on_next.
    rewrite decide_True by done.
    rewrite decide_False by (intros (_ & ? & _); done).
    assert (forwarded o1 (broadcast_ (with_paused false d3)) = forwarded o1 d)
      as -> by done.
    assert (buffer_of o1 (broadcast_ (with_paused false d3)) = [m])
      as -> by done.
    split; [done|]. split; [done|]. by rewrite <- app_assoc.
Qed.

Lemma iter_step k d o :
  buffer_of o (Nat.iter k step d) = drop k (buffer_of o d)
  ∧ forwarded o (Nat.iter k step d) = forwarded o d ++ take k (buffer_of o d)
  ∧ paused_ (Nat.iter k step d) = paused_ d.
Proof.
  induction k as [|k (IHb & IHf & IHp)]; simpl.
  - by rewrite app_nil_r.
  - rewrite buffer_of_step, forwarded_step, IHb, IHf. split; [|split; [|done]].
    + clear. revert k. induction (buffer_of o d) as [|n l IH]; intros k.
      * by rewrite !drop_nil.
      * destruct k as [|k]; [by rewrite drop_0|]. simpl. apply IH.
    + rewrite <- app_assoc. f_equal.
      clear. revert k. induction (buffer_of o d) as [|n l IH]; intros k.
      * by rewrite drop_nil, !take_nil.
      * destruct k as [|k]; [by rewrite drop_0|]. simpl. f_equal. apply IH.
Qed.

Lemma iter_skip k d o :
  buffer_of o (Nat.iter k skip d) = drop k (buffer_of o d)
  ∧ forwarded o (Nat.iter k skip d) = forwarded o d
  ∧ paused_ (Nat.iter k skip d) = paused_ d.
Proof.
  induction k as [|k (IHb & IHf & IHp)]; simpl; [done|].
  rewrite buffer_of_skip, forwarded_skip, IHb, IHf. split; [|done].
  clear. revert k. induction (buffer_of o d) as [|n l IH]; intros k.
  - by rewrite !drop_nil.
  - destruct k as [|k]; [by rewrite drop_0|]. simpl. apply IH.
Qed.

(** X4.  Stepping and skipping walk the buffer from its oldest end: [k]
    calls of [step()] forward the first [k] buffered notifications of every
    stream in their order and keep the rest; [k] calls of [skip()] drop the
    first [k] and forward nothing; neither changes the paused flag, and on a
    stream with fewer than [k] buffered notifications the calls in excess do
    nothing.  Stepping until the buffer of a stream is empty forwards on it
    what [resume()] forwards. *)
Theorem Deck_step_skip_many k d o :
  (buffer_of o (Nat.iter k step d) = drop k (buffer_of o d)
   ∧ forwarded o (Nat.iter k step d) = forwarded o d ++ take k (buffer_of o d)
   ∧ paused_ (Nat.iter k step d) = paused_ d)
  ∧ (buffer_of o (Nat.iter k skip d) = drop k (buffer_of o d)
     ∧ forwarded o (Nat.iter k skip d) = forwarded o d
     ∧ paused_ (Nat.iter k skip d) = paused_ d)
  ∧ (length (buffer_of o d) ≤ k →
       forwarded o (Nat.iter k step d) = forwarded o (resume d)
       ∧ buffer_of o (Nat.iter k step d) = buffer_of o (resume d)).
Proof.
  split; [apply iter_step|]. split; [apply iter_skip|].
  intros Hall. destruct (iter_step k d o) as (-> & -> & _).
  by rewrite forwarded_resume, buffer_of_resume, take_ge, drop_ge.
Qed.

(** X5.  What [clear] keeps: no notification left in a buffer matches the
    predicate; clearing twice with the same predicate is clearing once; and
    clearing with one predicate and then another is clearing with their
    disjunction.  No buffer gets longer. *)
Theorem Deck_clear_laws d o (p q : Notification → bool) predicate :
  Forall (λ n, default (λ _, true) predicate n = false)
    (buffer_of o (clear predicate d))
  ∧ buffer_of o (clear predicate (clear predicate d))
    = buffer_of o (clear predicate d)
  ∧ buffer_of o (clear (Some q) (clear (Some p) d))
    = buffer_of o (clear (Some (λ n, p n || q n)) d)
  ∧ length (buffer_of o (clear predicate d)) ≤ length (buffer_of o d).
Proof.
  rewrite !buffer_of_clear. simpl.
  induction (buffer_of o d) as [|n l (IHall & IHtwice & IHboth & IHlen)];
    [by repeat split|].
  simpl. split; [|split; [|split]].
  - destruct (default (λ _, true) predicate n) eqn:Hn; simpl; [done|].
    by constructor.
  - destruct (default (λ _, true) predicate n) eqn:Hn; simpl; [done|].
    rewrite Hn. simpl. by f_equal.
  - destruct (p n) eqn:Hp; simpl; [done|].
    destruct (q n); simpl; [done | by f_equal].
  - destruct (default (λ _, true) predicate n); simpl; lia.
Qed.

(** *** What the calls do to the streams a deck tracks *)

Lemma getOperator_states o d d' o' :
  getOperator read o d = Returned d' → o' ≠ o →
  states_ d' !! o' = states_ d !! o'.
Proof.
  unfold getOperator. intros Hget Hne.
  destruct (states_ d !! o) as [state|].
  - destruct (subscription_ state); [|done]. injection Hget as <-.
    unfold subscribe_stage. simpl. by rewrite lookup_alter_ne.
  - injection Hget as <-. unfold subscribe_stage. simpl.
    by rewrite lookup_alter_ne, lookup_insert_ne.
Qed.

Lemma getOperator_tracks o d d' :
  getOperator read o d = Returned d' →
  is_Some (states_ d' !! o)
  ∧ tag_ <$> states_ d' !! o
    = Some (from_option tag_ (read o) (states_ d !! o)).
Proof.
  unfold getOperator.
  destruct (states_ d !! o) as [state|] eqn:Hstate.
  - destruct (subscription_ state); [|done]. intros [= <-].
    unfold subscribe_stage. simpl. rewrite lookup_alter_eq, Hstate. simpl.
    split; [by eexists | done].
  - intros [= <-]. unfold subscribe_stage. simpl.
    rewrite lookup_alter_eq, lookup_insert_eq. simpl.
    split; [by eexists | done].
Qed.

(** A call keeps the state of a stream the deck tracks, with its tag, and
    only appends to what the stream has forwarded. *)
Lemma perform_keeps_stream c d o :
  is_Some (states_ d !! o) →
  is_Some (states_ (perform read c d) !! o)
  ∧ tag_ <$> states_ (perform read c d) !! o = tag_ <$> states_ d !! o
  ∧ forwarded o d `prefix_of` forwarded o (perform read c d).
Proof.
  intros Htracked. pose proof Htracked as [state Hstate].
  assert (∀ f : State → State,
            (∀ st, tag_ (f st) = tag_ st) →
            is_Some ((f <$> states_ d) !! o)
            ∧ tag_ <$> (f <$> states_ d) !! o = tag_ <$> states_ d !! o)
    as Hfmap.
  { intros f Hf. rewrite lookup_fmap, Hstate. simpl.
    split; [by eexists | by rewrite Hf]. }
  destruct c as [predicate|o'| | | | | |h n]; simpl.
  - destruct (Hfmap (λ st, with_notifications
        (List.filter (λ n, negb (default (λ _, true) predicate n))
           (notifications_ st)) st)) as [? ?]; [done|].
    split; [done|]. split; [done|]. by rewrite forwarded_clear.
  - destruct (getOperator read o' d) as [d'|] eqn:Hget; [|done].
    destruct (getOperator_observations o' d d' Hget) as [_ Hsame].
    destruct (Hsame o) as [_ ->].
    destruct (decide (o = o')) as [->|Hne].
    + destruct (getOperator_tracks o' d d' Hget) as [? Htag].
      split; [done|]. split; [|done]. by rewrite Htag, Hstate.
    + by rewrite (getOperator_states o' d d' o Hget Hne).
  - done.
  - destruct (Hfmap (λ st, with_notifications []
        (with_subject (drain (notifications_ st) (subject_ st)) st)))
      as [? ?]; [done|].
    split; [done|]. split; [done|].
    rewrite forwarded_resume. by apply prefix_app_r.
  - destruct (Hfmap (λ st, match notifications_ st with
                           | [] => st
                           | _ :: rest => with_notifications rest st
                           end)) as [? ?];
      [intros st; by destruct (notifications_ st)|].
    split; [done|]. split; [done|]. by rewrite forwarded_skip.
  - destruct (Hfmap (λ st, match notifications_ st with
                           | [] => st
                           | notification :: rest =>
                               with_notifications rest
                                 (with_subject
                                    (Subject_next notification (subject_ st)) st)
                           end)) as [? ?];
      [intros st; by destruct (notifications_ st)|].
    split; [done|]. split; [done|].
    rewrite forwarded_step. by apply prefix_app_r.
  - destruct (Hfmap (with_subscription None)) as [? ?]; [done|].
    split; [done|]. split; [done|]. by rewrite forwarded_unsubscribe.
  - unfold deliver. destruct (heap_ d !! h) as [s|]; [|done].
    destruct (closed s); [done|].
    split; [by apply on_next_tracked|]. split.
    + unfold on_next. simpl. rewrite lookup_alter.
      case_decide as Heq; [rewrite Heq|done].
      rewrite Hstate. simpl. by destruct (paused_ d).
    + rewrite forwarded_on_next. case_decide; [|done]. by apply prefix_app_r.
Qed.

(** X6.  A deck never forgets a stream and never takes back what it has
    forwarded: through any run of calls, a stream the deck tracks stays
    tracked with the tag it was given, and what it had forwarded is a prefix
    of what it has forwarded afterwards. *)
Theorem Deck_streams_persist calls d o :
  is_Some (states_ d !! o) →
  is_Some (states_ (run read calls d) !! o)
  ∧ tag_ <$> states_ (run read calls d) !! o = tag_ <$> states_ d !! o
  ∧ forwarded o d `prefix_of` forwarded o (run read calls d).
Proof.
  revert d. induction calls as [|c calls IH]; intros d Htracked; [done|].
  rewrite run_cons.
  destruct (perform_keeps_stream c d o Htracked) as (Hkept & Htag & Hprefix).
  destruct (IH _ Hkept) as (? & Htag' & Hprefix').
  split; [done|]. split; [congruence|]. by etrans.
Qed.

(** X14.  What [getOperator] does for a stream on its first and on a
    later subscription: it throws exactly when the deck tracks the stream and
    the stream's state holds no subscription, and then changes nothing; for a
    stream the deck does not track it adds one state, with empty buffer,
    nothing forwarded, the tag of the stream and a new subscribed stage, and
    leaves the states of the other streams alone; whenever it returns it has
    made exactly one new subscription. *)
Theorem Deck_getOperator_outcomes o d :
  (getOperator read o d = TypeError
   ↔ is_Some (states_ d !! o) ∧ held_by o d = None)
  ∧ (getOperator read o d = TypeError → perform read (GetOperator o) d = d)
  ∧ (states_ d !! o = None →
       ∃ d', getOperator read o d = Returned d'
         ∧ states_ d' !! o
           = Some {| notifications_ := []; subject_ := [];
                     subscription_ := Some (length (heap_ d));
                     tag_ := read o |}
         ∧ size (states_ d') = S (size (states_ d))
         ∧ still_subscribed (length (heap_ d)) d')
  ∧ (∀ d', getOperator read o d = Returned d' →
       heap_ d' !! length (heap_ d) = Some {| captured := o; closed := false |}
       ∧ length (heap_ d') = S (length (heap_ d))
       ∧ ∀ o', o' ≠ o → states_ d' !! o' = states_ d !! o').
Proof.
  split; [|split; [|split]].
  - unfold getOperator, held_by.
    destruct (states_ d !! o) as [state|]; simpl.
    + destruct (subscription_ state).
      * split; [done | by intros [_ ?]].
      * split; [|done]. intros _. split; [by eexists | done].
    + split; [done|]. by intros [[? ?] _].
  - simpl. by intros ->.
  - intros Hfresh. unfold getOperator. rewrite Hfresh. eexists.
    split; [done|]. unfold subscribe_stage, still_subscribed. simpl.
    rewrite lookup_alter_eq, lookup_insert_eq. split; [done|]. split.
    + assert (∀ (f : State → State) (m : gmap Observable State),
                size (alter f o m) = size m) as ->
        by (intros; by rewrite <- size_dom, dom_alter_L, size_dom).
      by apply map_size_insert_None.
    + by rewrite lookup_app_r, Nat.sub_diag.
  - intros d' Hget. split; [|split].
    + unfold getOperator in Hget.
      destruct (states_ d !! o) as [state|].
      * destruct (subscription_ state); [|done]. injection Hget as <-.
        unfold subscribe_stage, Subscription_unsubscribe. simpl.
        rewrite lookup_app_r by (by rewrite length_alter).
        by rewrite length_alter, Nat.sub_diag.
      * injection Hget as <-. unfold subscribe_stage. simpl.
        by rewrite lookup_app_r, Nat.sub_diag.
    + unfold getOperator in Hget.
      destruct (states_ d !! o) as [state|].
      * destruct (subscription_ state); [|done]. injection Hget as <-.
        unfold subscribe_stage, Subscription_unsubscribe. simpl.
        rewrite length_app, length_alter. simpl. lia.
      * injection Hget as <-. unfold subscribe_stage. simpl.
        rewrite length_app. simpl. lia.
    + intros o' Hne. by apply (getOperator_states o d d').
Qed.

(** *** After [unsubscribe()] *)

Lemma perform_keeps_unheld c d o :
  is_Some (states_ d !! o) → held_by o d = None →
  held_by o (perform read c d) = None.
Proof.
  intros [state Hstate] Hheld.
  assert (subscription_ state = None) as Hsub
    by (unfold held_by in Hheld; by rewrite Hstate in Hheld).
  destruct c as [predicate|o'| | | | | |h n]; simpl.
  - unfold held_by. simpl. by rewrite lookup_fmap, Hstate.
  - destruct (getOperator read o' d) as [d'|] eqn:Hget; [|done].
    destruct (decide (o = o')) as [<-|Hne].
    + unfold getOperator in Hget. by rewrite Hstate, Hsub in Hget.
    + unfold held_by. by rewrite (getOperator_states o' d d' o Hget Hne).
  - done.
  - unfold held_by. simpl. by rewrite lookup_fmap, Hstate.
  - unfold held_by. simpl. rewrite lookup_fmap, Hstate. simpl.
    by destruct (notifications_ state).
  - unfold held_by. simpl. rewrite lookup_fmap, Hstate. simpl.
    by destruct (notifications_ state).
  - apply held_by_unsubscribe.
  - unfold deliver. destruct (heap_ d !! h) as [s|]; [|done].
    destruct (closed s); [done|].
    unfold on_next. rewrite <- Hheld.
    apply (held_by_alter _ d o (captured s)). intros st. by destruct (paused_ d).
Qed.

Lemma arrival_unheld c d o :
  heap_ok d → held_by o d = None → arrival o c d = [].
Proof.
  intros (_ & Hback) Hheld.
  destruct c as [predicate|o'| | | | | |h n]; simpl; try done.
  destruct (heap_ d !! h) as [s|] eqn:Hobj; [|done].
  destruct (closed s) eqn:Hopen; [done|].
  case_decide as Heq; [|done].
  specialize (Hback h s Hobj Hopen). rewrite Heq in Hback. congruence.
Qed.

(** X7.  [unsubscribe()] is final for the streams the deck tracks: whatever
    is called afterwards, [getOperator] for such a stream throws, its state
    holds no subscription, and no notification is delivered to it any
    more. *)
Theorem Deck_unsubscribe_is_final calls d o :
  reachable read d →
  is_Some (states_ d !! o) →
  let d' := run read calls (unsubscribe d) in
  getOperator read o d' = TypeError
  ∧ held_by o d' = None
  ∧ arrivals read o calls (unsubscribe d) = [].
Proof.
  intros Hreach Htracked.
  assert (heap_ok (unsubscribe d)) as Hinv
    by (by apply unsubscribe_heap_ok, (reachable_ok read)).
  assert (is_Some (states_ (unsubscribe d) !! o)) as Htracked'.
  { unfold unsubscribe. simpl. by rewrite lookup_fmap, fmap_is_Some. }
  pose proof (held_by_unsubscribe d o) as Hheld.
  clear Hreach Htracked. revert Hinv Htracked' Hheld.
  generalize (unsubscribe d). clear d.
  induction calls as [|c calls IH]; intros d Hinv [state Hstate] Hheld d'.
  - subst d'. simpl. split; [|done].
    unfold getOperator, held_by in *. rewrite Hstate in *. simpl in Hheld.
    by rewrite Hheld.
  - subst d'. rewrite run_cons. simpl.
    rewrite (arrival_unheld c d o Hinv Hheld). simpl.
    apply IH.
    + by apply perform_heap_ok.
    + apply perform_keeps_stream. by eexists.
    + apply perform_keeps_unheld; [by eexists | done].
Qed.

Lemma perform_torn_down c d h :
  torn_down h d → torn_down h (perform read c d).
Proof.
  unfold torn_down. intros Hdown.
  destruct c as [predicate|o'| | | | | |h' n]; simpl; try done.
  - destruct (getOperator read o' d) as [d'|] eqn:Hget; [|done].
    unfold getOperator in Hget.
    assert (h < length (heap_ d)) as Hlt.
    { destruct (heap_ d !! h) eqn:Hh; [by eapply lookup_lt_Some | done]. }
    destruct (states_ d !! o') as [state|].
    + destruct (subscription_ state) as [h0|]; [|done]. injection Hget as <-.
      unfold subscribe_stage, Subscription_unsubscribe. simpl.
      rewrite lookup_app_l by (by rewrite length_alter).
      rewrite list_lookup_alter. case_decide as Heq; [subst h0|done].
      by destruct (heap_ d !! h).
    + injection Hget as <-. unfold subscribe_stage. simpl.
      by rewrite lookup_app_l.
  - rewrite lookup_unsubscribe_all.
    destruct (heap_ d !! h) as [[captured closed]|]; simpl in *; [|done].
    injection Hdown as ->. done.
  - unfold deliver. destruct (heap_ d !! h') as [s|]; [|done].
    by destruct (closed s).
Qed.

(** X8.  A subscription that has been unsubscribed stays so, and the
    subscriptions a reachable deck had made are all unsubscribed by
    [unsubscribe()]: whatever is called afterwards, a delivery on one of them
    changes nothing. *)
Theorem Deck_unsubscribed_stay_silent calls d h n :
  reachable read d →
  h < length (heap_ d) →
  let d' := run read calls (unsubscribe d) in
  torn_down h d' ∧ deliver h n d' = d'.
Proof.
  intros Hreach Hlt d'.
  assert (torn_down h (unsubscribe d)) as Hdown.
  { pose proof (unsubscribe_heap_ok d (proj2 (reachable_ok read d Hreach)))
      as (_ & Hback).
    unfold torn_down.
    assert (length (heap_ (unsubscribe d)) = length (heap_ d)) as Hlen.
    { unfold unsubscribe. simpl.
      induction (held (states_ d)) as [|h' hs IH]; simpl; [done|].
      unfold Subscription_unsubscribe at 1. by rewrite length_alter. }
    destruct (lookup_lt_is_Some_2 (heap_ (unsubscribe d)) h) as [s Hobj];
      [lia|].
    rewrite Hobj. simpl. destruct (closed s) eqn:Hopen; [done|].
    specialize (Hback h s Hobj Hopen).
    by rewrite held_by_unsubscribe in Hback. }
  assert (torn_down h d') as Hdown'.
  { subst d'. revert Hdown. generalize (unsubscribe d). clear.
    induction calls as [|c calls IH]; intros d Hdown; [done|].
    rewrite run_cons. by apply IH, perform_torn_down. }
  split; [done|]. unfold deliver, torn_down in *.
  destruct (heap_ d' !! h) as [s|]; [|done]. simpl in Hdown'.
  injection Hdown' as ->. done.
Qed.

Lemma forwarded_grows_perform c d o :
  forwarded o d `prefix_of` forwarded o (perform read c d).
Proof.
  destruct (states_ d !! o) as [state|] eqn:Hstate.
  - apply perform_keeps_stream. by eexists.
  - unfold forwarded at 1. rewrite Hstate. apply prefix_nil.
Qed.

Lemma forwarded_grows_run calls d o :
  forwarded o d `prefix_of` forwarded o (run read calls d).
Proof.
  revert d. induction calls as [|c calls IH]; intros d; [done|].
  rewrite run_cons. etrans; [apply (forwarded_grows_perform c)|apply IH].
Qed.

Lemma forwarded_grows_drain_during reactions order d o :
  forwarded o d `prefix_of` forwarded o (drain_during read reactions order d).
Proof.
  revert order d.
  induction reactions as [|reaction reactions IH]; intros order d; simpl.
  - revert d. induction order as [|o' order IH]; intros d; [done|]. simpl.
    etrans; [|apply IH]. rewrite forwarded_drain_stream.
    case_decide; [by apply prefix_app_r | done].
  - destruct (next_waiting order d) as [[o' order']|]; [|done].
    etrans; [|apply IH]. etrans; [|apply forwarded_grows_run].
    rewrite forwarded_forward_head.
    case_decide; [by apply prefix_app_r | done].
Qed.

(** X9.  [PausePlugin.teardown()] hands over what was held back instead
    of dropping it, and leaves no stage subscribed.  Every stream forwards
    what it had buffered when [teardown()] was called, in order, after what it
    had forwarded (if the pipeline calls the deck meanwhile, what those calls
    forward comes in between or behind; what a stream had forwarded stays in
    front); afterwards the deck is resumed, no state holds a subscription,
    none of the subscriptions the deck had made is subscribed, and the record
    published last says "not paused". *)
Theorem PausePlugin_teardown_releases d o order reactions :
  reachable read d →
  (forwarded o (PausePlugin_teardown d) = forwarded o d ++ buffer_of o d
   ∧ paused_ (PausePlugin_teardown d) = false
   ∧ held_by o (PausePlugin_teardown d) = None
   ∧ (∀ h, ¬ still_subscribed h (PausePlugin_teardown d))
   ∧ paused <$> last (stats_ (PausePlugin_teardown d)) = Some false)
  ∧ (let d' := PausePlugin_teardown_during read order reactions d in
     forwarded o d `prefix_of` forwarded o d'
     ∧ paused_ d' = false
     ∧ held_by o d' = None
     ∧ (∀ h, ¬ still_subscribed h d')
     ∧ paused <$> last (stats_ d') = Some false).
Proof.
  intros Hreach.
  assert (∀ d0, heap_ok d0 → ∀ h, ¬ still_subscribed h (unsubscribe d0))
    as Hnone.
  { intros d0 Hheap h Hsub.
    pose proof (unsubscribe_heap_ok d0 Hheap) as (_ & Hback).
    unfold still_subscribed in Hsub.
    destruct (heap_ (unsubscribe d0) !! h) as [s|] eqn:Hobj; [|done].
    simpl in Hsub. injection Hsub as Hopen.
    specialize (Hback h s Hobj Hopen).
    by rewrite held_by_unsubscribe in Hback. }
  assert (∀ d0, paused <$> last (stats_ (unsubscribe d0)) = Some (paused_ d0))
    as Hlast.
  { intros d0. unfold unsubscribe, broadcast_, Subject_next. simpl.
    by rewrite last_snoc. }
  split.
  - unfold PausePlugin_teardown.
    rewrite forwarded_unsubscribe, forwarded_resume, held_by_unsubscribe.
    split; [done|]. split; [done|]. split; [done|]. split; [|apply Hlast].
    apply Hnone. apply (reachable_ok read).
    by apply (reachable_perform read Resume).
  - intros d'. unfold d', PausePlugin_teardown_during.
    rewrite forwarded_unsubscribe, held_by_unsubscribe.
    split; [apply forwarded_grows_drain_during|].
    split; [done|]. split; [done|]. split; [|apply Hlast].
    apply Hnone. apply (reachable_ok read).
    by apply reachable_resume_during.
Qed.

(** *** What the statistics count *)

Lemma waiting_insert (m : gmap Observable State) o state :
  m !! o = None →
  waiting (<[o := state]> m)
  = (waiting m + match notifications_ state with [] => 0 | _ :: _ => 1 end)%Z.
Proof.
  intros Hfresh. unfold waiting.
  rewrite map_fold_insert_L; [done | intros; lia | done].
Qed.

Lemma buffered_alter (f : State → State) (m : gmap Observable State) o state :
  m !! o = Some state →
  buffered (alter f o m)
  = (buffered m - Z.of_nat (length (notifications_ state))
     + Z.of_nat (length (notifications_ (f state))))%Z.
Proof.
  induction m as [|o' state' m Hfresh IH] using map_ind; intros Hstate.
  - by rewrite lookup_empty in Hstate.
  - destruct (decide (o' = o)) as [->|Hne].
    + rewrite lookup_insert_eq in Hstate. injection Hstate as ->.
      rewrite alter_insert_eq, !buffered_insert by done. lia.
    + rewrite lookup_insert_ne in Hstate by done.
      rewrite alter_insert_ne, !buffered_insert
        by (done || by rewrite lookup_alter_ne).
      rewrite IH by done. lia.
Qed.

Lemma buffered_shift (f : State → State) (m : gmap Observable State) :
  (∀ state, notifications_ (f state) = tail (notifications_ state)) →
  buffered (f <$> m) = (buffered m - waiting m)%Z.
Proof.
  intros Hf. induction m as [|o state m Hfresh IH] using map_ind.
  - by rewrite fmap_empty.
  - rewrite fmap_insert, !buffered_insert, waiting_insert, IH, Hf
      by (done || by rewrite lookup_fmap, Hfresh).
    destruct (notifications_ state); simpl; lia.
Qed.

(** X10.  What the record published by a call counts: a notification
    delivered to a subscribed stage of a paused deck raises the count by
    exactly one; [skip()], and [step()] when the pipeline does not call the
    deck meanwhile, lower it by the number of streams that had something
    buffered; [clear()] without a predicate brings it to zero. *)
Theorem Deck_stats_count d o h n :
  (paused_ d = true → is_Some (states_ d !! o) →
   heap_ d !! h = Some {| captured := o; closed := false |} →
   last (stats_ (deliver h n d))
   = Some {| notifications := buffered (states_ d) + 1; paused := true |})
  ∧ last (stats_ (step d))
    = Some {| notifications := buffered (states_ d) - waiting (states_ d);
              paused := paused_ d |}
  ∧ last (stats_ (skip d))
    = Some {| notifications := buffered (states_ d) - waiting (states_ d);
              paused := paused_ d |}
  ∧ last (stats_ (clear None d))
    = Some {| notifications := 0; paused := paused_ d |}.
Proof.
  split; [|split; [|split]].
  - intros Hp [state Hstate] Hobj.
    rewrite (deliver_subscribed h o n d Hobj).
    unfold on_next, broadcast_, Subject_next, current_stats. simpl.
    rewrite last_snoc, Hp, (buffered_alter _ _ o state Hstate). simpl.
    rewrite length_app. simpl. do 2 f_equal. lia.
  - unfold step, broadcast_, Subject_next, current_stats. simpl.
    rewrite last_snoc, buffered_shift; [done|].
    intros state. by destruct (notifications_ state) eqn:Hbuffer.
  - unfold skip, broadcast_, Subject_next, current_stats. simpl.
    rewrite last_snoc, buffered_shift; [done|].
    intros state. by destruct (notifications_ state) eqn:Hbuffer.
  - unfold clear, broadcast_, Subject_next, current_stats. simpl.
    rewrite last_snoc, buffered_all_empty; [done|].
    intros o' state. rewrite lookup_fmap.
    destruct (states_ d !! o') as [state'|]; simpl; [|done]. intros [= <-].
    simpl. by induction (notifications_ state').
Qed.

(** X15.  What a stream emits reaches its state once or not at all: on a
    deck between two calls, when a stream whose state holds a subscription
    emits a notification, exactly one stage gets it, however often the stream
    was subscribed to before, and the notification is appended once, to the
    buffer if the deck is paused and to what the stream has forwarded if not;
    when the state holds no subscription (the stream is not tracked, or
    [unsubscribe()] was called) nothing changes; and what the other streams
    buffer and have forwarded is as before. *)
Theorem Deck_emit_once d o n :
  reachable read d →
  (∀ h, held_by o d = Some h →
     emit o n d = deliver h n d
     ∧ buffer_of o (emit o n d)
       = buffer_of o d ++ (if paused_ d then [n] else [])
     ∧ forwarded o (emit o n d)
       = forwarded o d ++ (if paused_ d then [] else [n]))
  ∧ (held_by o d = None → emit o n d = d)
  ∧ ∀ o', o' ≠ o →
      buffer_of o' (emit o n d) = buffer_of o' d
      ∧ forwarded o' (emit o n d) = forwarded o' d.
Proof.
  intros Hreach. pose proof (reachable_ok read d Hreach) as (_ & Hheap).
  pose proof Hheap as [Hlive _].
  unfold emit. rewrite (live_stages_held o d Hheap).
  destruct (held_by o d) as [h|] eqn:Hheld; simpl.
  - pose proof (Hlive o h Hheld) as Hobj.
    assert (is_Some (states_ d !! o)) as Htracked.
    { unfold held_by in Hheld. by destruct (states_ d !! o). }
    rewrite (deliver_subscribed h o n d Hobj).
    split; [|split; [done|]].
    + intros h' [= <-]. split; [by rewrite (deliver_subscribed h o n d Hobj)|].
      rewrite buffer_of_on_next, forwarded_on_next.
      destruct (paused_ d) eqn:Hp.
      * rewrite decide_True by done.
        rewrite decide_False by (intros (_ & ? & _); done).
        by rewrite app_nil_r.
      * rewrite decide_False by (intros (_ & ? & _); done).
        rewrite decide_True by done. by rewrite app_nil_r.
    + intros o' Hne. rewrite buffer_of_on_next, forwarded_on_next.
      by rewrite !decide_False by (intros (? & _); done).
  - split; [done|]. split; [done|]. done.
Qed.

(** *** The plugin *)

Section plugin_extras.

Variable matches : Observable → Match → bool.
Variable matchToString : Match → string.

Implicit Types (p : PausePlugin.PausePlugin (Match := Match)).

Lemma perform_same_streams c d o :
  is_GetOperator c = false →
  is_Some (states_ (perform read c d) !! o) → is_Some (states_ d !! o).
Proof.
  intros Hc.
  destruct c as [predicate|o'| | | | | |h n]; simpl in *; try done.
  - by rewrite lookup_fmap, fmap_is_Some.
  - by rewrite lookup_fmap, fmap_is_Some.
  - by rewrite lookup_fmap, fmap_is_Some.
  - by rewrite lookup_fmap, fmap_is_Some.
  - by rewrite lookup_fmap, fmap_is_Some.
  - unfold deliver. destruct (heap_ d !! h) as [s|]; [|done].
    destruct (closed s); [done|]. by rewrite on_next_tracked.
Qed.

(** X11.  A plugin intercepts only what matches: when [getOperator] is
    left to the host, whatever the host, the clients of the deck and the
    runtime do, every stream the deck of the plugin tracks matches the match
    the plugin was made with, which the plugin and its deck keep; and for a
    subscription that does not match, [getOperator] answers [undefined]. *)
Theorem PausePlugin_tracks_matches (match' : Match)
    (plugin_calls : list PausePlugin.PluginCall) :
  forallb PausePlugin.through_host plugin_calls = true →
  let p := PausePlugin.plugin_run read matches plugin_calls
             (PausePlugin.new_PausePlugin matchToString match') in
  PausePlugin.match_ p = match'
  ∧ match_ (PausePlugin.deck_ p) = match'
  ∧ (∀ o, is_Some (states_ (PausePlugin.deck_ p) !! o) →
          matches o match' = true)
  ∧ (∀ o, matches o match' = false →
          PausePlugin.getOperator read matches o p = None).
Proof.
  intros Hcalls p.
  assert (PausePlugin.match_ p = match'
          ∧ match_ (PausePlugin.deck_ p) = match'
          ∧ ∀ o, is_Some (states_ (PausePlugin.deck_ p) !! o) →
                 matches o match' = true) as (Hmatch & Hdeck & Honly).
  { subst p. revert Hcalls.
    assert (PausePlugin.match_ (PausePlugin.new_PausePlugin matchToString match')
            = match'
            ∧ match_ (PausePlugin.deck_
                        (PausePlugin.new_PausePlugin matchToString match'))
              = match'
            ∧ ∀ o, is_Some
                     (states_ (PausePlugin.deck_
                        (PausePlugin.new_PausePlugin matchToString match')) !! o) →
                   matches o match' = true) as Hnew.
    { split; [done|]. split; [done|]. intros o [state Hstate].
      simpl in Hstate. by rewrite lookup_empty in Hstate. }
    revert Hnew. generalize (PausePlugin.new_PausePlugin matchToString match').
    induction plugin_calls as [|pc plugin_calls IH]; intros p Hinv Hcalls;
      [done|].
    simpl in Hcalls. apply andb_true_iff in Hcalls as [Hc Hcalls].
    simpl. apply IH; [|done]. clear IH Hcalls.
    destruct Hinv as (Hmatch & Hdeck & Honly).
    destruct pc as [o'| |c]; simpl.
    - unfold PausePlugin.getOperator.
      destruct (matches o' (PausePlugin.match_ p)) eqn:Hmatches; [|done].
      destruct (getOperator read o' (PausePlugin.deck_ p)) as [d'|] eqn:Hget;
        [|done].
      simpl. split; [done|]. split.
      + unfold getOperator in Hget.
        destruct (states_ (PausePlugin.deck_ p) !! o') as [state|].
        * destruct (subscription_ state); [|done]. by injection Hget as <-.
        * by injection Hget as <-.
      + intros o Htracked. destruct (decide (o = o')) as [->|Hne].
        * by rewrite <- Hmatch.
        * apply Honly.
          by rewrite <- (getOperator_states o' _ d' o Hget Hne).
    - split; [done|]. split; [done|]. intros o. simpl.
      unfold PausePlugin_teardown, unsubscribe, resume. simpl.
      rewrite !lookup_fmap, !fmap_is_Some. apply Honly.
    - split; [done|]. split.
      + simpl. destruct c as [predicate|o'| | | | | |h n]; simpl; try done.
        unfold deliver.
        destruct (heap_ (PausePlugin.deck_ p) !! h) as [s|]; [|done].
        by destruct (closed s).
      + intros o Htracked. simpl in *. apply Honly.
        apply (perform_same_streams c); [|done]. by apply negb_true_iff. }
  split; [done|]. split; [done|]. split; [done|].
  intros o Hno. unfold PausePlugin.getOperator. by rewrite Hmatch, Hno.
Qed.

End plugin_extras.

End deck_extras.

(** *** The further properties on the decks above *)

Lemma Deck_history_preserved_witness :
  let calls :=
    [Deliver 0 (NextNotification 1); Step; Deliver 0 (NextNotification 2);
     GetOperator 7; Deliver 0 (NextNotification 3);
     Deliver 1 CompleteNotification] in
  reachable untagged intercepting
  ∧ buffers_ok intercepting
  ∧ forwarded 7 (resume (run untagged calls intercepting))
    = [NextNotification 1; NextNotification 2; CompleteNotification].
Proof.
  intros calls.
  assert (reachable untagged intercepting) as Hreach
    by (apply run_reachable; constructor).
  assert (buffers_ok intercepting) as Hbuffers
    by (intros Hp; discriminate Hp).
  split; [exact Hreach|]. split; [exact Hbuffers|].
  exact (proj2 (Deck_history_preserved untagged 7 calls intercepting
                  Hreach Hbuffers eq_refl)).
Defined.

Lemma Deck_paused_holds_back_witness :
  paused_ buffering = true
  ∧ forwarded 7 (deliver 0 CompleteNotification buffering)
    = forwarded 7 buffering.
Proof.
  split; [reflexivity|].
  exact (proj2 (Deck_paused_holds_back untagged
                  (Deliver 0 CompleteNotification) buffering eq_refl eq_refl) 7).
Defined.

Lemma Deck_resume_leaves_arrivals_witness :
  paused_ relaying = true
  ∧ buffer_of 8 relaying = []
  ∧ buffer_of 7 relaying = [NextNotification 1]
  ∧ buffer_of 8 relayed = [NextNotification 2]
  ∧ forwarded 8 (resume (deliver 0 (NextNotification 3) relayed))
    = [NextNotification 3; NextNotification 2].
Proof.
  destruct (Deck_resume_leaves_arrivals untagged relaying 8 7 0
              (NextNotification 1) [] (NextNotification 2)) as [_ Hlate].
  assert (8 ≠ 7) as Hne by (intros Heq; discriminate Heq).
  destruct (Hlate eq_refl Hne eq_refl (ex_intro _ _ eq_refl) eq_refl eq_refl)
    as (_ & Hstuck & _ & _ & _ & _ & Hnext).
  split; [reflexivity|]. split; [reflexivity|]. split; [reflexivity|].
  split; [exact Hstuck|].
  exact (proj2 (proj2 (Hnext (NextNotification 3)))).
Defined.

Lemma Deck_step_skip_many_witness :
  length (buffer_of 7 buffering) ≤ 5
  ∧ forwarded 7 (Nat.iter 5 step buffering) = forwarded 7 (resume buffering)
  ∧ buffer_of 7 (Nat.iter 1 skip buffering) = [NextNotification 2].
Proof.
  assert (length (buffer_of 7 buffering) ≤ 5) as Hlen by (vm_compute; lia).
  destruct (Deck_step_skip_many 5 buffering 7) as (_ & _ & Hresume).
  destruct (Deck_step_skip_many 1 buffering 7) as (_ & (Hskip & _) & _).
  split; [exact Hlen|]. split; [exact (proj1 (Hresume Hlen)) | exact Hskip].
Defined.

Lemma Deck_streams_persist_witness :
  is_Some (states_ buffering !! 7)
  ∧ is_Some (states_ (run untagged [Resume; Unsubscribe] buffering) !! 7)
  ∧ forwarded 7 buffering
    `prefix_of` forwarded 7 (run untagged [Resume; Unsubscribe] buffering).
Proof.
  assert (is_Some (states_ buffering !! 7)) as Htracked
    by exact (ex_intro _ _ eq_refl).
  destruct (Deck_streams_persist untagged [Resume; Unsubscribe] buffering 7
              Htracked) as (Hkept & _ & Hprefix).
  split; [exact Htracked|]. split; [exact Hkept | exact Hprefix].
Defined.

Lemma Deck_getOperator_outcomes_witness :
  states_ buffering !! 8 = None
  ∧ (∃ d', getOperator untagged 8 buffering = Returned d'
       ∧ size (states_ d') = S (size (states_ buffering))
       ∧ still_subscribed (length (heap_ buffering)) d')
  ∧ perform untagged (GetOperator 7) (unsubscribe buffering)
    = unsubscribe buffering.
Proof.
  destruct (Deck_getOperator_outcomes untagged 8 buffering)
    as (_ & _ & Hfirst & _).
  destruct (Hfirst eq_refl) as (d' & Hget & _ & Hsize & Hlive).
  destruct (Deck_getOperator_outcomes untagged 7 (unsubscribe buffering))
    as (_ & Hthrows & _).
  split; [reflexivity|]. split; [|exact (Hthrows eq_refl)].
  exists d'. split; [exact Hget|]. split; [exact Hsize | exact Hlive].
Defined.

Lemma Deck_unsubscribe_is_final_witness :
  reachable untagged buffering
  ∧ is_Some (states_ buffering !! 7)
  ∧ getOperator untagged 7
      (run untagged [Pause; GetOperator 8; Resume] (unsubscribe buffering))
    = TypeError.
Proof.
  assert (reachable untagged buffering) as Hreach
    by (apply run_reachable; constructor).
  assert (is_Some (states_ buffering !! 7)) as Htracked
    by exact (ex_intro _ _ eq_refl).
  split; [exact Hreach|]. split; [exact Htracked|].
  exact (proj1 (Deck_unsubscribe_is_final untagged
                  [Pause; GetOperator 8; Resume] buffering 7 Hreach Htracked)).
Defined.

Lemma Deck_unsubscribed_stay_silent_witness :
  reachable untagged buffering
  ∧ 0 < length (heap_ buffering)
  ∧ deliver 0 CompleteNotification
      (run untagged [GetOperator 8; Resume] (unsubscribe buffering))
    = run untagged [GetOperator 8; Resume] (unsubscribe buffering).
Proof.
  assert (reachable untagged buffering) as Hreach
    by (apply run_reachable; constructor).
  assert (0 < length (heap_ buffering)) as Hlt by (vm_compute; lia).
  split; [exact Hreach|]. split; [exact Hlt|].
  exact (proj2 (Deck_unsubscribed_stay_silent untagged [GetOperator 8; Resume]
                  buffering 0 CompleteNotification Hreach Hlt)).
Defined.

Lemma Deck_stats_count_witness :
  paused_ buffering = true
  ∧ last (stats_ (deliver 0 CompleteNotification buffering))
    = Some {| notifications := 3; paused := true |}.
Proof.
  split; [reflexivity|].
  exact (proj1 (Deck_stats_count buffering 7 0 CompleteNotification)
           eq_refl (ex_intro _ _ eq_refl) eq_refl).
Defined.

Lemma Deck_emit_once_witness :
  reachable untagged buffering
  ∧ held_by 7 buffering = Some 0
  ∧ buffer_of 7 (emit 7 CompleteNotification buffering)
    = [NextNotification 1; NextNotification 2; CompleteNotification]
  ∧ forwarded 7 (emit 7 CompleteNotification buffering) = [].
Proof.
  assert (reachable untagged buffering) as Hreach
    by (apply run_reachable; constructor).
  destruct (Deck_emit_once untagged buffering 7 CompleteNotification Hreach)
    as (Hheld & _).
  destruct (Hheld 0 eq_refl) as (_ & Hbuffer & Hforwarded).
  split; [exact Hreach|]. split; [reflexivity|].
  split; [exact Hbuffer | exact Hforwarded].
Defined.

Lemma PausePlugin_teardown_releases_witness :
  reachable untagged relaying
  ∧ forwarded 7 (PausePlugin_teardown relaying) = [NextNotification 1]
  ∧ held_by 8
      (PausePlugin_teardown_during untagged [8; 7]
         [[Deliver 0 (NextNotification 2)]] relaying) = None.
Proof.
  assert (reachable untagged relaying) as Hreach
    by (apply run_reachable; constructor).
  split; [exact Hreach|].
  destruct (PausePlugin_teardown_releases untagged relaying 7 [8; 7]
              [[Deliver 0 (NextNotification 2)]] Hreach) as ((Hout & _) & _).
  destruct (PausePlugin_teardown_releases untagged relaying 8 [8; 7]
              [[Deliver 0 (NextNotification 2)]] Hreach)
    as (_ & _ & _ & Hheld & _).
  split; [exact Hout | exact Hheld].
Defined.

Lemma PausePlugin_tracks_matches_witness :
  let calls :=
    [PausePlugin.HostGetOperator 7; PausePlugin.HostGetOperator 8;
     PausePlugin.OnDeck (Deliver 0 (NextNotification 1));
     PausePlugin.HostTeardown] in
  let p :=
    PausePlugin.plugin_run untagged Nat.eqb calls
      (PausePlugin.new_PausePlugin (λ _, "7") 7) in
  forallb PausePlugin.through_host calls = true
  ∧ PausePlugin.match_ p = 7
  ∧ (∀ o, is_Some (states_ (PausePlugin.deck_ p) !! o) → Nat.eqb o 7 = true)
  ∧ PausePlugin.getOperator untagged Nat.eqb 8 p = None.
Proof.
  intros calls p.
  destruct (PausePlugin_tracks_matches untagged Nat.eqb (λ _, "7") 7 calls
              eq_refl) as (Hmatch & _ & Honly & Hno).
  split; [reflexivity|]. split; [exact Hmatch|].
  split; [exact Honly | exact (Hno 8 eq_refl)].
Defined.

(** ** The helpers of the graph tests *)

Section graph_extras.

Implicit Types (t : Tracker) (s r : Subscription) (node : GraphNode).

Lemma link_first t x y node :
  get x t = Some node →
  tc (link t) x y →
  ∃ d, destination node = Some d ∧ (d = y ∨ tc (link t) d y).
Proof.
  intros Hget Hpath. unfold link in Hpath.
  destruct Hpath as [x y Hlink|x d y Hlink Hrest];
    rewrite Hget in Hlink; simpl in Hlink; eauto.
Qed.

Lemma link_from t x y : tc (link t) x y → is_Some (get x t).
Proof.
  intros Hpath. unfold link in Hpath.
  destruct Hpath as [x y Hlink|x d y Hlink Hrest];
    destruct (get x t); by eauto.
Qed.

Lemma hasDestination_links t (rank : Subscription → nat) target :
  (∀ s node d, nodes t !! s = Some node → destination node = Some d →
     is_Some (nodes t !! d) ∧ rank d < rank s) →
  ∀ fuel n node,
    get n t = Some node → rank n < fuel →
    (hasDestination fuel t node target = Answer true ↔ tc (link t) n target)
    ∧ hasDestination fuel t node target ≠ OutOfFuel.
Proof.
  intros Hedge fuel. induction fuel as [|fuel IH]; intros n node Hget Hrank;
    [lia|].
  simpl. destruct (destination node) as [d|] eqn:Hdest.
  - assert (link t n d) as Hlink by (unfold link; by rewrite Hget).
    case_decide as Hd.
    + subst d. split; [|done]. split; [intros _; by apply tc_once | done].
    + apply get_Some in Hget as Hnode. destruct Hnode as [Hnode _].
      destruct (Hedge n node d Hnode Hdest) as [_ Hlt].
      destruct (get d t) as [next|] eqn:Hnext.
      * destruct (IH d next Hnext) as [Hiff Hfuel]; [lia|].
        split; [|done]. rewrite Hiff. split; [by apply tc_l|].
        intros Hpath.
        destruct (link_first t n target node Hget Hpath) as (d' & Hd' & Hrest).
        rewrite Hdest in Hd'. injection Hd' as <-.
        by destruct Hrest.
      * split; [|done]. split; [done|]. intros Hpath.
        destruct (link_first t n target node Hget Hpath) as (d' & Hd' & Hrest).
        rewrite Hdest in Hd'. injection Hd' as <-.
        destruct Hrest as [?|Hrest]; [done|].
        apply link_from in Hrest. rewrite Hnext in Hrest. by destruct Hrest.
  - split; [|done]. split; [done|]. intros Hpath.
    destruct (link_first t n target node Hget Hpath) as (d' & Hd' & _).
    congruence.
Qed.

(** X12.  The helper [hasDestination] of the tests decides reachability
    along destination links: on a tracker built by events, started at a node
    that [get] finds and given the size of the table as fuel, it never runs
    out of fuel, and it answers [true] exactly when the subscription asked
    for is reached from the node by one or more destination links; in
    particular it answers [true] for the node's root destination. *)
Theorem hasDestination_decides_links t n node target :
  tracked t →
  get n t = Some node →
  let result := hasDestination (size (nodes t)) t node target in
  (result = Answer true ↔ tc (link t) n target)
  ∧ result ≠ OutOfFuel
  ∧ (rootDestination t node = Some target → result = Answer true).
Proof.
  intros Htracked Hget result.
  pose proof (tracked_inv t Htracked) as [(rank & Hbound & Hedge) _].
  apply get_Some in Hget as Hnode. destruct Hnode as [Hnode _].
  assert (rank n < size (nodes t)) as Hrank by (apply Hbound; by eexists).
  destruct (hasDestination_links t rank target Hedge _ n node Hget Hrank)
    as [Hiff Hfuel].
  split; [done|]. split; [done|].
  intros Hroot. apply Hiff. unfold rootDestination in Hroot.
  destruct (destination node) as [next|] eqn:Hdest; [|done].
  injection Hroot as <-.
  destruct (Hedge n node next Hnode Hdest) as [_ Hlt].
  destruct (furthest_reaches t rank Hedge (size (nodes t)) next)
    as [Hpath _]; [intros _; lia|].
  eapply tc_rtc_r; [|exact Hpath].
  apply tc_once. unfold link. by rewrite Hget.
Qed.

(** *** The source and merge lists *)

(** What a table keeps of [sourced] when its nodes keep their destination
    and their flushed flag and lose nothing from their lists. *)
Lemma sourced_grown (m m' : gmap Subscription GraphNode) :
  (∀ z nz', m' !! z = Some nz' →
     ∃ nz, m !! z = Some nz ∧ destination nz' = destination nz
           ∧ flushed nz' = flushed nz) →
  (∀ z nz, m !! z = Some nz →
     ∃ nz', m' !! z = Some nz' ∧ destination nz' = destination nz
            ∧ flushed nz' = flushed nz
            ∧ (∀ x, x ∈ sources nz → x ∈ sources nz')
            ∧ (∀ x, x ∈ merges nz → x ∈ merges nz')) →
  (∀ p np' x, m' !! p = Some np' → x ∈ sources np' ∨ x ∈ merges np' →
     ∃ np, m !! p = Some np ∧ (x ∈ sources np ∨ x ∈ merges np)) →
  sourced m → sourced m'.
Proof.
  intros Hback Hforth Hlists [Hdown Hup]. split.
  - intros p np' x Hp Hx.
    destruct (Hlists p np' x Hp Hx) as (np & Hnp & Hx').
    destruct (Hdown p np x Hnp Hx') as (nx & Hnx & Hlive & Hdest).
    destruct (Hforth x nx Hnx) as (nx' & Hnx' & Hd' & Hf' & _).
    exists nx'. split; [done|]. split; congruence.
  - intros x nx' d Hx Hlive Hdest.
    destruct (Hback x nx' Hx) as (nx & Hnx & Hd & Hf).
    destruct (Hup x nx d Hnx) as (nd & Hnd & Hin); [congruence..|].
    destruct (Hforth d nd Hnd) as (nd' & Hnd' & _ & _ & Hsrc & Hmrg).
    exists nd'. split; [done|]. destruct Hin; [left|right]; eauto.
Qed.

Lemma flush_sourced y t : sourced (nodes t) → sourced (nodes (flush y t)).
Proof.
  intros [Hdown Hup]. unfold flush.
  destruct (nodes t !! y) as [ynode|] eqn:Hy; [|done]. simpl.
  assert (∀ z nz', alter mark_flushed y (unlink y <$> nodes t) !! z = Some nz' →
            ∃ nz, nodes t !! z = Some nz
                  ∧ destination nz' = destination nz
                  ∧ sources nz' = sources (unlink y nz)
                  ∧ merges nz' = merges (unlink y nz)
                  ∧ flushed nz' = (if decide (y = z) then true else flushed nz))
    as Hlook.
  { intros z nz'. rewrite lookup_alter, !lookup_fmap.
    case_decide as Hyz.
    - subst z. rewrite Hy. simpl. intros [= <-]. eauto 10.
    - destruct (nodes t !! z) as [nz|]; simpl; [|done]. intros [= <-].
      eauto 10. }
  assert (∀ z nz, nodes t !! z = Some nz →
            ∃ nz', alter mark_flushed y (unlink y <$> nodes t) !! z = Some nz'
                   ∧ destination nz' = destination nz
                   ∧ sources nz' = sources (unlink y nz)
                   ∧ merges nz' = merges (unlink y nz)
                   ∧ flushed nz' = (if decide (y = z) then true else flushed nz))
    as Hlook'.
  { intros z nz Hz. rewrite lookup_alter, !lookup_fmap.
    case_decide as Hyz.
    - subst z. rewrite Hy in *. simplify_eq. simpl. eauto 10.
    - rewrite Hz. simpl. eauto 10. }
  split.
  - intros p np' x Hp Hx.
    destruct (Hlook p np' Hp) as (np & Hnp & _ & Hsrc & Hmrg & _).
    rewrite Hsrc, Hmrg in Hx. simpl in Hx.
    rewrite !elem_of_unlink in Hx.
    assert (x ≠ y ∧ (x ∈ sources np ∨ x ∈ merges np)) as [Hxy Hx']
      by (destruct Hx as [[? ?]|[? ?]]; auto).
    destruct (Hdown p np x Hnp Hx') as (nx & Hnx & Hlive & Hdest).
    destruct (Hlook' x nx Hnx) as (nx' & Hnx' & Hd' & _ & _ & Hf').
    exists nx'. split; [done|]. rewrite decide_False in Hf' by done.
    split; congruence.
  - intros x nx' d Hx Hlive Hdest.
    destruct (Hlook x nx' Hx) as (nx & Hnx & Hd & _ & _ & Hf).
    case_decide as Hyx; [congruence|].
    destruct (Hup x nx d Hnx) as (nd & Hnd & Hin); [congruence..|].
    destruct (Hlook' d nd Hnd) as (nd' & Hnd' & _ & Hsrc & Hmrg & _).
    exists nd'. split; [done|]. rewrite Hsrc, Hmrg. simpl.
    rewrite !elem_of_unlink.
    destruct Hin; [left|right]; (split; [congruence | done]).
Qed.

Lemma fire_sourced due t : sourced (nodes t) → sourced (nodes (fire due t)).
Proof.
  revert t. induction due as [|timer due IH]; intros t Hsourced; [done|].
  simpl. by apply IH, flush_sourced.
Qed.

(** A subscription registered below a node, as a source or as a merge. *)
Lemma sourced_below (m : gmap Subscription GraphNode) s d parent
    (f : GraphNode → GraphNode) :
  m !! s = None → m !! d = Some parent → flushed parent = false →
  (∀ node, destination (f node) = destination node
           ∧ flushed (f node) = flushed node) →
  (∀ node x, x ∈ sources (f node) ∨ x ∈ merges (f node)
             ↔ x = s ∨ x ∈ sources node ∨ x ∈ merges node) →
  (∀ node x, (x ∈ sources node → x ∈ sources (f node))
             ∧ (x ∈ merges node → x ∈ merges (f node))) →
  sourced m → sourced (<[s := node_below d parent]> (alter f d m)).
Proof.
  intros Hfresh Hd Hlive Hf Hlists Hkeeps [Hdown Hup].
  assert (s ≠ d) as Hsd by congruence.
  assert (∀ z nz, z ≠ s → m !! z = Some nz →
            ∃ nz', <[s := node_below d parent]> (alter f d m) !! z = Some nz'
                   ∧ destination nz' = destination nz
                   ∧ flushed nz' = flushed nz
                   ∧ (∀ x, x ∈ sources nz → x ∈ sources nz')
                   ∧ (∀ x, x ∈ merges nz → x ∈ merges nz')) as Hold.
  { intros z nz Hzs Hz. rewrite lookup_insert_ne, lookup_alter by done.
    case_decide as Hdz.
    - subst z. rewrite Hz. simpl. eexists. split; [done|].
      destruct (Hf nz) as [-> ->]. split; [done|]. split; [done|].
      split; intros x; by apply Hkeeps.
    - exists nz. by repeat split. }
  split.
  - intros p np' x Hp Hx.
    destruct (decide (p = s)) as [->|Hps].
    { rewrite lookup_insert_eq in Hp. injection Hp as <-. simpl in Hx.
      destruct Hx as [Hx|Hx]; by apply elem_of_nil in Hx. }
    rewrite lookup_insert_ne, lookup_alter in Hp by done.
    assert (x = s ∧ p = d
            ∨ ∃ np, m !! p = Some np ∧ (x ∈ sources np ∨ x ∈ merges np))
      as [[-> ->]|Hx'].
    { case_decide as Hdp.
      - subst p. rewrite Hd in Hp. injection Hp as <-.
        apply Hlists in Hx as [->|Hx]; [by left | eauto]. 
      - eauto. }
    + rewrite lookup_insert_eq. by eexists.
    + destruct Hx' as (np & Hnp & Hx').
      destruct (Hdown p np x Hnp Hx') as (nx & Hnx & Hlive' & Hdest).
      assert (x ≠ s) as Hxs by congruence.
      destruct (Hold x nx Hxs Hnx) as (nx' & ? & ? & ? & _).
      exists nx'. split; [done|]. split; congruence.
  - intros x nx' d0 Hx Hlive' Hdest.
    destruct (decide (x = s)) as [->|Hxs].
    { rewrite lookup_insert_eq in Hx. injection Hx as <-. simpl in Hdest.
      injection Hdest as <-.
      rewrite lookup_insert_ne, lookup_alter_eq, Hd by done. simpl.
      eexists. split; [done|]. apply Hlists. by left. }
    rewrite lookup_insert_ne, lookup_alter in Hx by done.
    assert (∃ nx, m !! x = Some nx ∧ flushed nx = false
                  ∧ destination nx = Some d0) as (nx & Hnx & Hlive0 & Hdest0).
    { case_decide as Hdx.
      - subst x. rewrite Hd in Hx. injection Hx as <-.
        destruct (Hf parent) as [Hfd Hff]. exists parent.
        split; [done|]. split; congruence.
      - eauto. }
    destruct (Hup x nx d0 Hnx Hlive0 Hdest0) as (nd & Hnd & Hin).
    assert (d0 ≠ s) as Hds by congruence.
    destruct (Hold d0 nd Hds Hnd) as (nd' & ? & _ & _ & Hsrc & Hmrg).
    exists nd'. split; [done|]. destruct Hin; [left|right]; eauto.
Qed.

Lemma sourced_root (m : gmap Subscription GraphNode) s k :
  m !! s = None → sourced m → sourced (<[s := root_under k]> m).
Proof.
  intros Hfresh [Hdown Hup]. split.
  - intros p np x Hp Hx.
    destruct (decide (p = s)) as [->|Hps].
    { rewrite lookup_insert_eq in Hp. injection Hp as <-. simpl in Hx.
      destruct Hx as [Hx|Hx]; by apply elem_of_nil in Hx. }
    rewrite lookup_insert_ne in Hp by done.
    destruct (Hdown p np x Hp Hx) as (nx & Hnx & ? & ?).
    exists nx. split; [|done]. rewrite lookup_insert_ne; [done|]. congruence.
  - intros x nx d Hx Hlive Hdest.
    destruct (decide (x = s)) as [->|Hxs].
    { rewrite lookup_insert_eq in Hx. by injection Hx as <-. }
    rewrite lookup_insert_ne in Hx by done.
    destruct (Hup x nx d Hx Hlive Hdest) as (nd & Hnd & ?).
    exists nd. split; [|done]. rewrite lookup_insert_ne; [done|]. congruence.
Qed.

Lemma onSubscribe_sourced s dest under t :
  sourced (nodes t) → sourced (nodes (onSubscribe s dest under t)).
Proof.
  intros Hsourced. unfold onSubscribe.
  destruct (nodes t !! s) as [|] eqn:Hfresh; [done|].
  destruct (dest ≫= _) as [[d parent]|] eqn:Hparent; simpl.
  - destruct dest as [d'|]; [|done]. simpl in Hparent.
    destruct (get d' t) as [parent'|] eqn:Hget; [|done].
    simpl in Hparent. injection Hparent as -> ->.
    apply get_Some in Hget as [Hd Hlive].
    apply sourced_below; try done.
    + intros node x. simpl. rewrite elem_of_app, list_elem_of_singleton. tauto.
    + intros node x. simpl. rewrite elem_of_app. tauto.
  - destruct (under ≫= _) as [[k roots]|]; simpl; by apply sourced_root.
Qed.

Lemma onMergeSubscribe_sourced parent inner t :
  sourced (nodes t) → sourced (nodes (onMergeSubscribe parent inner t)).
Proof.
  intros Hsourced. unfold onMergeSubscribe.
  destruct (nodes t !! inner) as [|] eqn:Hfresh; [done|].
  destruct (get parent t) as [node|] eqn:Hget; [|done]. simpl.
  apply get_Some in Hget as [Hparent Hlive].
  apply sourced_below; try done.
  - intros node' x. simpl. rewrite elem_of_app, list_elem_of_singleton. tauto.
  - intros node' x. simpl. rewrite elem_of_app. tauto.
Qed.

Lemma onTeardown_sourced s outcome t :
  sourced (nodes t) → sourced (nodes (onTeardown s outcome t)).
Proof.
  intros Hsourced. unfold onTeardown.
  destruct (nodes t !! s) as [node|] eqn:Hnode; [|done].
  destruct (terminal node); [done|].
  set (t1 := {| retention_window := retention_window t; clock := clock t;
                nodes := _; sentinels := sentinels t; timers := timers t |}).
  assert (sourced (nodes t1)) as Hsourced1.
  { simpl. apply (sourced_grown (nodes t)); [| | |done].
    - intros z nz'. rewrite lookup_insert. case_decide as Hsz; [|eauto].
      subst z. intros [= <-]. eauto.
    - intros z nz Hz. rewrite lookup_insert. case_decide as Hsz.
      + subst z. rewrite Hnode in Hz. injection Hz as <-.
        eexists. split; [done|]. by repeat split.
      + exists nz. by repeat split.
    - intros p np' x. rewrite lookup_insert. case_decide as Hsp; [|eauto].
      subst p. intros [= <-]. simpl. eauto. }
  unfold scheduleFlush. destruct (retention_window t1); [|done].
  by apply flush_sourced.
Qed.

Lemma tracked_sourced t : tracked t → sourced (nodes t).
Proof.
  induction 1 as [window|e t _ IH].
  - split; intros ? ? ? Hlook; simpl in Hlook; by rewrite lookup_empty in Hlook.
  - destruct e as [s dest under|parent child|parent inner|s outcome|elapsed];
      simpl.
    + by apply onSubscribe_sourced.
    + unfold onSourceSubscribe.
      destruct (get parent t); [by apply onSubscribe_sourced | done].
    + by apply onMergeSubscribe_sourced.
    + by apply onTeardown_sourced.
    + unfold advance. by apply fire_sourced.
Qed.

Lemma some_answers {A : Type} (f : A → Lookup bool) (l : list A) :
  (∀ a, a ∈ l → ∃ b, f a = Answer b) →
  ∃ b, some f l = Answer b
       ∧ (b = true ↔ ∃ a, a ∈ l ∧ f a = Answer true).
Proof.
  induction l as [|a l IH]; intros Hall; simpl.
  - exists false. split; [done|]. split; [done|].
    intros (a & Hin & _). by apply elem_of_nil in Hin.
  - destruct (Hall a) as [[|] Ha]; [by left| |]; rewrite Ha.
    + exists true. split; [done|]. split; [|done]. intros _. exists a.
      split; [by left | done].
    + destruct IH as (b & Hsome & Hiff);
        [intros a' Hin; apply Hall; by right|].
      exists b. split; [done|]. rewrite Hiff. split.
      * intros (a' & Hin & Ha'). exists a'. split; [by right | done].
      * intros (a' & Hin & Ha'). apply elem_of_cons in Hin as [->|Hin];
          [congruence|]. eauto.
Qed.

Lemma tc_last {A : Type} (R : relation A) x z :
  tc R x z → ∃ y, R y z ∧ (x = y ∨ tc R x y).
Proof.
  induction 1 as [x z HR|x y z HR _ (w & Hw & Hxw)].
  - exists x. split; [done | by left].
  - exists w. split; [done|]. right.
    destruct Hxw as [->|Hyw]; [by apply tc_once | by eapply tc_l].
Qed.

(** A source of a node has the node for destination. *)
Lemma source_of_link t x p :
  sourced (nodes t) → source_of t x p → link t x p.
Proof.
  intros [Hdown _] (np & Hget & Hx).
  apply get_Some in Hget as [Hp _].
  destruct (Hdown p np x Hp (or_introl Hx)) as (nx & Hnx & Hlive & Hdest).
  unfold link, get. by rewrite Hnx, Hlive.
Qed.

Lemma hasSource_sources t (rank : Subscription → nat) x :
  (∀ s, is_Some (nodes t !! s) → rank s < size (nodes t)) →
  (∀ s node d, nodes t !! s = Some node → destination node = Some d →
     is_Some (nodes t !! d) ∧ rank d < rank s) →
  sourced (nodes t) →
  ∀ fuel p np,
    get p t = Some np → size (nodes t) - rank p ≤ fuel →
    ∃ b, hasSource fuel t np x = Answer b ∧ (b = true ↔ tc (source_of t) x p).
Proof.
  intros Hbound Hedge [Hdown Hup] fuel.
  induction fuel as [|fuel IH]; intros p np Hgetp Hfuel.
  { apply get_Some in Hgetp as [Hp _].
    assert (rank p < size (nodes t)) by (apply Hbound; by eexists). lia. }
  pose proof Hgetp as Hp. apply get_Some in Hp as [Hp _].
  assert (∀ s, s ∈ sources np →
            ∃ ns, get s t = Some ns
                  ∧ source_of t s p ∧ size (nodes t) - rank s ≤ fuel)
    as Hsources.
  { intros s Hs.
    destruct (Hdown p np s Hp (or_introl Hs)) as (ns & Hns & Hlive & Hdest).
    assert (get s t = Some ns) as Hget by (by apply get_Some).
    exists ns. split; [done|]. split; [by exists np|].
    destruct (Hedge s ns p Hns Hdest) as [_ Hlt].
    assert (rank s < size (nodes t)) by (apply Hbound; by eexists). lia. }
  simpl. case_bool_decide as Hdirect.
  - exists true. split; [done|]. split; [|done]. intros _.
    apply tc_once. by exists np.
  - destruct (some_answers
                (λ s, match get s t with
                      | Some node => hasSource fuel t node x
                      | None => NoGraphRef
                      end) (sources np)) as (b & Hsome & Hiff).
    { intros s Hs. destruct (Hsources s Hs) as (ns & Hget & _ & Hfuel').
      rewrite Hget.
      destruct (IH s ns Hget Hfuel') as (b & -> & _). eauto. }
    exists b. split; [done|]. rewrite Hiff. split.
    + intros (s & Hs & Hfound).
      destruct (Hsources s Hs) as (ns & Hget & Hlink & Hfuel').
      rewrite Hget in Hfound.
      destruct (IH s ns Hget Hfuel') as (b' & Hb' & Hiff').
      rewrite Hb' in Hfound. injection Hfound as ->.
      eapply tc_r; [by apply Hiff' | done].
    + intros Hpath. apply tc_last in Hpath as (s & (np' & Hgetp' & Hs) & Hxs).
      rewrite Hgetp in Hgetp'. injection Hgetp' as <-.
      destruct Hxs as [->|Hxs]; [done|].
      exists s. split; [done|].
      destruct (Hsources s Hs) as (ns & Hget & _ & Hfuel').
      rewrite Hget.
      destruct (IH s ns Hget Hfuel') as (b' & -> & Hiff').
      f_equal. by apply Hiff'.
Qed.

(** X13.  The helper [hasSource] of the tests follows the source lists:
    on a tracker built by events, started at a node that [get] finds and
    given the size of the table as fuel, it always has an answer, and it
    answers [true] exactly when the node is reached from the subscription
    asked for by one or more steps from a source to the node that lists it.
    Each such step is a destination link backwards, so that when [hasSource]
    answers [true], [hasDestination] answers [true] the other way round.  The
    converse holds when no node has merges; a merge has its parent for
    destination and is not among the parent's sources. *)
Theorem hasSource_follows_sources t p np x :
  tracked t →
  get p t = Some np →
  let result := hasSource (size (nodes t)) t np x in
  (∃ b, result = Answer b)
  ∧ (result = Answer true ↔ tc (source_of t) x p)
  ∧ (∀ y q, source_of t y q → link t y q)
  ∧ (∀ nx, get x t = Some nx → result = Answer true →
       hasDestination (size (nodes t)) t nx p = Answer true)
  ∧ ((∀ q nq, get q t = Some nq → merges nq = []) →
     ∀ nx, get x t = Some nx →
       hasDestination (size (nodes t)) t nx p = Answer true →
       result = Answer true).
Proof.
  intros Htracked Hget result.
  pose proof (tracked_inv t Htracked) as [(rank & Hbound & Hedge) _].
  pose proof (tracked_sourced t Htracked) as Hsourced.
  destruct (hasSource_sources t rank x Hbound Hedge Hsourced
              (size (nodes t)) p np Hget) as (b & Hb & Hiff); [lia|].
  fold result in Hb.
  assert (result = Answer true ↔ tc (source_of t) x p) as Hsources.
  { rewrite Hb, <- Hiff. split; [by intros [= ->] | by intros ->]. }
  assert (∀ nx, get x t = Some nx →
            (hasDestination (size (nodes t)) t nx p = Answer true
             ↔ tc (link t) x p)) as Hdest.
  { intros nx Hx. apply get_Some in Hx as Hnx. destruct Hnx as [Hnx _].
    assert (rank x < size (nodes t)) as Hrank by (apply Hbound; by eexists).
    by destruct (hasDestination_links t rank p Hedge _ x nx Hx Hrank)
      as [-> _]. }
  split; [eauto|]. split; [done|].
  split; [intros y q; by apply source_of_link|]. split.
  - intros nx Hx Htrue. apply (Hdest nx Hx). apply Hsources in Htrue.
    clear -Htrue Hsourced.
    induction Htrue as [y q Hstep|y q z Hstep _ IH].
    + by apply tc_once, source_of_link.
    + eapply tc_l; [by apply source_of_link | done].
  - intros Hflat nx Hx Htrue. apply Hsources. apply (Hdest nx Hx) in Htrue.
    clear Hx Hdest Hsources Hiff Hb.
    assert (∀ y q, link t y q → is_Some (get q t) → source_of t y q) as Hstep.
    { intros y q Hlink [nq Hq]. unfold link in Hlink.
      destruct (get y t) as [ny|] eqn:Hy; [|done]. simpl in Hlink.
      apply get_Some in Hy as [Hny Hlive].
      destruct Hsourced as [_ Hup].
      destruct (Hup y ny q Hny Hlive Hlink) as (nq' & Hnq' & Hin).
      apply get_Some in Hq as Hq'. destruct Hq' as [Hnq _].
      rewrite Hnq in Hnq'. injection Hnq' as <-.
      exists nq. split; [done|].
      destruct Hin as [?|Hin]; [done|].
      rewrite (Hflat q nq Hq) in Hin. by apply elem_of_nil in Hin. }
    assert (is_Some (get p t)) as Hp by (by eexists).
    revert Hp. induction Htrue as [y q Hlink|y q z Hlink Hrest IH]; intros Hz.
    + apply tc_once. by apply Hstep.
    + eapply tc_l; [|by apply IH]. apply Hstep; [done|].
      by apply link_from in Hrest.
Qed.

(** *** Merges are counted, and flushed as sources are *)

Lemma flush_unlinked x t :
  is_Some (nodes t !! x) →
  ∀ q nq, nodes (flush x t) !! q = Some nq →
    (x ∉ sources nq) ∧ (x ∉ merges nq).
Proof.
  intros [xnode Hx] q nq. unfold flush. rewrite Hx. simpl.
  rewrite lookup_alter, !lookup_fmap.
  assert (∀ node, (x ∉ sources (unlink x node)) ∧ (x ∉ merges (unlink x node)))
    as Hgone.
  { intros node. simpl. rewrite !elem_of_unlink. by split; intros [? _]. }
  case_decide as Hxq.
  - subst q. rewrite Hx. simpl. intros [= <-]. apply (Hgone xnode).
  - destruct (nodes t !! q) as [node|]; simpl; [|done]. intros [= <-].
    apply Hgone.
Qed.

Lemma flush_lists y t q nq' :
  nodes (flush y t) !! q = Some nq' →
  ∃ nq, nodes t !! q = Some nq
        ∧ ∀ x, (x ∈ sources nq' → x ∈ sources nq)
               ∧ (x ∈ merges nq' → x ∈ merges nq).
Proof.
  unfold flush. destruct (nodes t !! y) as [ynode|] eqn:Hy; [|by eauto].
  simpl. rewrite lookup_alter, !lookup_fmap.
  assert (∀ node x, (x ∈ sources (unlink y node) → x ∈ sources node)
                    ∧ (x ∈ merges (unlink y node) → x ∈ merges node))
    as Hkept.
  { intros node x. simpl. rewrite !elem_of_unlink. by split; intros [_ ?]. }
  case_decide as Hyq.
  - subst q. rewrite Hy. simpl. intros [= <-]. exists ynode.
    split; [done|]. apply Hkept.
  - destruct (nodes t !! q) as [node|]; simpl; [|done]. intros [= <-].
    exists node. split; [done|]. apply Hkept.
Qed.

Lemma fire_lists due t q nq' :
  nodes (fire due t) !! q = Some nq' →
  ∃ nq, nodes t !! q = Some nq
        ∧ ∀ x, (x ∈ sources nq' → x ∈ sources nq)
               ∧ (x ∈ merges nq' → x ∈ merges nq).
Proof.
  revert t. induction due as [|timer due IH]; intros t Hq; [by eauto|].
  simpl in Hq. destruct (IH _ Hq) as (nq1 & Hq1 & Hkept1).
  destruct (flush_lists _ _ _ _ Hq1) as (nq & Hnq & Hkept).
  exists nq. split; [done|]. intros x. split; intros Hx.
  - by apply Hkept, Hkept1.
  - by apply Hkept, Hkept1.
Qed.

Lemma fire_unlinked due t x (at_ : nat) :
  is_Some (nodes t !! x) → (at_, x) ∈ due →
  ∀ q nq, nodes (fire due t) !! q = Some nq →
    (x ∉ sources nq) ∧ (x ∉ merges nq).
Proof.
  revert t. induction due as [|timer due IH]; intros t Hx Hin q nq Hq.
  - by apply elem_of_nil in Hin.
  - simpl in Hq. apply elem_of_cons in Hin as [<-|Hin].
    + destruct (fire_lists _ _ _ _ Hq) as (nq1 & Hq1 & Hkept).
      destruct (flush_unlinked x t Hx q nq1 Hq1) as [Hs Hm].
      split; intros Hstill; [apply Hs | apply Hm]; by apply Hkept.
    + assert (is_Some (nodes (flush timer.2 t) !! x)) as Hx'.
      { destruct Hx as [xnode Hx].
        destruct (flush_node timer.2 t x xnode Hx) as (node' & Hnode' & _).
        by eexists. }
      exact (IH (flush timer.2 t) Hx' Hin q nq Hq).
Qed.

Lemma handle_unlink_pending e i due t :
  unlink_pending i due t → unlink_pending i due (handle e t).
Proof.
  intros ((node & Hnode & Hterminal) & Hwindow & Hstate).
  assert (∀ s (f : GraphNode → GraphNode) d child t',
            nodes t !! s = None →
            nodes t' = <[s := child]> (alter f d (nodes t)) →
            sources child = [] → merges child = [] →
            (∀ nq, terminal (f nq) = terminal nq
                   ∧ ∀ x, x ∈ sources (f nq) ∨ x ∈ merges (f nq) →
                          x = s ∨ x ∈ sources nq ∨ x ∈ merges nq) →
            retention_window t' = retention_window t →
            clock t' = clock t → timers t' = timers t →
            unlink_pending i due t') as Hbelow.
  { intros s f d child t' Hs Hnodes Hsrc Hmrg Hf Hw Hc Ht.
    assert (i ≠ s) as His by congruence.
    split; [|split; [by rewrite Hw|]].
    - rewrite Hnodes, lookup_insert_ne, lookup_alter by done.
      case_decide; [subst d|]; rewrite Hnode; simpl; [|eauto].
      eexists. split; [done|]. by rewrite (proj1 (Hf node)).
    - destruct Hstate as [Hgone|Harmed]; [left | right; by rewrite Ht, Hc].
      intros q nq. rewrite Hnodes.
      destruct (decide (q = s)) as [->|Hqs].
      { rewrite lookup_insert_eq. intros [= <-]. rewrite Hsrc, Hmrg.
        split; apply not_elem_of_nil. }
      rewrite lookup_insert_ne, lookup_alter by done.
      case_decide as Hdq; [|apply Hgone].
      subst q. destruct (nodes t !! d) as [dnode|] eqn:Hd; [|done].
      simpl. intros [= <-]. destruct (Hgone d dnode Hd) as [Hs' Hm'].
      destruct (Hf dnode) as [_ Hlists].
      split; intros Hin.
      + destruct (Hlists i (or_introl Hin)) as [?|[?|?]]; done.
      + destruct (Hlists i (or_intror Hin)) as [?|[?|?]]; done. }
  assert (∀ s dest under, unlink_pending i due (onSubscribe s dest under t))
    as Hsubscribe.
  { intros s dest under. unfold onSubscribe.
    destruct (nodes t !! s) as [snode|] eqn:Hs; [by repeat split; eauto|].
    destruct (dest ≫= _) as [[d parent]|].
    - apply (Hbelow s (with_source s) d (node_below d parent)); try done.
      intros nq. split; [done|]. intros x. simpl.
      rewrite elem_of_app, list_elem_of_singleton. tauto.
    - assert (i ≠ s) as His by congruence.
      assert (∀ k, (∀ q nq, <[s := root_under k]> (nodes t) !! q = Some nq →
                      (i ∉ sources nq) ∧ (i ∉ merges nq))
                   ∨ ((due, i) ∈ timers t ∧ clock t < due)) as Hstate'.
      { intros k. destruct Hstate as [Hgone|Harmed]; [left | by right].
        intros q nq. destruct (decide (q = s)) as [->|Hqs].
        - rewrite lookup_insert_eq. intros [= <-]. simpl.
          split; apply not_elem_of_nil.
        - rewrite lookup_insert_ne by done. apply Hgone. }
      destruct (under ≫= _) as [[k roots]|];
        (split; [|split; [done|apply Hstate']]); simpl;
        rewrite lookup_insert_ne by done; eauto. }
  destruct e as [s dest under|parent child|parent inner|s outcome|elapsed];
    simpl.
  - apply Hsubscribe.
  - unfold onSourceSubscribe.
    destruct (get parent t); [apply Hsubscribe | by repeat split; eauto].
  - unfold onMergeSubscribe.
    destruct (nodes t !! inner) as [|] eqn:Hfresh; [by repeat split; eauto|].
    destruct (get parent t) as [pnode|]; [|by repeat split; eauto].
    apply (Hbelow inner (with_merge inner) parent (node_below parent pnode));
      try done.
    intros nq. split; [done|]. intros x. simpl.
    rewrite elem_of_app, list_elem_of_singleton. tauto.
  - unfold onTeardown.
    destruct (nodes t !! s) as [snode|] eqn:Hs; [|by repeat split; eauto].
    destruct (terminal snode) eqn:Hsterminal; [by repeat split; eauto|].
    assert (i ≠ s) as His.
    { intros ->. rewrite Hs in Hnode. injection Hnode as ->.
      rewrite Hsterminal in Hterminal. by destruct Hterminal. }
    unfold scheduleFlush. simpl.
    destruct (retention_window t) as [|w] eqn:Hw; [lia|].
    split; [|split; [simpl; lia|]]; simpl.
    + rewrite lookup_insert_ne by done. eauto.
    + destruct Hstate as [Hgone|[Htimer Hclock]]; [left|right].
      * intros q nq. rewrite lookup_insert. case_decide as Hsq; [|apply Hgone].
        subst q. intros [= <-]. simpl. by apply (Hgone s snode).
      * split; [|done]. apply elem_of_app. by left.
  - unfold advance.
    set (now := clock t + elapsed).
    set (t0 := {| retention_window := retention_window t; clock := now;
                  nodes := nodes t; sentinels := sentinels t; timers := _ |}).
    set (firing := List.filter _ (timers t)).
    destruct (fire_node firing t0 i node Hnode) as (node' & Hnode' & _ & _ & Ht).
    destruct (fire_fields firing t0) as (Hw' & Hclock' & Htimers').
    split; [exists node'; split; [done | congruence]|].
    split; [by rewrite Hw'|].
    destruct Hstate as [Hgone|[Htimer Hahead]].
    { left. intros q nq Hq.
      destruct (fire_lists firing t0 q nq Hq) as (nq0 & Hq0 & Hkept).
      destruct (Hgone q nq0 Hq0) as [Hs Hm].
      split; intros Hin; [apply Hs | apply Hm]; by apply Hkept. }
    destruct (decide (due ≤ now)) as [Hdue|Hlater].
    + left. apply (fire_unlinked firing t0 i due); [by eexists|].
      apply list_elem_of_In, filter_In. split; [by apply list_elem_of_In|].
      simpl. by apply Nat.leb_le.
    + right. rewrite Htimers', Hclock'. simpl. split; [|lia].
      apply list_elem_of_In, filter_In. split; [by apply list_elem_of_In|].
      simpl. apply negb_true_iff, Nat.leb_gt. lia.
Qed.

Lemma replay_unlink_pending events i due t :
  unlink_pending i due t → unlink_pending i due (replay events t).
Proof.
  revert t. induction events as [|e events IH]; intros t Hpending; [done|].
  simpl. by apply IH, handle_unlink_pending.
Qed.

Lemma merges_keep_nodes p (inners : list Subscription) x t nx :
  get x t = Some nx → x ∉ inners →
  ∃ nx', get x (replay (OnMergeSubscribe p <$> inners) t) = Some nx'
         ∧ destination nx' = destination nx ∧ sentinel nx' = sentinel nx.
Proof.
  revert t nx. induction inners as [|y inners IH]; intros t nx Hx Hnotin;
    [by eauto|].
  apply not_elem_of_cons in Hnotin as [Hxy Hnotin]. simpl.
  assert (∃ nx1, get x (onMergeSubscribe p y t) = Some nx1
                 ∧ destination nx1 = destination nx
                 ∧ sentinel nx1 = sentinel nx) as (nx1 & Hx1 & Hd1 & Hk1).
  { unfold onMergeSubscribe.
    destruct (nodes t !! y) as [|] eqn:Hy; [by eauto|].
    destruct (get p t) as [pnode|]; [|by eauto].
    apply get_Some in Hx as [Hx Hlive].
    destruct (decide (p = x)) as [->|Hpx].
    - exists (with_merge y nx). split; [|done]. apply get_Some. simpl.
      by rewrite lookup_insert_ne, lookup_alter_eq, Hx.
    - exists nx. split; [|done]. apply get_Some. simpl.
      by rewrite lookup_insert_ne, lookup_alter_ne. }
  destruct (IH _ nx1 Hx1 Hnotin) as (nx' & Hx' & Hd' & Hk').
  exists nx'. split; [done|]. split; congruence.
Qed.

(** X16.  Merges are counted, and flushed as sources are.  When a node
    that [get] finds is told of inner subscriptions the tracker does not know,
    one for each value, they are appended to its merges in that order, so
    that there are [k] more after the [k]-th; each has the node for
    destination and shares its sentinel; and the sources of the node are as
    before.  When a subscription listed in the sources or the merges of a
    node terminates: with a retention window of zero it is in neither list of
    any node right after; with a window [d > 0] the lists of the node are
    unchanged right after, and once the clock has advanced by [d] the
    subscription is in neither list of any node, whatever else the tracker
    observes in between. *)
Theorem merges_counted_and_flushed t p np :
  tracked t →
  get p t = Some np →
  (∀ inners, NoDup inners → (∀ x, x ∈ inners → nodes t !! x = None) →
     let t' := replay (OnMergeSubscribe p <$> inners) t in
     ∃ np', get p t' = Some np'
       ∧ merges np' = merges np ++ inners
       ∧ length (merges np') = length (merges np) + length inners
       ∧ sources np' = sources np
       ∧ ∀ x, x ∈ inners →
           ∃ nx, get x t' = Some nx ∧ destination nx = Some p
                 ∧ sentinel nx = sentinel np)
  ∧ (∀ i ni outcome,
       i ∈ sources np ∨ i ∈ merges np →
       get i t = Some ni → terminal ni = None →
       let t' := onTeardown i outcome t in
       (retention_window t = 0 →
          ∀ q nq, nodes t' !! q = Some nq → (i ∉ sources nq) ∧ (i ∉ merges nq))
       ∧ (0 < retention_window t →
            get p t' = Some np
            ∧ ∀ events,
                clock t + retention_window t ≤ clock (replay events t') →
                ∀ q nq, nodes (replay events t') !! q = Some nq →
                  (i ∉ sources nq) ∧ (i ∉ merges nq))).
Proof.
  intros Htracked Hget. split.
  - intros inners. clear Htracked. revert t np Hget.
    induction inners as [|x inners IH]; intros t np Hget Hnodup Hnew t'.
    { exists np. subst t'. simpl. rewrite app_nil_r.
      split; [done|]. split; [done|]. split; [lia|]. split; [done|].
      intros x Hx. by apply elem_of_nil in Hx. }
    apply NoDup_cons in Hnodup as [Hx Hnodup].
    assert (nodes t !! x = None) as Hfresh by (apply Hnew; by left).
    assert (p ≠ x) as Hpx.
    { apply get_Some in Hget as [Hp _]. congruence. }
    set (t1 := onMergeSubscribe p x t).
    assert (nodes t1 = <[x := node_below p np]>
                         (alter (with_merge x) p (nodes t))) as Hnodes1.
    { unfold t1, onMergeSubscribe. by rewrite Hfresh, Hget. }
    assert (get p t1 = Some (with_merge x np)) as Hget1.
    { apply get_Some in Hget as [Hp Hlive]. apply get_Some.
      rewrite Hnodes1, lookup_insert_ne, lookup_alter_eq, Hp by done. done. }
    destruct (IH t1 (with_merge x np) Hget1 Hnodup)
      as (np' & Hget' & Hmerges & Hlen & Hsources & Hinners).
    { intros y Hy. rewrite Hnodes1.
      assert (y ≠ x) as Hyx by (intros ->; done).
      rewrite lookup_insert_ne, lookup_alter_ne; [by apply Hnew; right|..].
      - apply get_Some in Hget as [Hp _].
        intros ->. rewrite (Hnew y) in Hp; [done | by right].
      - done. }
    exists np'. subst t'. simpl. fold t1.
    split; [done|]. split; [by rewrite Hmerges; simpl; rewrite <- app_assoc|].
    split; [rewrite Hlen; simpl; rewrite length_app; simpl; lia|].
    split; [done|].
    intros y [->|Hy]%elem_of_cons; [|by apply Hinners].
    assert (get x t1 = Some (node_below p np)) as Hx1.
    { apply get_Some. by rewrite Hnodes1, lookup_insert_eq. }
    destruct (merges_keep_nodes p inners x t1 _ Hx1 Hx)
      as (nx & Hnx & Hdest & Hsentinel).
    exists nx. split; [done|]. by rewrite Hdest, Hsentinel.
  - intros i ni outcome Hlisted Hgeti Hterminal t'.
    pose proof (tracked_inv t Htracked) as [(rank & _ & Hedge) _].
    pose proof (tracked_sourced t Htracked) as [Hdown _].
    apply get_Some in Hgeti as [Hi Hlive].
    pose proof Hget as Hp. apply get_Some in Hp as [Hp Hplive].
    assert (p ≠ i) as Hpi.
    { destruct (Hdown p np i Hp Hlisted) as (ni' & Hi' & _ & Hdest).
      destruct (Hedge i ni' p Hi' Hdest) as [_ Hlt]. intros ->. lia. }
    unfold t', onTeardown. rewrite Hi, Hterminal. unfold scheduleFlush. simpl.
    split.
    + intros Hzero. rewrite Hzero. apply flush_unlinked. simpl.
      rewrite lookup_insert_eq. by eexists.
    + intros Hpositive.
      destruct (retention_window t) as [|w] eqn:Hw; [lia|].
      set (t1 := {| retention_window := S w; clock := clock t; nodes := _;
                    sentinels := sentinels t; timers := _ |}).
      split.
      { apply get_Some. simpl. by rewrite lookup_insert_ne. }
      assert (unlink_pending i (clock t + S w) t1) as Hpending.
      { split; [|split].
        - eexists. split; [apply lookup_insert_eq|]. simpl. eauto.
        - simpl. lia.
        - right. simpl. split; [|lia]. apply elem_of_app. right. by left. }
      intros events Hclock.
      destruct (replay_unlink_pending events i _ t1 Hpending)
        as (_ & _ & Hstate).
      destruct Hstate as [Hgone|[_ Hahead]]; [done | lia].
Qed.

End graph_extras.

(** *** The helpers on the trackers of the tests *)

Lemma hasDestination_decides_links_witness :
  tracked (chain 0)
  ∧ ∃ subject,
      get 10 (chain 0) = Some subject
      ∧ rootDestination (chain 0) subject = Some 12
      ∧ hasDestination (size (nodes (chain 0))) (chain 0) subject 12
        = Answer true.
Proof.
  assert (tracked (chain 0)) as Htracked by (apply replay_tracked; constructor).
  split; [exact Htracked|].
  set (subject := {| destination := Some 11; sources := []; merges := [];
                     sentinel := 0; terminal := None; flushed := false |}).
  exists subject. split; [reflexivity|]. split; [reflexivity|].
  exact (proj2 (proj2 (hasDestination_decides_links (chain 0) 10 subject 12
                         Htracked eq_refl)) eq_refl).
Defined.

(** On the chain [hasSource] finds the subject from the root; on the
    tracker of the merge tests it finds the source 21 from the root and not
    the merge 22, from the root or from its parent 21, while
    [hasDestination] answers [true] for 22 and each of them. *)
Lemma hasSource_follows_sources_witness :
  tracked (chain 0) ∧ tracked (flattening 0)
  ∧ (∃ remapped subject,
       get 12 (chain 0) = Some remapped ∧ get 10 (chain 0) = Some subject
       ∧ hasSource (size (nodes (chain 0))) (chain 0) remapped 10 = Answer true
       ∧ hasDestination (size (nodes (chain 0))) (chain 0) subject 12
         = Answer true)
  ∧ (∃ composed outer inner,
       get 20 (flattening 0) = Some composed
       ∧ get 21 (flattening 0) = Some outer
       ∧ get 22 (flattening 0) = Some inner
       ∧ sources composed = [21] ∧ merges outer = [22]
       ∧ hasSource (size (nodes (flattening 0))) (flattening 0) composed 21
         = Answer true
       ∧ hasSource (size (nodes (flattening 0))) (flattening 0) composed 22
         = Answer false
       ∧ hasSource (size (nodes (flattening 0))) (flattening 0) outer 22
         = Answer false
       ∧ hasDestination (size (nodes (flattening 0))) (flattening 0) inner 21
         = Answer true
       ∧ hasDestination (size (nodes (flattening 0))) (flattening 0) inner 20
         = Answer true).
Proof.
  assert (tracked (chain 0)) as Htracked by (apply replay_tracked; constructor).
  assert (tracked (flattening 0)) as Htracked'
    by (apply replay_tracked; constructor).
  split; [exact Htracked|]. split; [exact Htracked'|]. split.
  - set (remapped := {| destination := None; sources := [11]; merges := [];
                        sentinel := 0; terminal := None; flushed := false |}).
    set (subject := {| destination := Some 11; sources := []; merges := [];
                       sentinel := 0; terminal := None; flushed := false |}).
    exists remapped, subject. split; [reflexivity|]. split; [reflexivity|].
    destruct (hasSource_follows_sources (chain 0) 12 remapped 10
                Htracked eq_refl) as (_ & _ & _ & Hthere & _).
    split; [vm_compute; reflexivity|].
    apply (Hthere subject eq_refl). vm_compute. reflexivity.
  - eexists _, _, _. split; [vm_compute; reflexivity|].
    split; [vm_compute; reflexivity|]. split; [vm_compute; reflexivity|].
    repeat split; vm_compute; reflexivity.
Defined.

Lemma merges_counted_and_flushed_witness :
  tracked (flattening 0) ∧ tracked (flattening 10)
  ∧ (∃ outer,
       get 21 (replay [OnMergeSubscribe 21 23; OnMergeSubscribe 21 24]
                 (flattening 0)) = Some outer
       ∧ merges outer = [22; 23; 24] ∧ sources outer = [])
  ∧ (∀ q nq, nodes (onTeardown 22 completed (flattening 0)) !! q = Some nq →
       (22 ∉ sources nq) ∧ (22 ∉ merges nq))
  ∧ merges <$> get 21 (onTeardown 22 completed (flattening 10)) = Some [22]
  ∧ (∀ q nq,
       nodes (advance 10 (onTeardown 22 completed (flattening 10))) !! q
       = Some nq → (22 ∉ sources nq) ∧ (22 ∉ merges nq)).
Proof.
  assert (∀ window, tracked (flattening window)) as Htracked
    by (intros window; apply replay_tracked; constructor).
  set (outer := with_merge 22 (node_below 20 (root_under 0))).
  set (inner := node_below 21 (node_below 20 (root_under 0))).
  destruct (merges_counted_and_flushed (flattening 0) 21 outer
              (Htracked 0) eq_refl) as [Hcount Hflush].
  destruct (merges_counted_and_flushed (flattening 10) 21 outer
              (Htracked 10) eq_refl) as [_ Hflush'].
  assert (NoDup [23; 24]) as Hnodup
    by (repeat constructor; rewrite ?elem_of_cons, ?elem_of_nil; lia).
  assert (∀ x, x ∈ [23; 24] → nodes (flattening 0) !! x = None) as Hnew.
  { intros x Hx. apply elem_of_cons in Hx as [->|Hx]; [reflexivity|].
    apply list_elem_of_singleton in Hx as ->. reflexivity. }
  destruct (Hcount [23; 24] Hnodup Hnew)
    as (outer' & Hget & Hmerges & _ & Hsources & _).
  assert (22 ∈ sources outer ∨ 22 ∈ merges outer) as Hlisted
    by (right; left).
  destruct (Hflush 22 inner completed Hlisted eq_refl eq_refl)
    as [Hzero _].
  destruct (Hflush' 22 inner completed Hlisted eq_refl eq_refl)
    as [_ Hlater].
  assert (0 < retention_window (flattening 10)) as Hpositive
    by (vm_compute; lia).
  destruct (Hlater Hpositive) as [Hkept Hgone].
  split; [exact (Htracked 0)|]. split; [exact (Htracked 10)|].
  split; [exists outer'; split; [exact Hget | split; assumption]|].
  split; [exact (Hzero eq_refl)|].
  split; [by rewrite Hkept|].
  apply (Hgone [Advance 10]). vm_compute. lia.
Defined.
